(** * AnuIndustries: the cookie-file validator of [scripts/download_apple_music.py]

    The script has two functions.  [validate_cookies_path] resolves a path
    with [pathlib.Path.resolve] and tests it with [Path.is_file]; [main]
    calls it and then drives the [gamdl] library.  Both are embedded below,
    with the two tests of [tests/test_download_apple_music.py], over a model
    of what they run on:

    - a POSIX file system as a tree of regular files, directories, symbolic
      links and special files, with the kernel's path resolution ([namei],
      following at most [MAXSYMLINKS] links, names of at most [NAME_MAX]
      bytes);
    - CPython 3.11's [posixpath] ([join], [split], [normpath], [abspath],
      [realpath] with its [_joinrealpath], non strict) on strings, as
      [Lib/posixpath.py] has them, and [Path.resolve] and [Path.is_file] as
      [Lib/pathlib.py] has them;
    - a state-and-exception monad over the operating-system state and a
      trace of the operations performed.

    Scope of the model.  Strings are byte strings, as the kernel sees
    them.  Of the permission bits the one that path resolution asks for is
    kept: a directory is open to the process or locked ([EACCES]), and the
    working directory is not below a locked one.  A single name is limited
    to [NAME_MAX] bytes; a pathname may be of any length (no [PATH_MAX]).
    A working directory that the tree does not hold has been removed: the
    kernel still walks out of it by [..], finds no name in it, and
    [getcwd] fails.  The recursion of [_joinrealpath] is granted
    [recursion_limit] frames, those of its callers not counted; what is
    proved of paths the kernel resolves holds for any number of frames
    above [MAXSYMLINKS]. *)

From Stdlib Require Import String Ascii List Bool Arith Lia.
Import ListNotations.
Open Scope string_scope.
Open Scope list_scope.

Set Implicit Arguments.
Set Warnings "-register-all".

(* ================================================================== *)
(** * Part I: the model *)

(** ** Strings and path components *)

Definition sep : ascii := "/"%char.
Definition curdir : string := ".".
Definition pardir : string := "..".

(** [str.split("/")]: the pieces between separators, empty ones included. *)
Fixpoint split_sep (s : string) : list string :=
  match s with
  | EmptyString => [EmptyString]
  | String c s' =>
      if Ascii.eqb c sep then EmptyString :: split_sep s'
      else match split_sep s' with
           | [] => [String c EmptyString]
           | x :: xs => String c x :: xs
           end
  end.

(** [s.startswith("/")], which is [posixpath.isabs]. *)
Definition isabs (s : string) : bool :=
  match s with
  | String c _ => Ascii.eqb c sep
  | EmptyString => false
  end.

(** [s.endswith("/")] *)
Fixpoint endswith_sep (s : string) : bool :=
  match s with
  | EmptyString => false
  | String c EmptyString => Ascii.eqb c sep
  | String _ s' => endswith_sep s'
  end.

(** [s[1:]] *)
Definition drop_first (s : string) : string :=
  match s with
  | String _ s' => s'
  | EmptyString => EmptyString
  end.

(** Whether the string holds a NUL character: [os.stat] and [os.lstat]
    refuse such a path with [ValueError]. *)
Fixpoint has_nul (s : string) : bool :=
  match s with
  | EmptyString => false
  | String c s' => Ascii.eqb c Ascii.zero || has_nul s'
  end.

Fixpoint has_sep (s : string) : bool :=
  match s with
  | EmptyString => false
  | String c s' => Ascii.eqb c sep || has_sep s'
  end.

(** ["/".join(parts)] *)
Definition join_sep (parts : list string) : string := String.concat "/" parts.

(** The components a walk steps over: the empty one and [.]. *)
Definition is_skip (name : string) : bool :=
  String.eqb name "" || String.eqb name curdir.

(** The longest name a directory holds, in bytes. *)
Definition NAME_MAX : nat := 255.

Definition too_long (name : string) : bool := Nat.ltb NAME_MAX (String.length name).

(** A component that can name a directory entry: not empty, not [.] or
    [..], without NUL or separator, of at most [NAME_MAX] bytes. *)
Definition entry_name (name : string) : bool :=
  negb (is_skip name) && negb (String.eqb name pardir) && negb (has_nul name)
  && negb (has_sep name) && negb (too_long name).

(** ** The file system *)

(** An absolute location: the names from the root down. *)
Definition path := list string.

Inductive node : Type :=
| File (data : string)
| Special                       (* fifo, socket, device *)
| Symlink (target : string)
| Dir (entries : list (string * node))
| Locked.                       (* a directory the process may not search *)

Fixpoint child (name : string) (entries : list (string * node)) : option node :=
  match entries with
  | [] => None
  | (n, x) :: rest => if String.eqb n name then Some x else child name rest
  end.

(** The object at a location, no link followed.  What a locked directory
    holds is out of the process's reach, and is not part of the tree. *)
Fixpoint lookup (n : node) (p : path) : option node :=
  match p with
  | [] => Some n
  | name :: p' =>
      match n with
      | Dir entries =>
          match child name entries with
          | Some n' => lookup n' p'
          | None => None
          end
      | _ => None
      end
  end.

(** A directory the process may search. *)
Definition is_dir (o : option node) : bool :=
  match o with Some (Dir _) => true | _ => false end.

Definition is_link (o : option node) : bool :=
  match o with Some (Symlink _) => true | _ => false end.

Definition parent (p : path) : path := removelast p.

Definition path_eq_dec : forall a b : path, {a = b} + {a <> b} :=
  list_eq_dec string_dec.

(** The operating-system state the script runs against. *)
Record World : Type := mkWorld {
  root : node;
  cwd : path
}.

(** Every prefix of [cur ++ rest] below [cur] names an existing object that
    is not a symbolic link, under a name a directory can hold. *)
Fixpoint canonical_from (r : node) (cur : path) (rest : list string) : bool :=
  match rest with
  | [] => true
  | name :: rest' =>
      entry_name name
      && match lookup r (cur ++ [name]) with
         | Some (Symlink _) | None => false
         | Some _ => canonical_from r (cur ++ [name]) rest'
         end
  end.

Definition canonical (r : node) (p : path) : bool := canonical_from r [] p.

(** What the kernel guarantees of a working directory that has not been
    removed. *)
Definition world_ok (w : World) : bool :=
  canonical (root w) (cwd w) && is_dir (lookup (root w) (cwd w)).

(** ** Path resolution in the kernel *)

Inductive errno : Type := ENOENT | EACCES | ENOTDIR | ELOOP | ENAMETOOLONG.

Definition MAXSYMLINKS : nat := 40.

Section Kernel.
Variable r : node.

(** [namei budget cur rest]: walk the components [rest] from the directory
    at [cur], following symbolic links, at most [budget] of them.  An empty
    component (a doubled or trailing separator) and [.] both ask that the
    current object be a directory; every component but the empty one is
    looked up in it, which a locked directory refuses.  No directory holds
    a name with a NUL, and a link with an empty target leads nowhere.  A
    location the tree does not hold is a directory that has been removed:
    [.] stays in it, [..] leaves it, and it holds no name. *)
Fixpoint namei (budget : nat) : path -> list string -> errno + path :=
  fix walk (cur : path) (rest : list string) {struct rest} : errno + path :=
    match rest with
    | [] => inr cur
    | name :: rest' =>
        match lookup r cur with
        | Some (Dir _) =>
            if is_skip name then walk cur rest'
            else if String.eqb name pardir then walk (parent cur) rest'
            else if too_long name then inl ENAMETOOLONG
            else if has_nul name then inl ENOENT
            else
              match lookup r (cur ++ [name]) with
              | None => inl ENOENT
              | Some (Symlink t) =>
                  match budget with
                  | O => inl ELOOP
                  | S b =>
                      if String.eqb t "" then inl ENOENT
                      else namei b (if isabs t then [] else cur)
                                 (split_sep t ++ rest')
                  end
              | Some _ => walk (cur ++ [name]) rest'
              end
        | Some Locked =>
            if String.eqb name "" then walk cur rest' else inl EACCES
        | Some _ => inl ENOTDIR
        | None =>
            if is_skip name then walk cur rest'
            else if String.eqb name pardir then walk (parent cur) rest'
            else inl ENOENT
        end
    end.

(** What a walk has arrived at: the object of the tree, or the empty
    directory that a removed directory still is. *)
Definition object_at (p : path) : node :=
  match lookup r p with
  | Some n => n
  | None => Dir []
  end.

(** [stat(2)] of the pathname made of [rest], taken from [cur]. *)
Definition sys_stat (cur : path) (rest : list string) : errno + node :=
  match namei MAXSYMLINKS cur rest with
  | inl e => inl e
  | inr p => inr (object_at p)
  end.

(** [lstat(2)]: as [stat], except that a link named by the last component
    is not followed.  A last component that is empty, [.] or [..] is
    walked as any other. *)
Definition sys_lstat (cur : path) (rest : list string) : errno + node :=
  let name := last rest "" in
  if is_skip name || String.eqb name pardir then sys_stat cur rest
  else
    match namei MAXSYMLINKS cur (removelast rest) with
    | inl e => inl e
    | inr dir =>
        match lookup r dir with
        | Some (Dir _) =>
            if too_long name then inl ENAMETOOLONG
            else if has_nul name then inl ENOENT
            else
              match lookup r (dir ++ [name]) with
              | Some n => inr n
              | None => inl ENOENT
              end
        | Some Locked => inl EACCES
        | Some _ => inl ENOTDIR
        | None => inl ENOENT
        end
    end.

(** [resolves cur rest c k]: the walk over [rest] from the directory [cur]
    ends at [c] after following exactly [k] links. *)
Inductive resolves : path -> list string -> path -> nat -> Prop :=
| rs_done cur : resolves cur [] cur 0
| rs_skip cur name rest c k :
    is_dir (lookup r cur) = true ->
    is_skip name = true ->
    resolves cur rest c k ->
    resolves cur (name :: rest) c k
| rs_stay cur rest c k :
    lookup r cur = Some Locked ->
    resolves cur rest c k ->
    resolves cur ("" :: rest) c k
| rs_up cur name rest c k :
    is_dir (lookup r cur) = true ->
    is_skip name = false ->
    String.eqb name pardir = true ->
    resolves (parent cur) rest c k ->
    resolves cur (name :: rest) c k
| rs_enter cur name rest c k :
    is_dir (lookup r cur) = true ->
    is_skip name = false ->
    String.eqb name pardir = false ->
    too_long name = false ->
    has_nul name = false ->
    lookup r (cur ++ [name]) <> None ->
    is_link (lookup r (cur ++ [name])) = false ->
    resolves (cur ++ [name]) rest c k ->
    resolves cur (name :: rest) c k
| rs_follow cur name rest c k t :
    is_dir (lookup r cur) = true ->
    is_skip name = false ->
    String.eqb name pardir = false ->
    too_long name = false ->
    has_nul name = false ->
    lookup r (cur ++ [name]) = Some (Symlink t) ->
    t <> "" ->
    resolves (if isabs t then [] else cur) (split_sep t ++ rest) c k ->
    resolves cur (name :: rest) c (S k).
End Kernel.

(** ** Python values: exceptions and results *)

Inductive exn_class : Type :=
| Exception
| OSError | FileNotFoundError | NotADirectoryError | PermissionError
| RuntimeError | RecursionError
| ValueError | TypeError | AttributeError | ImportError.

(** The direct base class, as in the interpreter's hierarchy. *)
Definition base (c : exn_class) : option exn_class :=
  match c with
  | Exception => None
  | OSError | RuntimeError | ValueError | TypeError | AttributeError
  | ImportError => Some Exception
  | FileNotFoundError | NotADirectoryError | PermissionError => Some OSError
  | RecursionError => Some RuntimeError
  end.

Definition exn_class_eqb (a b : exn_class) : bool :=
  match a, b with
  | Exception, Exception | OSError, OSError
  | FileNotFoundError, FileNotFoundError
  | NotADirectoryError, NotADirectoryError
  | PermissionError, PermissionError
  | RuntimeError, RuntimeError | RecursionError, RecursionError
  | ValueError, ValueError | TypeError, TypeError
  | AttributeError, AttributeError
  | ImportError, ImportError => true
  | _, _ => false
  end.

(** [issubclass(c, d)]; the hierarchy is three levels deep. *)
Definition issubclass (c d : exn_class) : bool :=
  exn_class_eqb c d
  || match base c with
     | Some c1 =>
         exn_class_eqb c1 d
         || match base c1 with
            | Some c2 => exn_class_eqb c2 d
            | None => false
            end
     | None => false
     end.

Record exn : Type := mkExn {
  exn_type : exn_class;
  exn_message : string
}.

Inductive Res (A : Type) : Type :=
| Ret (a : A)
| Raise (e : exn).
Arguments Ret {A} a.
Arguments Raise {A} e.

(** [except cls:] takes the exception, or lets it pass. *)
Definition caught_by (cls : exn_class) (e : exn) : bool :=
  issubclass (exn_type e) cls.

(** ** [os]: system calls as Python shows them *)

Fixpoint has_char (c : ascii) (s : string) : bool :=
  match s with
  | EmptyString => false
  | String x s' => Ascii.eqb x c || has_char c s'
  end.

Definition hex_digit (n : nat) : ascii :=
  match n with
  | 0 => "0" | 1 => "1" | 2 => "2" | 3 => "3" | 4 => "4"
  | 5 => "5" | 6 => "6" | 7 => "7" | 8 => "8" | 9 => "9"
  | 10 => "a" | 11 => "b" | 12 => "c" | 13 => "d" | 14 => "e"
  | _ => "f"
  end%char.

Definition quote : ascii := "'"%char.
Definition double_quote : ascii := Ascii.ascii_of_nat 34.
Definition backslash : ascii := "\"%char.

Definition escape (q : ascii) (c : ascii) : string :=
  let n := Ascii.nat_of_ascii c in
  if Ascii.eqb c backslash then "\\"
  else if Ascii.eqb c q then String backslash (String c "")
  else if Nat.eqb n 9 then "\t"
  else if Nat.eqb n 10 then "\n"
  else if Nat.eqb n 13 then "\r"
  else if Nat.ltb n 32 || Nat.eqb n 127 then
    String backslash
      (String "x" (String (hex_digit (n / 16)) (String (hex_digit (n mod 16)) "")))
  else String c "".

Fixpoint escape_all (q : ascii) (s : string) : string :=
  match s with
  | EmptyString => EmptyString
  | String c s' => (escape q c ++ escape_all q s')%string
  end.

(** [repr(s)]: single quotes, unless the string holds one and no double
    quote; bytes above 127 are taken to spell printable characters. *)
Definition repr (s : string) : string :=
  let q := if has_char quote s && negb (has_char double_quote s)
           then double_quote else quote in
  String q (escape_all q s ++ String q "").

Definition errno_number (e : errno) : string :=
  match e with
  | ENOENT => "2"
  | EACCES => "13"
  | ENOTDIR => "20"
  | ENAMETOOLONG => "36"
  | ELOOP => "40"
  end.

Definition strerror (e : errno) : string :=
  match e with
  | ENOENT => "No such file or directory"
  | EACCES => "Permission denied"
  | ENOTDIR => "Not a directory"
  | ENAMETOOLONG => "File name too long"
  | ELOOP => "Too many levels of symbolic links"
  end.

Definition errno_class (e : errno) : exn_class :=
  match e with
  | ENOENT => FileNotFoundError
  | EACCES => PermissionError
  | ENOTDIR => NotADirectoryError
  | ENAMETOOLONG | ELOOP => OSError
  end.

(** The [OSError] of a failed system call, about [filename] when the call
    takes one. *)
Definition os_error (e : errno) (filename : option string) : exn :=
  mkExn (errno_class e)
        ("[Errno " ++ errno_number e ++ "] " ++ strerror e
         ++ match filename with
            | Some f => ": " ++ repr f
            | None => ""
            end)%string.

Definition embedded_null : exn := mkExn ValueError "embedded null byte".

(** What [os.stat] and [os.lstat] give: the object found, the error of the
    system call, or [ValueError] for a path with a NUL, which the call is
    not made for. *)
Inductive stat_result : Type :=
| StatOk (n : node)
| StatErr (e : errno)
| StatValueError.

(** [str(p)] of an absolute location. *)
Definition str_path (p : path) : string := String sep (join_sep p).

(** [os.lstat(s)]; the kernel finds nothing under the empty pathname. *)
Definition os_lstat (w : World) (s : string) : stat_result :=
  if has_nul s then StatValueError
  else if String.eqb s "" then StatErr ENOENT
  else match sys_lstat (root w) (if isabs s then [] else cwd w)
                       (split_sep s) with
       | inr n => StatOk n
       | inl e => StatErr e
       end.

(** [os.getcwd()]: the kernel has no name for a directory that has been
    removed. *)
Definition getcwd (w : World) : Res string :=
  if world_ok w then Ret (str_path (cwd w))
  else Raise (os_error ENOENT None).

(** ** [posixpath] *)

(** [posixpath.join(a, b)] *)
Definition join (a b : string) : string :=
  if isabs b then b
  else if String.eqb a "" || endswith_sep a then (a ++ b)%string
  else (a ++ String sep b)%string.

(** [(p[:i], p[i:])] for [i = p.rfind("/") + 1] *)
Fixpoint rpartition (p : string) : string * string :=
  match p with
  | EmptyString => (EmptyString, EmptyString)
  | String c p' =>
      let (head, tail) := rpartition p' in
      match head with
      | EmptyString =>
          if Ascii.eqb c sep then (String c EmptyString, tail)
          else (EmptyString, String c tail)
      | String _ _ => (String c head, tail)
      end
  end.

(** [s.rstrip("/")] *)
Fixpoint rstrip_sep (s : string) : string :=
  match s with
  | EmptyString => EmptyString
  | String c s' =>
      match rstrip_sep s' with
      | EmptyString => if Ascii.eqb c sep then EmptyString else String c EmptyString
      | String _ _ as t => String c t
      end
  end.

(** [s == "/" * len(s)] *)
Fixpoint all_sep (s : string) : bool :=
  match s with
  | EmptyString => true
  | String c s' => Ascii.eqb c sep && all_sep s'
  end.

(** [posixpath.split(p)] *)
Definition split (p : string) : string * string :=
  let (head, tail) := rpartition p in
  (if negb (String.eqb head "") && negb (all_sep head)
   then rstrip_sep head else head,
   tail).

(** The number [normpath] calls [initial_slashes]: two leading separators
    are kept apart from one, three or more count as one. *)
Definition initial_slashes (s : string) : nat :=
  match s with
  | String a s1 =>
      if Ascii.eqb a sep then
        match s1 with
        | String b s2 =>
            if Ascii.eqb b sep then
              match s2 with
              | String c _ => if Ascii.eqb c sep then 1 else 2
              | EmptyString => 2
              end
            else 1
        | EmptyString => 1
        end
      else 0
  | EmptyString => 0
  end.

(** The loop of [normpath] over the components, [new_comps] so far. *)
Fixpoint norm_comps (initial : bool) (new_comps comps : list string)
  : list string :=
  match comps with
  | [] => new_comps
  | comp :: comps' =>
      if is_skip comp then norm_comps initial new_comps comps'
      else if negb (String.eqb comp pardir)
              || (negb initial && match new_comps with [] => true | _ => false end)
              || (match new_comps with
                  | [] => false
                  | _ => String.eqb (last new_comps "") pardir
                  end)
      then norm_comps initial (new_comps ++ [comp]) comps'
      else norm_comps initial (removelast new_comps) comps'
  end.

Fixpoint seps (n : nat) : string :=
  match n with
  | O => EmptyString
  | S n' => String sep (seps n')
  end.

(** [posixpath.normpath(path)] *)
Definition normpath (path : string) : string :=
  if String.eqb path "" then curdir
  else
    let initial := initial_slashes path in
    let comps := norm_comps (Nat.ltb 0 initial) [] (split_sep path) in
    let path := (seps initial ++ join_sep comps)%string in
    if String.eqb path "" then curdir else path.

(** [posixpath.abspath(path)] *)
Definition abspath (w : World) (path : string) : Res string :=
  if isabs path then Ret (normpath path)
  else
    match getcwd w with
    | Ret cwd => Ret (normpath (join cwd path))
    | Raise e => Raise e
    end.

(** The [seen] dictionary of [_joinrealpath]: the path of a link, as the
    function spells it, is bound to [None] while the link is being resolved
    and to its resolution afterwards. *)
Definition seen_t : Type := list (string * option string).

Fixpoint seen_get (k : string) (seen : seen_t) : option (option string) :=
  match seen with
  | [] => None
  | (k', v) :: rest => if String.eqb k' k then Some v else seen_get k rest
  end.

Definition seen_set (k : string) (v : option string) (seen : seen_t) : seen_t :=
  (k, v) :: seen.

(** The three ways [_joinrealpath] ends: [(path, True)], [(path, False)]
    when it met a link that is being resolved, or an exception. *)
Inductive joined : Type :=
| Resolved (p : string)
| Unresolved (p : string)
| Fault (e : exn).

(** Frames the interpreter grants to the recursion of [_joinrealpath]. *)
Definition recursion_limit : nat := 1000.

Definition recursion_error : exn :=
  mkExn RecursionError "maximum recursion depth exceeded".

(** How [_joinrealpath] starts: an absolute [rest] is taken from the root,
    and [rest] is cut at the separators, as [rest.partition(sep)] cuts it
    one name at a time. *)
Definition enter (path rest : string) : string * list string :=
  if isabs rest then (String sep "", split_sep (drop_first rest))
  else (path, split_sep rest).

(** The step for [..]: the last name of [path] is dropped, or one more
    [..] is added where [path] has none to drop. *)
Definition step_up (path : string) : string :=
  if String.eqb path "" then pardir
  else
    let (head, name) := split path in
    if String.eqb name pardir then join (join head pardir) pardir
    else head.

Section Realpath.
Variable w : World.

(** [_joinrealpath(path, rest, strict=False, seen)], after [enter]: [rest]
    is the list of the names still to come, [join_sep rest] the string
    Python holds.  [depth] counts the nested calls left, one per link
    under resolution.  [os.lstat(newpath)] raises [ValueError] on a NUL;
    any [OSError] of it counts as no link.  [os.readlink] gives the target
    of the link that [os.lstat] found. *)
Fixpoint joinrealpath (depth : nat)
  : string -> list string -> seen_t -> joined * seen_t :=
  fix loop (path : string) (rest : list string) (seen : seen_t) {struct rest}
    : joined * seen_t :=
    match rest with
    | [] => (Resolved path, seen)
    | name :: rest' =>
        if is_skip name then loop path rest' seen
        else if String.eqb name pardir then loop (step_up path) rest' seen
        else
          let newpath := join path name in
          match os_lstat w newpath with
          | StatValueError => (Fault embedded_null, seen)
          | StatOk (Symlink target) =>
              match seen_get newpath seen with
              | Some (Some cached) => loop cached rest' seen
              | Some None => (Unresolved (join newpath (join_sep rest')), seen)
              | None =>
                  match depth with
                  | O => (Fault recursion_error, seen)
                  | S d =>
                      match joinrealpath d (fst (enter path target))
                              (snd (enter path target))
                              (seen_set newpath None seen) with
                      | (Resolved p, seen') =>
                          loop p rest' (seen_set newpath (Some p) seen')
                      | (Unresolved p, seen') =>
                          (Unresolved (join p (join_sep rest')), seen')
                      | (Fault e, seen') => (Fault e, seen')
                      end
                  end
              end
          | StatOk _ | StatErr _ => loop newpath rest' seen
          end
    end.

(** [os.path.realpath(filename)] *)
Definition realpath (filename : string) : Res string :=
  match fst (joinrealpath recursion_limit (fst (enter "" filename))
               (snd (enter "" filename)) []) with
  | Fault e => Raise e
  | Resolved path | Unresolved path => abspath w path
  end.
End Realpath.

(** ** [pathlib] *)

(** A parsed path: whether it is anchored at the root, and its components
    with the empty ones and [.] dropped. *)
Record PurePath : Type := mkPurePath {
  absolute : bool;
  parts : list string
}.

(** [Path(s)] *)
Definition Path (s : string) : PurePath :=
  {| absolute := isabs s;
     parts := filter (fun x => negb (is_skip x)) (split_sep s) |}.

(** [str(p)], which is [os.fspath(p)]. *)
Definition fspath (p : PurePath) : string :=
  if absolute p then str_path (parts p)
  else match parts p with
       | [] => curdir
       | _ :: _ => join_sep (parts p)
       end.

(** Where a path is taken from: the root or the working directory. *)
Definition origin (w : World) (p : PurePath) : path :=
  if absolute p then [] else cwd w.

(** [os.stat(p)]: [ValueError] on a NUL, else the system call. *)
Definition os_stat (w : World) (p : PurePath) : stat_result :=
  if existsb has_nul (parts p) then StatValueError
  else match sys_stat (root w) (origin w p) (parts p) with
       | inr n => StatOk n
       | inl e => StatErr e
       end.

Definition at_path (p : path) : PurePath := {| absolute := true; parts := p |}.

(** The parts of [Path(s)] for an absolute string [s].  The root [//],
    which [pathlib] keeps apart from [/], shows as an empty first part, so
    that [str_path] writes the path as [str] does. *)
Definition location (s : string) : path :=
  let names := filter (fun x => negb (is_skip x)) (split_sep s) in
  if Nat.eqb (initial_slashes s) 2 then
    match names with
    | [] => [""; ""]
    | _ :: _ => "" :: names
    end
  else names.

Definition symlink_loop (p : path) : exn :=
  mkExn RuntimeError ("Symlink loop from " ++ repr (str_path p))%string.

(** [Path.resolve(strict=False)]: [realpath], whose [OSError] (that of
    [getcwd]) passes, then a [stat] of the result that turns [ELOOP] into
    [RuntimeError] and ignores every other [OSError]. *)
Definition resolve (w : World) (p : PurePath) : Res path :=
  match realpath w (fspath p) with
  | Raise e => Raise e
  | Ret s =>
      let resolved := location s in
      match os_stat w (at_path resolved) with
      | StatErr ELOOP => Raise (symlink_loop resolved)
      | StatValueError => Raise embedded_null
      | StatOk _ | StatErr _ => Ret resolved
      end
  end.

(** [_ignore_error(e)] of [pathlib]: the errors that mean the path is not
    there. *)
Definition ignore_error (e : errno) : bool :=
  match e with
  | ENOENT | ENOTDIR | ELOOP => true
  | EACCES | ENAMETOOLONG => false
  end.

(** [Path.is_file()]: [S_ISREG] of [stat]; an ignored [OSError] and
    [ValueError] give [False], any other [OSError] is raised. *)
Definition is_file (w : World) (p : path) : Res bool :=
  match os_stat w (at_path p) with
  | StatOk (File _) => Ret true
  | StatOk _ => Ret false
  | StatErr e =>
      if ignore_error e then Ret false
      else Raise (os_error e (Some (str_path p)))
  | StatValueError => Ret false
  end.

(** ** Programs: state, exceptions and the trace of operations *)

(** What the [gamdl] library hands back to the script. *)
Inductive Value : Type :=
| VNone
| VStr (s : string)
| VObj (id : nat)                (* an instance of a library class *)
| VList (items : list Value).

(** [type(v).__name__] *)
Definition type_name (v : Value) : string :=
  match v with
  | VNone => "NoneType"
  | VStr _ => "str"
  | VObj _ => "object"
  | VList _ => "list"
  end.

Definition attribute_error (v : Value) (name : string) : exn :=
  mkExn AttributeError
        ("'" ++ type_name v ++ "' object has no attribute '" ++ name ++ "'")%string.

Inductive Event : Type :=
| EvResolve (p : PurePath)                  (* Path.resolve() *)
| EvIsFile (p : path) (answer : bool)       (* Path.is_file() *)
| EvIsFileError (p : path) (e : exn)        (* Path.is_file() that raised *)
| EvImport (module : string)                (* from module import ... *)
| EvCall (callee : string) (args : list Value).  (* a use of gamdl *)

Record State : Type := mkState {
  world : World;
  trace : list Event
}.

Definition M (A : Type) : Type := State -> Res A * State.

Definition ret {A} (a : A) : M A := fun s => (Ret a, s).

Definition raise {A} (e : exn) : M A := fun s => (Raise e, s).

Definition bind {A B} (m : M A) (k : A -> M B) : M B :=
  fun s =>
    match m s with
    | (Ret a, s') => k a s'
    | (Raise e, s') => (Raise e, s')
    end.

Declare Scope prog_scope.
Delimit Scope prog_scope with prog.
Notation "x <- m ;; k" := (bind m (fun x => k))
  (at level 61, m at next level, right associativity) : prog_scope.
Notation "m ;;; k" := (bind m (fun _ => k))
  (at level 61, right associativity) : prog_scope.
Open Scope prog_scope.

Definition emit (e : Event) : M unit :=
  fun s => (Ret tt, {| world := world s; trace := trace s ++ [e] |}).

(** The two file-system operations of the validator.  Neither changes the
    world; both leave their mark in the trace. *)
Definition path_resolve (p : PurePath) : M path :=
  emit (EvResolve p) ;;;
  fun s => (resolve (world s) p, s).

Definition path_is_file (p : path) : M bool :=
  fun s =>
    match is_file (world s) p with
    | Ret b =>
        (Ret b, {| world := world s; trace := trace s ++ [EvIsFile p b] |})
    | Raise e =>
        (Raise e,
         {| world := world s; trace := trace s ++ [EvIsFileError p e] |})
    end.

(** ** [scripts/download_apple_music.py] *)

Definition missing_cookies_message (p : path) : string :=
  ("Missing Apple Music cookies file at '" ++ str_path p ++ "'. "
   ++ "Create a Netscape-format cookies.txt export before running downloads.")%string.

Definition default_cookies_path : string := "cookies.txt".

(** The value of the parameter [cookies_path]: the argument, or the default
    when the call gives none. *)
Definition cookies_arg (cookies_path : option string) : string :=
  match cookies_path with
  | Some s => s
  | None => default_cookies_path
  end.

(** [def validate_cookies_path(cookies_path: str | Path = "cookies.txt") -> Path]
    A [Path] argument is given by its string form. *)
Definition validate_cookies_path (cookies_path : option string) : M path :=
  let cookies_path := cookies_arg cookies_path in
  p <- path_resolve (Path cookies_path) ;;
  is_a_file <- path_is_file p ;;
  if negb is_a_file then
    raise (mkExn FileNotFoundError (missing_cookies_message p))
  else
    ret p.

(** The [gamdl] library is not part of the script: what a call returns or
    raises, and how it leaves the world (a download writes files), is left
    open.  The library may answer by everything that happened before. *)
Section Script.
Variable gamdl_import : list Event -> string -> World -> Res unit * World.
Variable gamdl_call :
  list Event -> string -> list Value -> World -> Res Value * World.

Definition import_from (module : string) : M unit :=
  fun s =>
    let (res, w') := gamdl_import (trace s) module (world s) in
    (res, {| world := w'; trace := trace s ++ [EvImport module] |}).

(** A class of the library, or a class method of it, called; an awaited
    call runs to its end before the next statement. *)
Definition call (callee : string) (args : list Value) : M Value :=
  fun s =>
    let (res, w') := gamdl_call (trace s) callee args (world s) in
    (res, {| world := w'; trace := trace s ++ [EvCall callee args] |}).

(** [receiver.name] and [receiver.name(args)].  An instance of a library
    class answers through the library, under the name [callee] of what the
    script takes it for.  [None], a string and a list have none of the
    attributes [main] asks for: the interpreter raises [AttributeError]
    and the library is not reached. *)
Definition method (callee name : string) (receiver : Value)
  (args : list Value) : M Value :=
  match receiver with
  | VObj _ => call callee (receiver :: args)
  | VNone | VStr _ | VList _ => raise (attribute_error receiver name)
  end.

(** [bool(v)] *)
Definition truthy (v : Value) : bool :=
  match v with
  | VNone => false
  | VStr s => negb (String.eqb s "")
  | VObj _ => true
  | VList items => match items with [] => false | _ => true end
  end.

(** [iter(v)]: lists and strings are iterated, instances are taken not
    to be. *)
Definition iterate (v : Value) : M (list Value) :=
  match v with
  | VList items => ret items
  | VStr s => ret (map (fun c => VStr (String c "")) (list_ascii_of_string s))
  | VNone | VObj _ => raise (mkExn TypeError "object is not iterable")
  end.

Fixpoint for_each (items : list Value) (body : Value -> M Value) : M unit :=
  match items with
  | [] => ret tt
  | item :: rest => body item ;;; for_each rest body
  end.

Definition song_url : string :=
  "https://music.apple.com/us/album/never-gonna-give-you-up-2022-remaster/1624945511?i=1624945512".

(** The three [from gamdl... import ...] statements that open [main]. *)
Definition imports : M unit :=
  import_from "gamdl.api" ;;;
  import_from "gamdl.downloader" ;;;
  import_from "gamdl.interface".

(** The statements of [main] after the call of the validator. *)
Definition download (cookies_path : path) : M unit :=
  apple_music_api <-
    call "AppleMusicApi.from_netscape_cookies" [VStr (str_path cookies_path)] ;;
  method "AppleMusicApi.setup" "setup" apple_music_api [] ;;;
  storefront <- method "AppleMusicApi.storefront" "storefront" apple_music_api [] ;;
  language <- method "AppleMusicApi.language" "language" apple_music_api [] ;;
  itunes_api <- call "ItunesApi" [storefront; language] ;;
  method "ItunesApi.setup" "setup" itunes_api [] ;;;
  interface <- call "AppleMusicInterface" [apple_music_api; itunes_api] ;;
  song_interface <- call "AppleMusicSongInterface" [interface] ;;
  music_video_interface <- call "AppleMusicMusicVideoInterface" [interface] ;;
  uploaded_video_interface <-
    call "AppleMusicUploadedVideoInterface" [interface] ;;
  base_downloader <- call "AppleMusicBaseDownloader" [] ;;
  method "AppleMusicBaseDownloader.setup" "setup" base_downloader [] ;;;
  song_downloader <-
    call "AppleMusicSongDownloader" [base_downloader; song_interface] ;;
  music_video_downloader <-
    call "AppleMusicMusicVideoDownloader"
         [base_downloader; music_video_interface] ;;
  uploaded_video_downloader <-
    call "AppleMusicUploadedVideoDownloader"
         [base_downloader; uploaded_video_interface] ;;
  downloader <-
    call "AppleMusicDownloader"
         [interface; base_downloader; song_downloader;
          music_video_downloader; uploaded_video_downloader] ;;
  url_info <-
    method "AppleMusicDownloader.get_url_info" "get_url_info" downloader
           [VStr song_url] ;;
  if truthy url_info then
    download_queue <-
      method "AppleMusicDownloader.get_download_queue" "get_download_queue"
             downloader [url_info] ;;
    if truthy download_queue then
      items <- iterate download_queue ;;
      for_each items
        (fun download_item =>
           method "AppleMusicDownloader.download" "download" downloader
                  [download_item])
    else ret tt
  else ret tt.

(** [async def main() -> None], run to completion by [asyncio.run]. *)
Definition main : M unit :=
  imports ;;;
  cookies_path <- validate_cookies_path None ;;
  download cookies_path.
End Script.

(** ** Words for the statements *)

(** The states the validator can leave behind. *)
Definition after_resolve (s : State) (name : string) : State :=
  {| world := world s; trace := trace s ++ [EvResolve (Path name)] |}.

Definition after_is_file (s : State) (name : string) (p : path) (b : bool)
  : State :=
  {| world := world s;
     trace := (trace s ++ [EvResolve (Path name)]) ++ [EvIsFile p b] |}.

Definition after_is_file_error (s : State) (name : string) (p : path)
  (e : exn) : State :=
  {| world := world s;
     trace := (trace s ++ [EvResolve (Path name)]) ++ [EvIsFileError p e] |}.


(** The trace entries of a look at the file system's metadata. *)
Definition is_metadata_query (e : Event) : bool :=
  match e with
  | EvResolve _ | EvIsFile _ _ | EvIsFileError _ _ => true
  | EvImport _ | EvCall _ _ => false
  end.

(** A trace entry that builds or uses an object of the library. *)
Definition is_library_use (e : Event) : bool :=
  match e with
  | EvCall _ _ => true
  | EvResolve _ | EvIsFile _ _ | EvIsFileError _ _ | EvImport _ => false
  end.

Definition no_library_use (tr : list Event) : bool :=
  forallb (fun e => negb (is_library_use e)) tr.

(** The trace shows the validator's check to have answered yes. *)
Definition validated (tr : list Event) : Prop :=
  exists p, In (EvIsFile p true) tr.

(** Whatever uses the library comes after a successful check. *)
Definition validator_first (tr : list Event) : Prop :=
  forall before e after,
    tr = before ++ e :: after ->
    is_library_use e = true ->
    validated before.

(** [preserves I m]: running [m] keeps [I], however [m] ends. *)
Definition preserves {A} (I : State -> Prop) (m : M A) : Prop :=
  forall s, I s -> I (snd (m s)).

(** After a successful check, the order holds and keeps holding. *)
Definition checked (s : State) : Prop :=
  validator_first (trace s) /\ validated (trace s).

(** ** Worlds to run the script in *)

(** [/work] holds the cookie export, a link to it, a directory and a link
    that points at itself. *)
Definition work_dir : node :=
  Dir [("cookies.txt", File "dummy");
       ("latest", Symlink "exports/../cookies.txt");
       ("exports", Dir [("old.txt", File "stale")]);
       ("self", Symlink "self")].

Definition cookies_world : World :=
  {| root := Dir [("work", work_dir); ("tmp", Dir [])];
     cwd := ["work"] |}.

(** The same machine, run from the empty [/tmp]. *)
Definition empty_world : World :=
  {| root := root cookies_world; cwd := ["tmp"] |}.

Definition fresh (w : World) : State := {| world := w; trace := [] |}.

(** A library that imports without trouble, hands out instances, and
    queues two items for the song. *)
Definition stub_import : list Event -> string -> World -> Res unit * World :=
  fun _ _ w => (Ret tt, w).

Definition stub_call
  : list Event -> string -> list Value -> World -> Res Value * World :=
  fun _ callee _ w =>
    if String.eqb callee "AppleMusicDownloader.get_download_queue"
    then (Ret (VList [VObj 1; VObj 2]), w)
    else (Ret (VObj 0), w).

(** ** Words for further statements *)

(** A name as directories hold them: an entry name without separator. *)
Definition plain_name (name : string) : bool :=
  entry_name name && negb (has_sep name).

Definition plain_path (p : path) : bool := forallb plain_name p.

(** A component: what stands between two separators and is neither empty
    nor [.]. *)
Definition component (x : string) : bool :=
  negb (has_sep x) && negb (is_skip x).

(** [str(Path.cwd()) + "/" + s]: the relative path [s] written out from the
    working directory. *)
Definition from_cwd (w : World) (s : string) : string :=
  (str_path (cwd w) ++ String sep s)%string.

Definition queue_call : string := "AppleMusicDownloader.get_download_queue".
Definition download_call : string := "AppleMusicDownloader.download".

Definition is_call_to (callee : string) (e : Event) : bool :=
  match e with
  | EvCall c _ => String.eqb c callee
  | EvResolve _ | EvIsFile _ _ | EvIsFileError _ _ | EvImport _ => false
  end.

Definition never_calls (callee : string) (tr : list Event) : bool :=
  forallb (fun e => negb (is_call_to callee e)) tr.

Definition is_import (e : Event) : bool :=
  match e with
  | EvImport _ => true
  | EvResolve _ | EvIsFile _ _ | EvIsFileError _ _ | EvCall _ _ => false
  end.

(** The import statements of [main], as they show in a trace. *)
Definition import_events : list Event :=
  [EvImport "gamdl.api"; EvImport "gamdl.downloader"; EvImport "gamdl.interface"].

(** What a [for] loop draws from a value: the items of a list, the
    characters of a string. *)
Definition items_of (v : Value) : list Value :=
  match v with
  | VList items => items
  | VStr s => map (fun c => VStr (String c "")) (list_ascii_of_string s)
  | VNone | VObj _ => []
  end.

(** [propagates gamdl_call m]: [m] only adds to the trace, and a call the
    library answers by an exception is the last thing [m] does, [m] ending
    with that exception. *)
Definition propagates
  (gamdl_call : list Event -> string -> list Value -> World -> Res Value * World)
  {A} (m : M A) : Prop :=
  forall s,
    exists events,
      trace (snd (m s)) = trace s ++ events
      /\ forall before callee args after e,
           events = before ++ EvCall callee args :: after ->
           (forall w, fst (gamdl_call (trace s ++ before) callee args w)
                      = Raise e) ->
           after = [] /\ fst (m s) = Raise e.

(** A library whose [ItunesApi] cannot be built, and an installation that
    lacks [gamdl.downloader]. *)
Definition broken_call
  : list Event -> string -> list Value -> World -> Res Value * World :=
  fun _ callee _ w =>
    if String.eqb callee "ItunesApi"
    then (Raise (mkExn RuntimeError "no storefront"), w)
    else (Ret (VObj 0), w).

Definition missing_import : list Event -> string -> World -> Res unit * World :=
  fun _ module w =>
    if String.eqb module "gamdl.downloader"
    then (Raise (mkExn ImportError "No module named 'gamdl.downloader'"), w)
    else (Ret tt, w).

(** A library that answers [None] to everything, and one whose queue is
    empty. *)
Definition mute_call
  : list Event -> string -> list Value -> World -> Res Value * World :=
  fun _ _ _ w => (Ret VNone, w).

Definition idle_call
  : list Event -> string -> list Value -> World -> Res Value * World :=
  fun _ callee _ w =>
    if String.eqb callee queue_call
    then (Ret (VList []), w)
    else (Ret (VObj 0), w).

(** A name of 256 bytes, one more than a directory can hold. *)
Definition long_name : string :=
  string_of_list_ascii (repeat "a"%char (S NAME_MAX)).

(** The machine of [cookies_world], run from a directory that has been
    removed since. *)
Definition gone_world : World :=
  {| root := root cookies_world; cwd := ["gone"] |}.

(** A machine with a directory [/work/vault] that the process may not
    search, and a link into it. *)
Definition locked_world : World :=
  {| root := Dir [("work", Dir [("cookies.txt", File "dummy");
                                 ("vault", Locked);
                                 ("key", Symlink "vault/cookies.txt")]);
                  ("tmp", Dir [])];
     cwd := ["work"] |}.

(** Two links that point at each other across [/work] and [/tmp]. *)
Definition cycle_world : World :=
  {| root := Dir [("work", Dir [("cookies.txt", File "dummy");
                                 ("a", Symlink "/tmp/b")]);
                  ("tmp", Dir [("b", Symlink "/work/a")])];
     cwd := ["work"] |}.

(** ** How [_joinrealpath] spells a location *)

(** [k] steps up from a location. *)
Fixpoint up (k : nat) (p : path) : path :=
  match k with
  | O => p
  | S k' => parent (up k' p)
  end.

(** The partial result of [_joinrealpath] is a string: the names from the
    root down, or, for a relative path, [k] times [..] and then names, to
    be read from the working directory. *)
Inductive spells (w : World) : string -> path -> Prop :=
| spells_abs names :
    plain_path names = true ->
    spells w (str_path names) names
| spells_rel k names :
    plain_path names = true ->
    spells w (join_sep (repeat pardir k ++ names)) (up k (cwd w) ++ names).

(** The location a string stands for, by the spelling alone: what
    [abspath] makes of it under the working directory. *)
Definition loc (w : World) (s : string) : path :=
  location (normpath (if isabs s then s else join (str_path (cwd w)) s)).

(** What [seen] records of a finished link is what the kernel finds. *)
Definition seen_sound (w : World) (seen : seen_t) : Prop :=
  forall key v cur name,
    seen_get key seen = Some (Some v) ->
    loc w key = cur ++ [name] ->
    exists c k, resolves (root w) cur [name] c k /\ spells w v c.

(** A link under resolution costs the kernel more than [bound] links. *)
Definition seen_pending (w : World) (seen : seen_t) (bound : nat) : Prop :=
  forall key cur name c k,
    seen_get key seen = Some None ->
    loc w key = cur ++ [name] ->
    resolves (root w) cur [name] c k -> bound < k.

(** ** [tests/test_download_apple_music.py] *)

(** [os.open(path, O_WRONLY | O_CREAT | O_TRUNC)] finds where to write:
    the walk of [namei], except that a last component the directory does
    not hold yet is the place of a new file. *)
Section Create.
Variable r : node.

Fixpoint namei_create (budget : nat) : path -> list string -> option path :=
  fix walk (cur : path) (rest : list string) {struct rest} : option path :=
    match rest with
    | [] => Some cur
    | name :: rest' =>
        match lookup r cur with
        | Some (Dir _) =>
            if is_skip name then walk cur rest'
            else if String.eqb name pardir then walk (parent cur) rest'
            else if too_long name then None
            else if has_nul name then None
            else
              match lookup r (cur ++ [name]) with
              | None =>
                  match rest' with
                  | [] => Some (cur ++ [name])
                  | _ :: _ => None
                  end
              | Some (Symlink t) =>
                  match budget with
                  | O => None
                  | S b =>
                      if String.eqb t "" then None
                      else namei_create b (if isabs t then [] else cur)
                                        (split_sep t ++ rest')
                  end
              | Some _ => walk (cur ++ [name]) rest'
              end
        | Some _ => None
        | None =>
            if is_skip name then walk cur rest'
            else if String.eqb name pardir then walk (parent cur) rest'
            else None
        end
    end.
End Create.

Fixpoint set_child (name : string) (x : node) (entries : list (string * node))
  : list (string * node) :=
  match entries with
  | [] => [(name, x)]
  | (n, y) :: rest =>
      if String.eqb n name then (n, x) :: rest
      else (n, y) :: set_child name x rest
  end.

(** The tree with [x] at the location [p], whose parent is a directory. *)
Fixpoint put (n : node) (p : path) (x : node) : node :=
  match p with
  | [] => x
  | name :: p' =>
      match n with
      | Dir entries =>
          match child name entries with
          | Some n' => Dir (set_child name (put n' p' x) entries)
          | None =>
              match p' with
              | [] => Dir (set_child name x entries)
              | _ :: _ => n
              end
          end
      | _ => n
      end
  end.

(** [Path.write_text(data)]: the file is created or truncated and written;
    [None] stands for the [OSError] of a path that cannot be opened for
    writing.  What is written to a special file leaves the tree as it is. *)
Definition write_text (w : World) (p : PurePath) (data : string)
  : option World :=
  if existsb has_nul (parts p) then None
  else
    match namei_create (root w) MAXSYMLINKS (origin w p) (parts p) with
    | None => None
    | Some loc =>
        match lookup (root w) loc with
        | Some (Dir _) | Some Locked | Some (Symlink _) => None
        | Some Special => Some w
        | Some (File _) | None =>
            Some {| root := put (root w) loc (File data); cwd := cwd w |}
        end
    end.

(** [os.chdir(p)], which is what [monkeypatch.chdir] does. *)
Definition chdir (w : World) (p : PurePath) : option World :=
  if existsb has_nul (parts p) then None
  else
    match namei (root w) MAXSYMLINKS (origin w p) (parts p) with
    | inr c =>
        if is_dir (lookup (root w) c)
        then Some {| root := root w; cwd := c |}
        else None
    | inl _ => None
    end.

(** [sub in s] *)
Fixpoint is_in (sub s : string) : bool :=
  String.prefix sub s
  || match s with
     | EmptyString => false
     | String _ s' => is_in sub s'
     end.

(** How a test ends: it passes, an assertion fails (or [pytest.raises] sees
    no exception), or an exception escapes. *)
Inductive verdict : Type := Passed | Failed | Errored.

Definition tab : ascii := Ascii.ascii_of_nat 9.
Definition newline : ascii := Ascii.ascii_of_nat 10.

Definition dummy_content : string :=
  ("dummy" ++ String tab ("content" ++ String newline ""))%string.

(** [def test_validate_cookies_path_missing_file(tmp_path)] *)
Definition test_validate_cookies_path_missing_file
  (tmp_path : path) (w : World) : verdict :=
  let missing_path := tmp_path ++ ["cookies.txt"] in
  match fst (validate_cookies_path (Some (str_path missing_path)) (fresh w)) with
  | Ret _ => Failed
  | Raise excinfo =>
      if caught_by FileNotFoundError excinfo then
        if is_in "Missing Apple Music cookies file" (exn_message excinfo)
        then Passed else Failed
      else Errored
  end.

(** [def test_validate_cookies_path_present_file(tmp_path, monkeypatch)] *)
Definition test_validate_cookies_path_present_file
  (tmp_path : path) (w : World) : verdict :=
  let cookies_file := tmp_path ++ ["cookies.txt"] in
  match write_text w (at_path cookies_file) dummy_content with
  | None => Errored
  | Some w1 =>
      match chdir w1 (at_path tmp_path) with
      | None => Errored
      | Some w2 =>
          match fst (validate_cookies_path None (fresh w2)) with
          | Raise _ => Errored
          | Ret validated =>
              match resolve w2 (at_path cookies_file) with
              | Raise _ => Errored
              | Ret resolved =>
                  if path_eq_dec validated resolved then Passed else Failed
              end
          end
      end
  end.

(* ================================================================== *)
(** * Part II: properties *)

(** ** Locations in the tree *)

Lemma lookup_snoc (n : node) (p : path) (x : string) :
  lookup n (p ++ [x]) =
  match lookup n p with
  | Some (Dir entries) => child x entries
  | _ => None
  end.
Proof.
  revert n; induction p as [|y p IH]; intros n; simpl.
  - destruct n; try reflexivity.
    destruct (child x entries); reflexivity.
  - destruct n; try reflexivity.
    destruct (child y entries); auto.
Qed.

Lemma lookup_snoc_dir (n : node) (p : path) (x : string) (m : node) :
  lookup n (p ++ [x]) = Some m -> is_dir (lookup n p) = true.
Proof.
  rewrite lookup_snoc.
  destruct (lookup n p) as [[| | |entries|]|]; simpl; congruence.
Qed.

Lemma parent_snoc (p : path) (x : string) : parent (p ++ [x]) = p.
Proof. apply removelast_last. Qed.

(** A directory's parent is a directory. *)
Lemma is_dir_parent (n : node) (p : path) :
  is_dir (lookup n p) = true -> is_dir (lookup n (parent p)) = true.
Proof.
  intros H. destruct p as [|x p]; [exact H|].
  assert (Hne : x :: p <> []) by discriminate.
  unfold parent. rewrite (app_removelast_last "" Hne) in H.
  destruct (lookup n (removelast (x :: p) ++ [last (x :: p) ""])) as [m|] eqn:E;
    [|discriminate].
  exact (lookup_snoc_dir _ _ _ E).
Qed.

Lemma entry_name_parts (x : string) :
  entry_name x = true ->
  is_skip x = false /\ String.eqb x pardir = false /\ has_nul x = false
  /\ has_sep x = false /\ too_long x = false.
Proof.
  unfold entry_name. intros H.
  repeat (apply andb_prop in H; destruct H as [H ?]).
  repeat match goal with
         | Hn : negb _ = true |- _ => apply negb_true_iff in Hn
         end.
  auto.
Qed.

Section Canonical.
Variable r : node.

Lemma canonical_from_app (a b : list string) :
  forall cur,
    canonical_from r cur (a ++ b) =
    canonical_from r cur a && canonical_from r (cur ++ a) b.
Proof.
  induction a as [|x a IH]; intros cur; simpl.
  - now rewrite app_nil_r.
  - destruct (entry_name x); simpl; [|reflexivity].
    destruct (lookup r (cur ++ [x])) as [[| | | |]|]; try reflexivity;
      rewrite IH, <- app_assoc; reflexivity.
Qed.

Lemma canonical_parent (p : path) :
  canonical r p = true -> canonical r (parent p) = true.
Proof.
  unfold canonical, parent.
  destruct p as [|x p]; [reflexivity|].
  assert (Hne : x :: p <> []) by discriminate.
  rewrite (app_removelast_last "" Hne) at 1.
  rewrite canonical_from_app.
  intros H; apply andb_prop in H; tauto.
Qed.

Lemma canonical_snoc (p : path) (x : string) :
  canonical r p = true ->
  entry_name x = true ->
  lookup r (p ++ [x]) <> None ->
  is_link (lookup r (p ++ [x])) = false ->
  canonical r (p ++ [x]) = true.
Proof.
  unfold canonical; intros Hp Hx Hsome Hlink.
  rewrite canonical_from_app, Hp; simpl.
  rewrite Hx; simpl.
  destruct (lookup r (p ++ [x])) as [[| | | |]|];
    simpl in *; congruence.
Qed.

Lemma canonical_from_no_nul (rest : list string) :
  forall cur, canonical_from r cur rest = true -> existsb has_nul rest = false.
Proof.
  induction rest as [|x rest IH]; intros cur H; simpl in *; [reflexivity|].
  apply andb_prop in H as [Hx H].
  destruct (entry_name_parts _ Hx) as (_ & _ & Hnul & _).
  rewrite Hnul; simpl.
  destruct (lookup r (cur ++ [x])) as [[| | | |]|];
    try discriminate; eauto.
Qed.

(** The names of a canonical path are names a directory can hold. *)
Lemma canonical_entry_names (rest : list string) :
  forall cur, canonical_from r cur rest = true -> forallb entry_name rest = true.
Proof.
  induction rest as [|x rest IH]; intros cur H; simpl in *; [reflexivity|].
  apply andb_prop in H as [Hx H]. rewrite Hx; simpl.
  destruct (lookup r (cur ++ [x])) as [[| | | |]|]; try discriminate; eauto.
Qed.

(** What a canonical path names is in the tree. *)
Lemma canonical_from_lookup (rest : list string) :
  forall cur,
    lookup r cur <> None ->
    canonical_from r cur rest = true -> lookup r (cur ++ rest) <> None.
Proof.
  induction rest as [|x rest IH]; intros cur Hcur H; simpl in *.
  - now rewrite app_nil_r.
  - apply andb_prop in H as [_ H].
    replace (cur ++ x :: rest) with ((cur ++ [x]) ++ rest)
      by now rewrite <- app_assoc.
    destruct (lookup r (cur ++ [x])) as [[| | | |]|] eqn:E; try discriminate;
      apply IH; auto; congruence.
Qed.

Lemma canonical_lookup (p : path) :
  canonical r p = true -> lookup r p <> None.
Proof.
  intros H. apply (canonical_from_lookup p [] ); [discriminate|exact H].
Qed.
End Canonical.

(** ** The kernel's walk *)

Section KernelFacts.
Variable r : node.

Lemma namei_nil (b : nat) (cur : path) : namei r b cur [] = inr cur.
Proof. destruct b; reflexivity. Qed.

Lemma namei_cons (b : nat) (cur : path) (name : string) (rest : list string) :
  namei r b cur (name :: rest) =
  match lookup r cur with
  | Some (Dir _) =>
      if is_skip name then namei r b cur rest
      else if String.eqb name pardir then namei r b (parent cur) rest
      else if too_long name then inl ENAMETOOLONG
      else if has_nul name then inl ENOENT
      else
        match lookup r (cur ++ [name]) with
        | None => inl ENOENT
        | Some (Symlink t) =>
            match b with
            | O => inl ELOOP
            | S b' =>
                if String.eqb t "" then inl ENOENT
                else namei r b' (if isabs t then [] else cur)
                           (split_sep t ++ rest)
            end
        | Some _ => namei r b (cur ++ [name]) rest
        end
  | Some Locked =>
      if String.eqb name "" then namei r b cur rest else inl EACCES
  | Some _ => inl ENOTDIR
  | None =>
      if is_skip name then namei r b cur rest
      else if String.eqb name pardir then namei r b (parent cur) rest
      else inl ENOENT
  end.
Proof. destruct b; reflexivity. Qed.

(** Along a canonical prefix the walk follows no link. *)
Lemma namei_canonical_prefix (b : nat) (a : list string) :
  forall cur rest,
    canonical_from r cur a = true ->
    namei r b cur (a ++ rest) = namei r b (cur ++ a) rest.
Proof.
  induction a as [|x a IH]; intros cur rest H.
  - now rewrite app_nil_r.
  - simpl app. rewrite namei_cons. simpl in H.
    apply andb_prop in H as [Hx H].
    destruct (entry_name_parts _ Hx) as (Hskip & Hpar & Hnul & _ & Hlong).
    destruct (lookup r (cur ++ [x])) as [m|] eqn:Hl; [|discriminate].
    pose proof (lookup_snoc_dir _ _ _ Hl) as Hdir.
    destruct (lookup r cur) as [[| | |entries|]|]; try discriminate.
    rewrite Hskip, Hpar, Hnul, Hlong.
    destruct m; try discriminate;
      rewrite (IH _ _ H), <- app_assoc; reflexivity.
Qed.

(** A walk along a canonical path ends where the path says. *)
Lemma canonical_namei (b : nat) (rest : list string) :
  forall cur,
    canonical_from r cur rest = true ->
    namei r b cur rest = inr (cur ++ rest).
Proof.
  intros cur H.
  rewrite <- (app_nil_r rest) at 1.
  now rewrite namei_canonical_prefix, namei_nil.
Qed.

(** From a location of the tree, a walk that arrives has kept to the
    tree. *)
Lemma namei_resolves (b : nat) :
  forall rest cur c,
    lookup r cur <> None ->
    namei r b cur rest = inr c ->
    exists k, k <= b /\ resolves r cur rest c k.
Proof.
  induction b as [b IHb] using lt_wf_ind.
  induction rest as [|name rest IH]; intros cur c Hin H.
  - rewrite namei_nil in H. injection H as <-.
    exists 0; split; [lia|constructor].
  - rewrite namei_cons in H.
    destruct (lookup r cur) as [[| | |entries|]|] eqn:Hcur; try discriminate;
      [| |congruence].
    2:{ destruct (String.eqb name "") eqn:Hname; [|discriminate].
        apply String.eqb_eq in Hname; subst name.
        apply IH in H as (k & Hk & Hr); [|congruence].
        exists k; split; [assumption|]. now apply rs_stay. }
    assert (Hdir : is_dir (lookup r cur) = true) by now rewrite Hcur.
    assert (Hroot : lookup r [] <> None) by discriminate.
    assert (Hparent : lookup r (parent cur) <> None).
    { pose proof (is_dir_parent r cur Hdir) as Hp.
      destruct (lookup r (parent cur)); [discriminate|discriminate]. }
    destruct (is_skip name) eqn:Hskip.
    { apply IH in H as (k & Hk & Hr); [|congruence].
      exists k; split; [assumption|]. now apply rs_skip. }
    destruct (String.eqb name pardir) eqn:Hpar.
    { apply IH in H as (k & Hk & Hr); [|assumption].
      exists k; split; [assumption|]. now apply rs_up. }
    destruct (too_long name) eqn:Hlong; [discriminate|].
    destruct (has_nul name) eqn:Hnul; [discriminate|].
    destruct (lookup r (cur ++ [name])) as [[d| |t|es|]|] eqn:Hl;
      try discriminate;
      try (apply IH in H as (k & Hk & Hr); [|congruence];
           exists k; split; [assumption|];
           apply rs_enter; rewrite ?Hl; simpl; congruence).
    + destruct b as [|b']; [discriminate|].
      destruct (String.eqb t "") eqn:Ht; [discriminate|].
      apply IHb in H as (k & Hk & Hr); [|lia|].
      * exists (S k); split; [lia|].
        apply rs_follow with (t := t); try assumption.
        now apply String.eqb_neq.
      * destruct (isabs t); [assumption|congruence].
Qed.

(** The converse: a walk that the relation describes is the walk of
    [namei], given the budget for its links. *)
Lemma resolves_namei cur rest c k :
  resolves r cur rest c k ->
  forall b, k <= b -> namei r b cur rest = inr c.
Proof.
  induction 1 as [cur|cur name rest c k Hd Hs _ IH|cur rest c k Hlock _ IH
                 |cur name rest c k Hd Hs Hp _ IH
                 |cur name rest c k Hd Hs Hp Hlong Hn Hsome Hl _ IH
                 |cur name rest c k t Hd Hs Hp Hlong Hn Hl Ht _ IH];
    intros b Hb.
  - apply namei_nil.
  - rewrite namei_cons.
    destruct (lookup r cur) as [[| | | |]|]; try discriminate.
    rewrite Hs. now apply IH.
  - rewrite namei_cons, Hlock. now apply IH.
  - rewrite namei_cons.
    destruct (lookup r cur) as [[| | | |]|]; try discriminate.
    rewrite Hs, Hp. now apply IH.
  - rewrite namei_cons.
    destruct (lookup r cur) as [[| | | |]|]; try discriminate.
    rewrite Hs, Hp, Hlong, Hn.
    destruct (lookup r (cur ++ [name])) as [[| | | |]|];
      try discriminate; try congruence; now apply IH.
  - rewrite namei_cons.
    destruct (lookup r cur) as [[| | | |]|]; try discriminate.
    rewrite Hs, Hp, Hlong, Hn, Hl.
    destruct b as [|b']; [lia|].
    apply String.eqb_neq in Ht. rewrite Ht.
    apply IH. lia.
Qed.

Lemma resolves_det cur rest c1 k1 :
  resolves r cur rest c1 k1 ->
  forall c2 k2, resolves r cur rest c2 k2 -> c1 = c2 /\ k1 = k2.
Proof.
  induction 1 as [cur|cur name rest c k Hd Hs _ IH|cur rest c k Hlock _ IH
                 |cur name rest c k Hd Hs Hp _ IH
                 |cur name rest c k Hd Hs Hp Hlong Hn Hsome Hl _ IH
                 |cur name rest c k t Hd Hs Hp Hlong Hn Hl Ht _ IH];
    intros c2 k2 H2; inversion H2; subst; try congruence; auto;
    try match goal with
        | Hno : is_link (lookup r ?p) = false,
          Hyes : lookup r ?p = Some (Symlink _) |- _ =>
            rewrite Hyes in Hno; discriminate
        | Hno : is_dir (lookup r ?p) = true,
          Hyes : lookup r ?p = Some Locked |- _ =>
            rewrite Hyes in Hno; discriminate
        end.
  match goal with
  | Ha : lookup r ?p = Some (Symlink ?t1),
    Hb : lookup r ?p = Some (Symlink ?t2) |- _ =>
      assert (t2 = t1) by congruence; subst t2
  end.
  match goal with
  | Hr : resolves r _ (split_sep t ++ rest) c2 _ |- _ =>
      destruct (IH _ _ Hr); subst; auto
  end.
Qed.

Lemma resolves_app l cur c k :
  resolves r cur l c k ->
  forall a b, l = a ++ b ->
    exists c1 k1 k2,
      resolves r cur a c1 k1 /\ resolves r c1 b c k2 /\ k = k1 + k2.
Proof.
  induction 1 as [cur|cur name rest c k Hd Hs Hr IH|cur rest c k Hlock Hr IH
                 |cur name rest c k Hd Hs Hp Hr IH
                 |cur name rest c k Hd Hs Hp Hlong Hn Hsome Hl Hr IH
                 |cur name rest c k t Hd Hs Hp Hlong Hn Hl Ht Hr IH];
    intros a b E.
  - symmetry in E; apply app_eq_nil in E as [-> ->].
    exists cur, 0, 0; repeat split; constructor.
  - destruct a as [|x a]; simpl in E.
    + subst b. exists cur, 0, k; repeat split; [constructor|].
      now apply rs_skip.
    + injection E as <- ->.
      destruct (IH a b eq_refl) as (c1 & k1 & k2 & Ha & Hb & ->).
      exists c1, k1, k2; repeat split; auto. now apply rs_skip.
  - destruct a as [|x a]; simpl in E.
    + subst b. exists cur, 0, k; repeat split; [constructor|].
      now apply rs_stay.
    + injection E as <- ->.
      destruct (IH a b eq_refl) as (c1 & k1 & k2 & Ha & Hb & ->).
      exists c1, k1, k2; repeat split; auto. now apply rs_stay.
  - destruct a as [|x a]; simpl in E.
    + subst b. exists cur, 0, k; repeat split; [constructor|].
      now apply rs_up.
    + injection E as <- ->.
      destruct (IH a b eq_refl) as (c1 & k1 & k2 & Ha & Hb & ->).
      exists c1, k1, k2; repeat split; auto. now apply rs_up.
  - destruct a as [|x a]; simpl in E.
    + subst b. exists cur, 0, k; repeat split; [constructor|].
      now apply rs_enter.
    + injection E as <- ->.
      destruct (IH a b eq_refl) as (c1 & k1 & k2 & Ha & Hb & ->).
      exists c1, k1, k2; repeat split; auto. now apply rs_enter.
  - destruct a as [|x a]; simpl in E.
    + subst b. exists cur, 0, (S k); repeat split; [constructor|].
      now apply rs_follow with (t := t).
    + injection E as <- ->.
      destruct (IH (split_sep t ++ a) b) as (c1 & k1 & k2 & Ha & Hb & ->).
      { now rewrite app_assoc. }
      exists c1, (S k1), k2; repeat split; auto.
      now apply rs_follow with (t := t).
Qed.

(** What the walk arrives at is in the tree. *)
Lemma resolves_lookup cur rest c k :
  resolves r cur rest c k ->
  lookup r cur <> None -> lookup r c <> None.
Proof.
  induction 1 as [cur|cur name rest c k Hd Hs Hr IH|cur rest c k Hlock Hr IH
                 |cur name rest c k Hd Hs Hp Hr IH
                 |cur name rest c k Hd Hs Hp Hlong Hn Hsome Hl Hr IH
                 |cur name rest c k t Hd Hs Hp Hlong Hn Hl Ht Hr IH];
    intros Hin; auto.
  - apply IH. pose proof (is_dir_parent r cur Hd) as Hp'.
    destruct (lookup r (parent cur)); [discriminate|discriminate].
  - apply IH. destruct (isabs t); [discriminate|assumption].
Qed.
End KernelFacts.

(** ** Strings *)

Lemma append_nil_r (s : string) : (s ++ "")%string = s.
Proof. induction s as [|c s IH]; simpl; [reflexivity|now rewrite IH]. Qed.

Lemma append_assoc (a b c : string) :
  ((a ++ b) ++ c)%string = (a ++ (b ++ c))%string.
Proof. induction a as [|x a IH]; simpl; [reflexivity|now rewrite IH]. Qed.

Lemma has_sep_app (a b : string) :
  has_sep (a ++ b) = has_sep a || has_sep b.
Proof.
  induction a as [|c a IH]; simpl; [reflexivity|].
  now rewrite IH, orb_assoc.
Qed.

Lemma has_nul_app (a b : string) :
  has_nul (a ++ b) = has_nul a || has_nul b.
Proof.
  induction a as [|c a IH]; simpl; [reflexivity|].
  now rewrite IH, orb_assoc.
Qed.

Lemma split_sep_not_nil (s : string) : split_sep s <> [].
Proof.
  destruct s as [|c s]; simpl; [discriminate|].
  destruct (Ascii.eqb c sep); [discriminate|].
  destruct (split_sep s); discriminate.
Qed.

(** Splitting at a separator splits the list of pieces. *)
Lemma split_sep_app (a b : string) :
  split_sep (a ++ String sep b) = split_sep a ++ split_sep b.
Proof.
  induction a as [|c a IH]; simpl.
  - reflexivity.
  - destruct (Ascii.eqb c sep); [now rewrite IH|].
    rewrite IH.
    destruct (split_sep a) as [|x xs] eqn:E; [|reflexivity].
    now elim (split_sep_not_nil a).
Qed.

Lemma split_sep_plain (x : string) :
  has_sep x = false -> split_sep x = [x].
Proof.
  induction x as [|c x IH]; simpl; [reflexivity|].
  intros H. apply orb_false_elim in H as [Hc Hx].
  now rewrite Hc, (IH Hx).
Qed.

Lemma split_sep_no_sep (s : string) :
  forallb (fun x => negb (has_sep x)) (split_sep s) = true.
Proof.
  induction s as [|c s IH]; simpl; [reflexivity|].
  destruct (Ascii.eqb c sep) eqn:Hc; simpl; [assumption|].
  destruct (split_sep s) as [|x xs]; simpl in *; [now rewrite Hc|].
  now rewrite Hc.
Qed.

Lemma join_sep_cons (x y : string) (l : list string) :
  join_sep (x :: y :: l) = (x ++ String sep (join_sep (y :: l)))%string.
Proof. reflexivity. Qed.

Lemma join_sep_snoc (l : list string) (x : string) :
  l <> [] -> join_sep (l ++ [x]) = (join_sep l ++ String sep x)%string.
Proof.
  induction l as [|y l IH]; [congruence|]. intros _.
  destruct l as [|z l].
  - reflexivity.
  - change ((y :: z :: l) ++ [x]) with (y :: ((z :: l) ++ [x])).
    change ((z :: l) ++ [x]) with (z :: (l ++ [x])) at 1.
    rewrite join_sep_cons.
    change (z :: l ++ [x]) with ((z :: l) ++ [x]).
    rewrite IH by discriminate.
    rewrite join_sep_cons. now rewrite append_assoc.
Qed.

Lemma split_sep_join (names : list string) :
  names <> [] ->
  forallb (fun x => negb (has_sep x)) names = true ->
  split_sep (join_sep names) = names.
Proof.
  induction names as [|x names IH]; [congruence|].
  intros _ H. simpl in H. apply andb_prop in H as [Hx H].
  apply negb_true_iff in Hx.
  destruct names as [|y names].
  - simpl. now apply split_sep_plain.
  - rewrite join_sep_cons.
    rewrite split_sep_app, split_sep_plain by assumption.
    rewrite IH by (assumption || discriminate). reflexivity.
Qed.

Lemma has_nul_join_sep (l : list string) :
  has_nul (join_sep l) = existsb has_nul l.
Proof.
  induction l as [|x l IH]; [reflexivity|].
  destruct l as [|y l].
  - simpl. now rewrite orb_false_r.
  - rewrite join_sep_cons, has_nul_app.
    change (has_nul (String sep (join_sep (y :: l))))
      with (has_nul (join_sep (y :: l))).
    now rewrite IH.
Qed.

Lemma filter_all {A} (f : A -> bool) (l : list A) :
  forallb f l = true -> filter f l = l.
Proof.
  induction l as [|x l IH]; simpl; [reflexivity|].
  intros H. apply andb_prop in H as [Hx H]. now rewrite Hx, IH.
Qed.

Lemma forallb_filter {A} (f g : A -> bool) (l : list A) :
  forallb f l = true -> forallb f (filter g l) = true.
Proof.
  induction l as [|x l IH]; simpl; [reflexivity|].
  intros H. apply andb_prop in H as [Hx H].
  destruct (g x); simpl; rewrite ?Hx; auto.
Qed.

Lemma forallb_removelast {A} (f : A -> bool) (l : list A) :
  forallb f l = true -> forallb f (removelast l) = true.
Proof.
  induction l as [|x l IH]; simpl; [reflexivity|].
  intros H. apply andb_prop in H as [Hx H].
  destruct l as [|y l]; [reflexivity|].
  specialize (IH H). simpl in *. now rewrite Hx.
Qed.

Lemma forallb_impl {A} (f g : A -> bool) (l : list A) :
  (forall x, f x = true -> g x = true) ->
  forallb f l = true -> forallb g l = true.
Proof.
  intros Hfg. induction l as [|x l IH]; simpl; [reflexivity|].
  intros H. apply andb_prop in H as [Hx H]. now rewrite (Hfg _ Hx), IH.
Qed.

Lemma plain_name_parts (x : string) :
  plain_name x = true ->
  is_skip x = false /\ String.eqb x pardir = false /\ has_nul x = false
  /\ has_sep x = false /\ too_long x = false.
Proof.
  unfold plain_name. intros H. apply andb_prop in H as [H _].
  now apply entry_name_parts.
Qed.

Lemma entry_name_plain (x : string) : entry_name x = true -> plain_name x = true.
Proof.
  intros H. unfold plain_name. rewrite H.
  destruct (entry_name_parts _ H) as (_ & _ & _ & Hs & _). now rewrite Hs.
Qed.

Lemma plain_name_component (x : string) :
  plain_name x = true -> component x = true.
Proof.
  intros H. destruct (plain_name_parts _ H) as (Hs & _ & _ & Hsep & _).
  unfold component. now rewrite Hs, Hsep.
Qed.

Lemma pardir_component : component pardir = true.
Proof. reflexivity. Qed.

Lemma plain_path_components (p : path) :
  plain_path p = true -> forallb component p = true.
Proof. apply forallb_impl, plain_name_component. Qed.

Lemma plain_path_names (p : path) :
  plain_path p = true ->
  forallb (fun x => negb (has_sep x)) p = true
  /\ forallb (fun x => negb (is_skip x)) p = true.
Proof.
  intros H. apply plain_path_components in H. split.
  - revert H. apply forallb_impl. unfold component.
    intros x Hx. now apply andb_prop in Hx as [Hx _].
  - revert H. apply forallb_impl. unfold component.
    intros x Hx. now apply andb_prop in Hx as [_ Hx].
Qed.

Lemma plain_path_app (a b : path) :
  plain_path (a ++ b) = plain_path a && plain_path b.
Proof. apply forallb_app. Qed.

Lemma plain_path_parent (p : path) :
  plain_path p = true -> plain_path (parent p) = true.
Proof. apply forallb_removelast. Qed.

Lemma plain_path_up (k : nat) (p : path) :
  plain_path p = true -> plain_path (up k p) = true.
Proof.
  induction k as [|k IH]; intros H; simpl; [assumption|].
  now apply plain_path_parent, IH.
Qed.

Lemma plain_path_no_nul (p : path) :
  plain_path p = true -> existsb has_nul p = false.
Proof.
  induction p as [|x p IH]; simpl; [reflexivity|].
  intros H. apply andb_prop in H as [Hx H].
  destruct (plain_name_parts _ Hx) as (_ & _ & Hn & _).
  now rewrite Hn, IH.
Qed.

Lemma components_no_sep (l : list string) :
  forallb component l = true ->
  forallb (fun x => negb (has_sep x)) l = true.
Proof.
  apply forallb_impl. unfold component.
  intros x Hx. now apply andb_prop in Hx as [Hx _].
Qed.

Lemma components_no_skip (l : list string) :
  forallb component l = true ->
  forallb (fun x => negb (is_skip x)) l = true.
Proof.
  apply forallb_impl. unfold component.
  intros x Hx. now apply andb_prop in Hx as [_ Hx].
Qed.

Lemma components_repeat_pardir (k : nat) :
  forallb component (repeat pardir k) = true.
Proof. induction k as [|k IH]; simpl; [reflexivity|exact IH]. Qed.

(** A component starts with a character that is no separator. *)
Lemma component_starts (x : string) :
  component x = true ->
  exists c x', x = String c x' /\ Ascii.eqb c sep = false.
Proof.
  unfold component. intros H. apply andb_prop in H as [Hs Hk].
  apply negb_true_iff in Hs, Hk.
  destruct x as [|c x']; [discriminate|].
  simpl in Hs. apply orb_false_elim in Hs as [Hc _]. eauto.
Qed.

Lemma isabs_component (x : string) : component x = true -> isabs x = false.
Proof.
  intros H. destruct (component_starts _ H) as (c & x' & -> & Hc). exact Hc.
Qed.

Lemma isabs_app (a b : string) :
  a <> "" -> isabs (a ++ b) = isabs a.
Proof. destruct a; [congruence|reflexivity]. Qed.

Lemma isabs_join_sep (x : string) (l : list string) :
  component x = true -> isabs (join_sep (x :: l)) = false.
Proof.
  intros H. destruct (component_starts _ H) as (c & x' & -> & Hc).
  destruct l; simpl; exact Hc.
Qed.

Lemma join_sep_not_empty (x : string) (l : list string) :
  component x = true -> join_sep (x :: l) <> "".
Proof.
  intros H. destruct (component_starts _ H) as (c & x' & -> & Hc).
  destruct l; simpl; discriminate.
Qed.

Lemma endswith_sep_app (a b : string) :
  b <> "" -> endswith_sep (a ++ b) = endswith_sep b.
Proof.
  intros Hb. induction a as [|c a IH]; [reflexivity|].
  simpl. destruct (a ++ b)%string eqn:E.
  - destruct a; [simpl in E; congruence|discriminate].
  - exact IH.
Qed.

Lemma endswith_sep_no_sep (x : string) :
  has_sep x = false -> endswith_sep x = false.
Proof.
  induction x as [|c x IH]; [reflexivity|].
  simpl. intros H. apply orb_false_elim in H as [Hc Hx].
  destruct x; [exact Hc|now apply IH].
Qed.

(** A list of components, written out, does not end with a separator. *)
Lemma endswith_sep_join_sep (l : list string) :
  l <> [] -> forallb component l = true ->
  endswith_sep (join_sep l) = false.
Proof.
  intros Hne H.
  rewrite (app_removelast_last "" Hne) in H |- *.
  rewrite forallb_app in H. apply andb_prop in H as [_ H].
  simpl in H. rewrite andb_true_r in H.
  destruct (component_starts _ H) as (c & x' & E & Hc).
  unfold component in H. apply andb_prop in H as [Hs _].
  apply negb_true_iff in Hs.
  destruct (removelast l) as [|y l'].
  - simpl. now apply endswith_sep_no_sep.
  - rewrite join_sep_snoc by discriminate.
    change (join_sep (y :: l') ++ String sep (last l ""))%string
      with (join_sep (y :: l') ++ (String sep "" ++ last l ""))%string.
    rewrite <- append_assoc.
    rewrite endswith_sep_app by (rewrite E; discriminate).
    now apply endswith_sep_no_sep.
Qed.

Lemma all_sep_app (a b : string) : all_sep (a ++ b) = all_sep a && all_sep b.
Proof.
  induction a as [|c a IH]; simpl; [reflexivity|].
  now rewrite IH, andb_assoc.
Qed.

Lemma all_sep_component_prefix (x rest : string) :
  component x = true -> all_sep (x ++ rest) = false.
Proof.
  intros H. destruct (component_starts _ H) as (c & x' & -> & Hc).
  simpl. now rewrite Hc.
Qed.

(** Cutting at the last separator. *)
Lemma rpartition_no_sep (x : string) :
  has_sep x = false -> rpartition x = ("", x).
Proof.
  induction x as [|c x IH]; [reflexivity|].
  simpl. intros H. apply orb_false_elim in H as [Hc Hx].
  now rewrite (IH Hx), Hc.
Qed.

Lemma rpartition_app (a x : string) :
  has_sep x = false ->
  rpartition (a ++ String sep x) = ((a ++ String sep "")%string, x).
Proof.
  intros Hx. induction a as [|c a IH].
  - simpl. rewrite (rpartition_no_sep _ Hx).
    change (Ascii.eqb sep sep) with true. reflexivity.
  - simpl. rewrite IH. destruct (a ++ String sep "")%string eqn:E.
    + destruct a; discriminate.
    + reflexivity.
Qed.

Lemma rstrip_sep_app (a : string) :
  a <> "" -> endswith_sep a = false ->
  rstrip_sep (a ++ String sep "") = a.
Proof.
  induction a as [|c a IH]; [congruence|]. intros _ He.
  destruct a as [|d a].
  - simpl in He |- *.
    change (Ascii.eqb sep sep) with true. cbv iota. now rewrite He.
  - assert (IHa : rstrip_sep ((String d a) ++ String sep "") = String d a).
    { apply IH; [discriminate|exact He]. }
    change ((String c (String d a)) ++ String sep "")%string
      with (String c ((String d a) ++ String sep ""))%string.
    change (rstrip_sep (String c (String d a ++ String sep "")))
      with (match rstrip_sep (String d a ++ String sep "") with
            | EmptyString =>
                if Ascii.eqb c sep then EmptyString else String c EmptyString
            | String _ _ as t => String c t
            end).
    now rewrite IHa.
Qed.

(** [split] of a path that ends with a name. *)
Lemma split_name (x : string) :
  has_sep x = false -> split x = ("", x).
Proof.
  intros H. unfold split. now rewrite (rpartition_no_sep _ H).
Qed.

Lemma split_under_root (x : string) :
  has_sep x = false -> split (String sep x) = (String sep "", x).
Proof.
  intros H. unfold split.
  change (String sep x) with ("" ++ String sep x)%string.
  rewrite (@rpartition_app "" x H). reflexivity.
Qed.

Lemma split_app (a x : string) :
  a <> "" -> endswith_sep a = false -> all_sep a = false ->
  has_sep x = false ->
  split (a ++ String sep x) = (a, x).
Proof.
  intros Hne He Hall Hx. unfold split.
  rewrite (@rpartition_app a x Hx).
  rewrite all_sep_app, Hall. simpl.
  destruct (a ++ String sep "")%string eqn:E.
  - destruct a; discriminate.
  - rewrite <- E. cbn [negb andb].
    replace (String.eqb (a ++ String sep "") "") with false
      by (rewrite E; reflexivity).
    cbn [negb andb]. now rewrite rstrip_sep_app.
Qed.

(** [join] onto the spellings [_joinrealpath] builds. *)
Lemma join_empty (x : string) : isabs x = false -> join "" x = x.
Proof. intros H. unfold join. now rewrite H. Qed.

Lemma join_root (x : string) :
  isabs x = false -> join (String sep "") x = String sep x.
Proof. intros H. unfold join. now rewrite H. Qed.

Lemma join_name (a x : string) :
  a <> "" -> endswith_sep a = false -> isabs x = false ->
  join a x = (a ++ String sep x)%string.
Proof.
  intros Hne He Hx. unfold join. rewrite Hx, He.
  destruct a; [congruence|reflexivity].
Qed.

(** ** Spellings *)

Lemma str_path_snoc (l : list string) (x : string) :
  str_path (l ++ [x]) =
  match l with
  | [] => String sep x
  | _ :: _ => (str_path l ++ String sep x)%string
  end.
Proof.
  destruct l as [|y l]; [reflexivity|].
  unfold str_path. now rewrite join_sep_snoc by discriminate.
Qed.

Lemma endswith_sep_str_path (l : list string) :
  l <> [] -> forallb component l = true -> endswith_sep (str_path l) = false.
Proof.
  intros Hne H. unfold str_path.
  pose proof (endswith_sep_join_sep Hne H) as He.
  destruct l as [|x l]; [congruence|].
  destruct (join_sep (x :: l)) eqn:E.
  - exfalso. simpl in H. apply andb_prop in H as [Hx _].
    exact (@join_sep_not_empty x l Hx E).
  - exact He.
Qed.

Lemma all_sep_str_path (l : list string) :
  l <> [] -> forallb component l = true -> all_sep (str_path l) = false.
Proof.
  intros Hne H. destruct l as [|x l]; [congruence|].
  simpl in H. apply andb_prop in H as [Hx _].
  unfold str_path. simpl all_sep.
  destruct l as [|y l].
  - simpl. destruct (component_starts _ Hx) as (c & x' & -> & Hc).
    simpl. now rewrite Hc.
  - rewrite join_sep_cons. now rewrite all_sep_component_prefix.
Qed.

Lemma all_sep_join_sep (l : list string) :
  l <> [] -> forallb component l = true -> all_sep (join_sep l) = false.
Proof.
  intros Hne H. destruct l as [|x l]; [congruence|].
  simpl in H. apply andb_prop in H as [Hx _].
  destruct l as [|y l].
  - simpl. destruct (component_starts _ Hx) as (c & x' & -> & Hc).
    simpl. now rewrite Hc.
  - rewrite join_sep_cons. now rewrite all_sep_component_prefix.
Qed.

(** [join] and [split] on a path written from the root. *)
Lemma join_str_path (l : list string) (x : string) :
  forallb component l = true -> component x = true ->
  join (str_path l) x = str_path (l ++ [x]).
Proof.
  intros Hl Hx. pose proof (isabs_component _ Hx) as Habs.
  rewrite str_path_snoc. destruct l as [|y l].
  - now apply join_root.
  - apply join_name; [discriminate| |assumption].
    apply endswith_sep_str_path; [discriminate|assumption].
Qed.

Lemma split_str_path (l : list string) (x : string) :
  forallb component l = true -> has_sep x = false ->
  split (str_path (l ++ [x])) = (str_path l, x).
Proof.
  intros Hl Hx. rewrite str_path_snoc. destruct l as [|y l].
  - now apply split_under_root.
  - apply split_app; try assumption; [discriminate| |].
    + apply endswith_sep_str_path; [discriminate|assumption].
    + apply all_sep_str_path; [discriminate|assumption].
Qed.

(** [join] and [split] on a relative path. *)
Lemma join_join_sep (l : list string) (x : string) :
  forallb component l = true -> component x = true ->
  join (join_sep l) x = join_sep (l ++ [x]).
Proof.
  intros Hl Hx. pose proof (isabs_component _ Hx) as Habs.
  destruct l as [|y l].
  - now apply join_empty.
  - rewrite join_sep_snoc by discriminate.
    apply join_name; [|apply endswith_sep_join_sep; [discriminate|]|];
      try assumption.
    apply join_sep_not_empty. simpl in Hl. now apply andb_prop in Hl as [Hl _].
Qed.

Lemma split_join_sep (l : list string) (x : string) :
  forallb component l = true -> has_sep x = false ->
  split (join_sep (l ++ [x])) = (join_sep l, x).
Proof.
  intros Hl Hx. destruct l as [|y l].
  - now apply split_name.
  - rewrite join_sep_snoc by discriminate.
    apply split_app; try assumption.
    + apply join_sep_not_empty. simpl in Hl. now apply andb_prop in Hl as [Hl _].
    + apply endswith_sep_join_sep; [discriminate|assumption].
    + apply all_sep_join_sep; [discriminate|assumption].
Qed.

Lemma repeat_snoc {A} (x : A) (k : nat) : repeat x (S k) = repeat x k ++ [x].
Proof. induction k as [|k IH]; [reflexivity|]. simpl in *. now rewrite <- IH. Qed.

Lemma up_parent (k : nat) (p : path) : up k (parent p) = parent (up k p).
Proof. induction k as [|k IH]; simpl; [reflexivity|now rewrite IH]. Qed.

Lemma components_ups_names (k : nat) (names : list string) :
  plain_path names = true ->
  forallb component (repeat pardir k ++ names) = true.
Proof.
  intros H. rewrite forallb_app, components_repeat_pardir.
  now apply plain_path_components.
Qed.

Section Spelling.
Variable w : World.

Lemma spells_root : spells w (String sep "") [].
Proof. exact (spells_abs w [] eq_refl). Qed.

Lemma spells_cwd : spells w "" (cwd w).
Proof.
  pose proof (spells_rel w 0 [] eq_refl) as H.
  simpl in H. now rewrite app_nil_r in H.
Qed.

Lemma spells_plain (s : string) (cur : path) :
  plain_path (cwd w) = true -> spells w s cur -> plain_path cur = true.
Proof.
  intros Hc [names H|k names H]; [assumption|].
  rewrite plain_path_app, H, andb_true_r. now apply plain_path_up.
Qed.

(** One name further down. *)
Lemma spells_join (s : string) (cur : path) (name : string) :
  spells w s cur -> plain_name name = true ->
  spells w (join s name) (cur ++ [name]).
Proof.
  intros [names H|k names H] Hn;
    pose proof (plain_name_component _ Hn) as Hc.
  - rewrite join_str_path by (auto using plain_path_components).
    apply spells_abs. rewrite plain_path_app, H. simpl. now rewrite Hn.
  - rewrite join_join_sep by (auto using components_ups_names).
    rewrite <- !app_assoc. apply spells_rel.
    rewrite plain_path_app, H. simpl. now rewrite Hn.
Qed.

(** One step up. *)
Lemma spells_step_up (s : string) (cur : path) :
  spells w s cur -> spells w (step_up s) (parent cur).
Proof.
  intros [names H|k names H].
  - destruct names as [|x names] using rev_ind.
    + exact spells_root.
    + clear IHnames. rewrite plain_path_app in H.
      apply andb_prop in H as [H Hx]. simpl in Hx. rewrite andb_true_r in Hx.
      destruct (plain_name_parts _ Hx) as (_ & Hp & _ & Hs & _).
      unfold step_up.
      replace (String.eqb (str_path (names ++ [x])) "") with false
        by reflexivity.
      rewrite split_str_path by (auto using plain_path_components).
      rewrite Hp, parent_snoc. now apply spells_abs.
  - destruct names as [|x names] using rev_ind.
    + rewrite !app_nil_r.
      change (parent (up k (cwd w))) with (up (S k) (cwd w)).
      destruct k as [|k].
      * pose proof (spells_rel w 1 [] eq_refl) as H1.
        rewrite !app_nil_r in H1. exact H1.
      * pose proof (spells_rel w (S (S k)) [] eq_refl) as H1.
        rewrite !app_nil_r in H1.
        unfold step_up.
        replace (String.eqb (join_sep (repeat pardir (S k))) "") with false
          by (destruct k; reflexivity).
        rewrite (repeat_snoc pardir k).
        rewrite split_join_sep
          by (try reflexivity; apply components_repeat_pardir).
        change (String.eqb pardir pardir) with true. cbv iota.
        rewrite !join_join_sep;
          try reflexivity;
          try (rewrite ?forallb_app, components_repeat_pardir; reflexivity).
        rewrite <- !repeat_snoc. exact H1.
    + clear IHnames. rewrite plain_path_app in H.
      apply andb_prop in H as [H Hx]. simpl in Hx. rewrite andb_true_r in Hx.
      destruct (plain_name_parts _ Hx) as (_ & Hp & _ & Hs & _).
      pose proof (plain_name_component _ Hx) as Hcx.
      unfold step_up. rewrite !app_assoc.
      replace (String.eqb (join_sep ((repeat pardir k ++ names) ++ [x])) "")
        with false.
      2:{ symmetry. apply String.eqb_neq.
          destruct (repeat pardir k ++ names) as [|y l] eqn:E.
          - simpl. destruct (component_starts _ Hcx) as (c & x' & -> & _).
            discriminate.
          - change ((y :: l) ++ [x]) with (y :: (l ++ [x])).
            apply join_sep_not_empty.
            pose proof (@components_ups_names k names H) as Hl.
            rewrite E in Hl. simpl in Hl. now apply andb_prop in Hl as [Hl _]. }
      rewrite split_join_sep by (auto using components_ups_names).
      rewrite Hp, parent_snoc. now apply spells_rel.
Qed.

(** The components the kernel is handed for a spelling, and where it
    starts. *)
Lemma namei_ups (b k : nat) :
  forall cur rest,
    is_dir (lookup (root w) cur) = true ->
    namei (root w) b cur (repeat pardir k ++ rest)
    = namei (root w) b (up k cur) rest.
Proof.
  induction k as [|k IH]; intros cur rest Hd; [reflexivity|].
  simpl repeat. simpl app. rewrite namei_cons.
  destruct (lookup (root w) cur) as [[| | | |]|] eqn:E; try discriminate.
  change (is_skip pardir) with false.
  change (String.eqb pardir pardir) with true. cbv iota.
  rewrite IH.
  - simpl. now rewrite up_parent.
  - apply is_dir_parent. now rewrite E.
Qed.

Lemma is_dir_up (k : nat) (cur : path) :
  is_dir (lookup (root w) cur) = true ->
  is_dir (lookup (root w) (up k cur)) = true.
Proof.
  induction k as [|k IH]; intros H; simpl; [assumption|].
  now apply is_dir_parent, IH.
Qed.

Lemma is_dir_root (cur : path) :
  lookup (root w) cur <> None -> cur <> [] \/ is_dir (lookup (root w) cur) = true ->
  is_dir (lookup (root w) []) = true.
Proof.
  intros Hin H. destruct cur as [|x cur].
  - destruct H as [H|H]; [congruence|exact H].
  - simpl in Hin |- *. destruct (root w); congruence.
Qed.
End Spelling.

(** ** [normpath] and [abspath] of a spelling *)

Lemma norm_comps_filter (initial : bool) (comps : list string) :
  forall acc,
    norm_comps initial acc (filter (fun x => negb (is_skip x)) comps)
    = norm_comps initial acc comps.
Proof.
  induction comps as [|x comps IH]; intros acc; [reflexivity|].
  simpl. destruct (is_skip x) eqn:E; simpl; [apply IH|].
  rewrite E. destruct (_ || _ || _); apply IH.
Qed.

Lemma norm_comps_names (names : list string) :
  plain_path names = true ->
  forall acc rest,
    norm_comps true acc (names ++ rest) = norm_comps true (acc ++ names) rest.
Proof.
  induction names as [|x names IH]; intros H acc rest.
  - now rewrite app_nil_r.
  - simpl in H. apply andb_prop in H as [Hx H].
    destruct (plain_name_parts _ Hx) as (Hs & Hp & _).
    simpl. rewrite Hs, Hp. simpl.
    rewrite (IH H). now rewrite <- app_assoc.
Qed.

Lemma last_plain (acc : path) :
  plain_path acc = true -> acc <> [] -> String.eqb (last acc "") pardir = false.
Proof.
  intros H Hne. rewrite (app_removelast_last "" Hne) in H.
  rewrite plain_path_app in H. apply andb_prop in H as [_ H].
  simpl in H. rewrite andb_true_r in H.
  now destruct (plain_name_parts _ H) as (_ & Hp & _).
Qed.

Lemma norm_comps_ups (k : nat) :
  forall acc rest,
    plain_path acc = true ->
    norm_comps true acc (repeat pardir k ++ rest)
    = norm_comps true (up k acc) rest.
Proof.
  induction k as [|k IH]; intros acc rest H; [reflexivity|].
  simpl repeat. simpl app.
  change (norm_comps true acc (pardir :: repeat pardir k ++ rest))
    with (if negb (String.eqb pardir pardir)
             || (negb true && match acc with [] => true | _ => false end)
             || (match acc with
                 | [] => false
                 | _ => String.eqb (last acc "") pardir
                 end)
          then norm_comps true (acc ++ [pardir]) (repeat pardir k ++ rest)
          else norm_comps true (removelast acc) (repeat pardir k ++ rest)).
  replace (match acc with
           | [] => false
           | _ => String.eqb (last acc "") pardir
           end) with false.
  2:{ destruct acc as [|a acc]; [reflexivity|].
      symmetry. apply last_plain; [assumption|discriminate]. }
  simpl. rewrite IH by now apply plain_path_parent.
  change (removelast acc) with (parent acc). now rewrite up_parent.
Qed.

(** [normpath] of an absolute string with a single leading separator. *)
Lemma normpath_single (s : string) :
  isabs s = true -> initial_slashes s = 1 ->
  normpath s
  = str_path (norm_comps true []
                (filter (fun x => negb (is_skip x)) (split_sep s))).
Proof.
  intros Ha Hi. unfold normpath. rewrite Hi.
  destruct s as [|c s]; [discriminate|].
  change (String.eqb (String c s) "") with false. cbv iota.
  rewrite norm_comps_filter. reflexivity.
Qed.

Lemma initial_slashes_str_path (l : list string) :
  forallb component l = true -> initial_slashes (str_path l) = 1.
Proof.
  intros H. destruct l as [|x l]; [reflexivity|].
  simpl in H. apply andb_prop in H as [Hx _].
  destruct (component_starts _ Hx) as (c & x' & -> & Hc).
  unfold str_path. destruct l as [|y l].
  - simpl. change (Ascii.eqb sep sep) with true. cbv iota. now rewrite Hc.
  - rewrite join_sep_cons. simpl.
    change (Ascii.eqb sep sep) with true. cbv iota. now rewrite Hc.
Qed.

(** The components of a written-out location. *)
Lemma parts_str_path (p : path) :
  plain_path p = true ->
  filter (fun x => negb (is_skip x)) (split_sep (str_path p)) = p.
Proof.
  intros Hp. destruct (plain_path_names p Hp) as [Hsep Hskip].
  unfold str_path.
  change (split_sep (String sep (join_sep p)))
    with (EmptyString :: split_sep (join_sep p)).
  cbn [filter is_skip String.eqb orb negb].
  destruct p as [|x p]; [reflexivity|].
  rewrite split_sep_join by (assumption || discriminate).
  now apply filter_all.
Qed.

Lemma normpath_str_path (p : path) :
  plain_path p = true -> normpath (str_path p) = str_path p.
Proof.
  intros H. rewrite normpath_single.
  - rewrite parts_str_path by assumption.
    rewrite <- (app_nil_r p) at 1.
    now rewrite norm_comps_names.
  - reflexivity.
  - now apply initial_slashes_str_path, plain_path_components.
Qed.

(** [Path(s)] of a written-out location is that location. *)
Lemma location_str_path (p : path) :
  plain_path p = true -> location (str_path p) = p.
Proof.
  intros H. unfold location.
  rewrite initial_slashes_str_path by now apply plain_path_components.
  now apply parts_str_path.
Qed.

(** A relative path joined to the working directory: an absolute string
    whose components are those of both. *)
Lemma join_cwd (c : path) (l : list string) :
  plain_path c = true -> forallb component l = true ->
  let s := join (str_path c) (join_sep l) in
  isabs s = true /\ initial_slashes s = 1
  /\ filter (fun x => negb (is_skip x)) (split_sep s) = c ++ l.
Proof.
  intros Hc Hl.
  pose proof (plain_path_components _ Hc) as Hcc.
  pose proof (components_no_sep _ Hl) as Hlsep.
  pose proof (components_no_skip _ Hl) as Hlskip.
  destruct l as [|x l].
  - (* nothing to append *)
    change (join_sep []) with "".
    destruct c as [|y c].
    + repeat split; reflexivity.
    + assert (E : join (str_path (y :: c)) ""
                  = (str_path (y :: c) ++ String sep "")%string).
      { apply join_name; [discriminate| |reflexivity].
        apply endswith_sep_str_path; [discriminate|assumption]. }
      cbv zeta. rewrite E. repeat split.
      * simpl in Hcc. apply andb_prop in Hcc as [Hy _].
        destruct (component_starts _ Hy) as (a & y' & -> & Ha).
        unfold str_path. destruct c as [|z c].
        -- simpl. change (Ascii.eqb sep sep) with true. cbv iota.
           now rewrite Ha.
        -- rewrite join_sep_cons. simpl.
           change (Ascii.eqb sep sep) with true. cbv iota. now rewrite Ha.
      * rewrite split_sep_app, filter_app, parts_str_path by assumption.
        reflexivity.
  - assert (Hx : component x = true)
      by (simpl in Hl; now apply andb_prop in Hl as [Hl _]).
    pose proof (@isabs_join_sep x l Hx) as Habs.
    assert (Hparts : filter (fun x => negb (is_skip x))
                       (split_sep (join_sep (x :: l))) = x :: l).
    { rewrite split_sep_join by (assumption || discriminate).
      now apply filter_all. }
    destruct (component_starts _ Hx) as (a & x' & Ex & Ha).
    destruct c as [|y c].
    + change (str_path []) with (String sep "").
      cbv zeta. rewrite join_root by assumption. repeat split.
      * subst x. destruct l as [|z l].
        -- simpl. change (Ascii.eqb sep sep) with true. cbv iota.
           now rewrite Ha.
        -- rewrite join_sep_cons. simpl.
           change (Ascii.eqb sep sep) with true. cbv iota. now rewrite Ha.
      * change (split_sep (String sep (join_sep (x :: l))))
          with (EmptyString :: split_sep (join_sep (x :: l))).
        cbn [filter is_skip String.eqb orb negb]. exact Hparts.
    + assert (E : join (str_path (y :: c)) (join_sep (x :: l))
                  = (str_path (y :: c) ++ String sep (join_sep (x :: l)))%string).
      { apply join_name; [discriminate| |assumption].
        apply endswith_sep_str_path; [discriminate|assumption]. }
      cbv zeta. rewrite E. repeat split.
      * simpl in Hcc. apply andb_prop in Hcc as [Hy _].
        destruct (component_starts _ Hy) as (b & y' & -> & Hb).
        unfold str_path. destruct c as [|z c].
        -- simpl. change (Ascii.eqb sep sep) with true. cbv iota.
           now rewrite Hb.
        -- rewrite join_sep_cons. simpl.
           change (Ascii.eqb sep sep) with true. cbv iota. now rewrite Hb.
      * rewrite split_sep_app, filter_app, parts_str_path by assumption.
        now rewrite Hparts.
Qed.

Lemma isabs_spelled_rel (k : nat) (names : list string) :
  plain_path names = true -> isabs (join_sep (repeat pardir k ++ names)) = false.
Proof.
  intros H. pose proof (@components_ups_names k names H) as Hl.
  destruct (repeat pardir k ++ names) as [|x l]; [reflexivity|].
  apply isabs_join_sep. simpl in Hl. now apply andb_prop in Hl as [Hl _].
Qed.

Section SpellingNormal.
Variable w : World.
Hypothesis cwd_plain : plain_path (cwd w) = true.

(** What [abspath] makes of a spelling is the location spelled. *)
Lemma normpath_spelled (s : string) (cur : path) :
  spells w s cur ->
  normpath (if isabs s then s else join (str_path (cwd w)) s) = str_path cur.
Proof.
  intros [names H|k names H].
  - change (isabs (str_path names)) with true. cbv iota.
    now apply normpath_str_path.
  - rewrite (@isabs_spelled_rel k names H).
    pose proof (@components_ups_names k names H) as Hl.
    destruct (join_cwd (cwd w) _ cwd_plain Hl) as (Ha & Hi & Hp).
    rewrite (normpath_single _ Ha Hi), Hp.
    rewrite (@norm_comps_names (cwd w) cwd_plain [] (repeat pardir k ++ names)).
    cbn [app].
    rewrite (@norm_comps_ups k (cwd w) names cwd_plain).
    rewrite <- (app_nil_r names) at 1.
    rewrite (@norm_comps_names names H (up k (cwd w)) []).
    reflexivity.
Qed.

Lemma loc_spelled (s : string) (cur : path) :
  spells w s cur -> loc w s = cur.
Proof.
  intros H. unfold loc. rewrite (normpath_spelled H).
  apply location_str_path. exact (spells_plain cwd_plain H).
Qed.
End SpellingNormal.

Lemma plain_of_canonical (r : node) (c : path) :
  canonical r c = true -> plain_path c = true.
Proof.
  intros Hc. apply canonical_entry_names in Hc.
  revert Hc. apply forallb_impl, entry_name_plain.
Qed.

Lemma world_ok_parts (w : World) :
  world_ok w = true ->
  canonical (root w) (cwd w) = true
  /\ is_dir (lookup (root w) (cwd w)) = true
  /\ plain_path (cwd w) = true.
Proof.
  unfold world_ok. intros H. apply andb_prop in H as [Hc Hd].
  repeat split; auto. now apply plain_of_canonical with (r := root w).
Qed.

Lemma abspath_spelled (w : World) (s : string) (cur : path) :
  world_ok w = true \/ isabs s = true ->
  spells w s cur -> abspath w s = Ret (str_path cur).
Proof.
  intros [Hw|Habs] H.
  - destruct (world_ok_parts w Hw) as (_ & _ & Hp).
    pose proof (normpath_spelled Hp H) as E.
    unfold abspath, getcwd. rewrite Hw.
    destruct (isabs s); now rewrite E.
  - unfold abspath. rewrite Habs.
    destruct H as [names H|k names H].
    + now rewrite normpath_str_path.
    + rewrite (@isabs_spelled_rel k names H) in Habs. discriminate.
Qed.

(** ** [realpath] against the kernel *)

Section MoreKernelFacts.
Variable r : node.

(** The walk keeps to canonical locations. *)
Lemma resolves_canonical cur rest c k :
  resolves r cur rest c k ->
  canonical r cur = true ->
  forallb (fun x => negb (has_sep x)) rest = true ->
  canonical r c = true.
Proof.
  induction 1 as [cur|cur name rest c k Hd Hs Hr IH|cur rest c k Hlock Hr IH
                 |cur name rest c k Hd Hs Hp Hr IH
                 |cur name rest c k Hd Hs Hp Hlong Hn Hsome Hl Hr IH
                 |cur name rest c k t Hd Hs Hp Hlong Hn Hl Ht Hr IH];
    intros Hc Hrest; auto; simpl in Hrest;
    apply andb_prop in Hrest as [Hname Hrest].
  - auto.
  - apply IH; auto. now apply canonical_parent.
  - apply IH; auto. apply canonical_snoc; auto.
    unfold entry_name. apply negb_true_iff in Hname.
    now rewrite Hs, Hp, Hn, Hname, Hlong.
  - apply IH.
    + destruct (isabs t); [reflexivity|assumption].
    + now rewrite forallb_app, split_sep_no_sep.
Qed.

Lemma resolves_skip_inv cur name rest c k :
  is_skip name = true ->
  resolves r cur (name :: rest) c k -> resolves r cur rest c k.
Proof.
  intros Hs H. inversion H; subst; try congruence.
Qed.
End MoreKernelFacts.

Lemma seen_get_same (k : string) (v : option string) (seen : seen_t) :
  seen_get k (seen_set k v seen) = Some v.
Proof. unfold seen_set; simpl. now rewrite String.eqb_refl. Qed.

Lemma seen_get_other (k k' : string) (v : option string) (seen : seen_t) :
  k' <> k -> seen_get k (seen_set k' v seen) = seen_get k seen.
Proof.
  intros Hne; unfold seen_set; simpl.
  apply String.eqb_neq in Hne. now rewrite Hne.
Qed.

Lemma isabs_join (a x : string) :
  isabs a = true -> isabs x = false -> isabs (join a x) = true.
Proof.
  intros Ha Hx. unfold join. rewrite Hx.
  destruct a as [|c a]; [discriminate|].
  destruct (String.eqb (String c a) "" || endswith_sep (String c a));
    exact Ha.
Qed.

Section RealpathFacts.
Variable w : World.

Lemma joinrealpath_nil depth s seen :
  joinrealpath w depth s [] seen = (Resolved s, seen).
Proof. destruct depth; reflexivity. Qed.

Lemma joinrealpath_cons depth s name rest seen :
  joinrealpath w depth s (name :: rest) seen =
  if is_skip name then joinrealpath w depth s rest seen
  else if String.eqb name pardir then joinrealpath w depth (step_up s) rest seen
  else
    match os_lstat w (join s name) with
    | StatValueError => (Fault embedded_null, seen)
    | StatOk (Symlink target) =>
        match seen_get (join s name) seen with
        | Some (Some cached) => joinrealpath w depth cached rest seen
        | Some None =>
            (Unresolved (join (join s name) (join_sep rest)), seen)
        | None =>
            match depth with
            | O => (Fault recursion_error, seen)
            | S d =>
                match joinrealpath w d (fst (enter s target))
                        (snd (enter s target))
                        (seen_set (join s name) None seen) with
                | (Resolved p, seen') =>
                    joinrealpath w depth p rest
                      (seen_set (join s name) (Some p) seen')
                | (Unresolved p, seen') =>
                    (Unresolved (join p (join_sep rest)), seen')
                | (Fault e, seen') => (Fault e, seen')
                end
            end
        end
    | StatOk _ | StatErr _ => joinrealpath w depth (join s name) rest seen
    end.
Proof. destruct depth; reflexivity. Qed.

Lemma seen_pending_le seen k k' :
  k' <= k -> seen_pending w seen k -> seen_pending w seen k'.
Proof.
  intros Hle Hp key cur name c j Hget Hloc Hr.
  specialize (Hp key cur name c j Hget Hloc Hr). lia.
Qed.

(** The exceptions [_joinrealpath] lets out. *)
Lemma joinrealpath_fault depth :
  forall rest s seen e seen',
    joinrealpath w depth s rest seen = (Fault e, seen') ->
    e = embedded_null \/ e = recursion_error.
Proof.
  induction depth as [|d IHd];
    induction rest as [|name rest IHrest]; intros s seen e seen' H;
    rewrite ?joinrealpath_nil, ?joinrealpath_cons in H; try discriminate;
    repeat match type of H with
           | context [if ?b then _ else _] => destruct b eqn:?
           | context [match ?x with _ => _ end] => destruct x eqn:?
           end;
    try discriminate; eauto;
    injection H as <- <-; eauto.
Qed.

(** What the kernel is handed for [join s name], and where that takes
    it.  The working directory matters to a relative spelling only. *)
Lemma spelled_walk (s : string) (cur : path) (name : string) :
  world_ok w = true \/ isabs s = true ->
  spells w s cur ->
  canonical (root w) cur = true ->
  is_dir (lookup (root w) cur) = true ->
  component name = true ->
  has_nul (join s name) = has_nul name
  /\ join s name <> ""
  /\ exists comps,
       split_sep (join s name) = comps ++ [name]
       /\ forall b,
            namei (root w) b (if isabs (join s name) then [] else cwd w) comps
            = inr cur.
Proof.
  intros Hanch Hs Hc Hd Hn.
  assert (Hnsep : has_sep name = false).
  { unfold component in Hn. apply andb_prop in Hn as [Hn _].
    now apply negb_true_iff in Hn. }
  destruct Hs as [names H|k names H].
  - pose proof (plain_path_components _ H) as Hl.
    rewrite (@join_str_path names name Hl Hn).
    repeat split.
    + unfold str_path.
      change (has_nul (String sep (join_sep (names ++ [name]))))
        with (has_nul (join_sep (names ++ [name]))).
      rewrite has_nul_join_sep, existsb_app, (plain_path_no_nul _ H).
      simpl. now rewrite orb_false_r.
    + discriminate.
    + exists ("" :: names). split.
      * unfold str_path.
        change (split_sep (String sep (join_sep (names ++ [name]))))
          with (EmptyString :: split_sep (join_sep (names ++ [name]))).
        rewrite split_sep_join; [reflexivity|now destruct names|].
        rewrite forallb_app, (components_no_sep _ Hl). simpl.
        now rewrite Hnsep.
      * intros b. change (isabs (str_path (names ++ [name]))) with true.
        cbv iota. rewrite namei_cons.
        assert (Hroot : is_dir (lookup (root w) []) = true).
        { apply (@is_dir_root w names); [now apply canonical_lookup|now right]. }
        destruct (lookup (root w) []) as [[| | | |]|]; try discriminate.
        change (is_skip "") with true. cbv iota.
        now rewrite canonical_namei.
  - assert (w_ok : world_ok w = true).
    { destruct Hanch as [Hw|Habs]; [exact Hw|].
      rewrite (@isabs_spelled_rel k names H) in Habs. discriminate. }
    destruct (world_ok_parts w w_ok) as (Hcw & Hdw & Hpw).
    pose proof (@components_ups_names k names H) as Hl.
    rewrite (@join_join_sep _ name Hl Hn).
    assert (Hall : forallb component ((repeat pardir k ++ names) ++ [name]) = true).
    { rewrite forallb_app, Hl. simpl. now rewrite Hn. }
    assert (Hfirst : exists x l, (repeat pardir k ++ names) ++ [name] = x :: l
                                 /\ component x = true).
    { destruct ((repeat pardir k ++ names) ++ [name]) as [|x l] eqn:E.
      - now destruct (repeat pardir k ++ names).
      - exists x, l. split; [reflexivity|].
        simpl in Hall. now apply andb_prop in Hall as [Hall _]. }
    destruct Hfirst as (x & l & E & Hx).
    repeat split.
    + rewrite has_nul_join_sep, existsb_app, existsb_app.
      rewrite (plain_path_no_nul _ H).
      replace (existsb has_nul (repeat pardir k)) with false.
      * simpl. now rewrite orb_false_r.
      * clear. induction k; simpl; auto.
    + rewrite E. now apply join_sep_not_empty.
    + exists (repeat pardir k ++ names). split.
      * apply split_sep_join; [now destruct (repeat pardir k ++ names)|].
        now apply components_no_sep.
      * intros b. rewrite E, (@isabs_join_sep x l Hx).
        rewrite (@namei_ups w b k (cwd w) names Hdw).
        unfold canonical in Hc. rewrite canonical_from_app in Hc.
        apply andb_prop in Hc as [_ Hc]. simpl in Hc.
        now rewrite canonical_namei.
Qed.

(** [os.lstat(join(path, name))] looks the name up where [path] leads. *)
Lemma lstat_join (s : string) (cur : path) (name : string) :
  world_ok w = true \/ isabs s = true ->
  spells w s cur ->
  canonical (root w) cur = true ->
  is_dir (lookup (root w) cur) = true ->
  component name = true ->
  String.eqb name pardir = false ->
  has_nul name = false ->
  os_lstat w (join s name) =
  if too_long name then StatErr ENAMETOOLONG
  else match lookup (root w) (cur ++ [name]) with
       | Some n => StatOk n
       | None => StatErr ENOENT
       end.
Proof.
  intros Hanch Hs Hc Hd Hn Hp Hnul.
  destruct (@spelled_walk s cur name Hanch Hs Hc Hd Hn)
    as (E1 & E2 & comps & E3 & E4).
  unfold os_lstat. rewrite E1, Hnul.
  apply String.eqb_neq in E2. rewrite E2, E3.
  unfold sys_lstat. rewrite last_last, removelast_last, E4.
  unfold component in Hn. apply andb_prop in Hn as [_ Hskip].
  apply negb_true_iff in Hskip. rewrite Hskip, Hp. cbn [orb].
  destruct (lookup (root w) cur) as [[| | | |]|]; try discriminate.
  rewrite Hnul.
  destruct (too_long name); [reflexivity|].
  destruct (lookup (root w) (cur ++ [name])); reflexivity.
Qed.

(** Along a canonical prefix [_joinrealpath] only steps down. *)
Lemma joinrealpath_canonical_prefix (a : list string) :
  forall s cur,
    world_ok w = true \/ isabs s = true ->
    spells w s cur ->
    canonical (root w) cur = true ->
    is_dir (lookup (root w) cur) = true \/ a = [] ->
    canonical_from (root w) cur a = true ->
    exists s',
      spells w s' (cur ++ a)
      /\ (isabs s = true -> isabs s' = true)
      /\ forall depth rest seen,
           joinrealpath w depth s (a ++ rest) seen
           = joinrealpath w depth s' rest seen.
Proof.
  induction a as [|x a IH]; intros s cur Hanch Hsp Hcan Hd H.
  - exists s. rewrite app_nil_r. auto.
  - simpl in H. apply andb_prop in H as [Hx H].
    destruct (entry_name_parts _ Hx) as (Hskip & Hpar & Hnul & Hsep & Hlong).
    pose proof (entry_name_plain _ Hx) as Hplain.
    pose proof (plain_name_component _ Hplain) as Hcomp.
    destruct (lookup (root w) (cur ++ [x])) as [m|] eqn:Hl; [|discriminate].
    pose proof (lookup_snoc_dir _ _ _ Hl) as Hdir.
    assert (Hcan' : canonical (root w) (cur ++ [x]) = true).
    { apply canonical_snoc; auto; rewrite Hl; [discriminate|].
      now destruct m. }
    assert (Habs : isabs s = true -> isabs (join s x) = true).
    { intros Hs. apply isabs_join; [assumption|].
      now apply isabs_component. }
    destruct (IH (join s x) (cur ++ [x])) as (s' & Hsp' & Habs' & E); auto.
    { destruct Hanch; auto. }
    { now apply spells_join. }
    { destruct a as [|y a]; [now right|left].
      assert (Hm : canonical_from (root w) (cur ++ [x]) (y :: a) = true)
        by (destruct m; try discriminate; exact H).
      simpl in Hm. apply andb_prop in Hm as [_ Hm].
      destruct (lookup (root w) ((cur ++ [x]) ++ [y])) as [m'|] eqn:Hl';
        [|discriminate].
      exact (lookup_snoc_dir _ _ _ Hl'). }
    { now destruct m. }
    exists s'. split; [now rewrite <- app_assoc in Hsp'|].
    split; [auto|].
    intros depth rest seen. simpl app. rewrite joinrealpath_cons.
    rewrite Hskip, Hpar.
    rewrite (@lstat_join s cur x Hanch Hsp Hcan Hdir Hcomp Hpar Hnul), Hlong, Hl.
    destruct m; try discriminate; apply E.
Qed.

(** A last name that is no link, or is not there, is kept as it is. *)
Lemma joinrealpath_entry depth (s : string) (cur : path) (name : string) seen :
  world_ok w = true \/ isabs s = true ->
  spells w s cur ->
  canonical (root w) cur = true ->
  is_dir (lookup (root w) cur) = true ->
  entry_name name = true ->
  is_link (lookup (root w) (cur ++ [name])) = false ->
  joinrealpath w depth s [name] seen = (Resolved (join s name), seen)
  /\ spells w (join s name) (cur ++ [name])
  /\ (isabs s = true -> isabs (join s name) = true).
Proof.
  intros Hanch Hsp Hcan Hd Hx Hlink.
  destruct (entry_name_parts _ Hx) as (Hskip & Hpar & Hnul & Hsep & Hlong).
  pose proof (entry_name_plain _ Hx) as Hplain.
  pose proof (plain_name_component _ Hplain) as Hcomp.
  split; [|split; [now apply spells_join|]].
  - rewrite joinrealpath_cons, Hskip, Hpar.
    rewrite (@lstat_join s cur name Hanch Hsp Hcan Hd Hcomp Hpar Hnul), Hlong.
    destruct (lookup (root w) (cur ++ [name])) as [[| | | |]|];
      try discriminate; now rewrite joinrealpath_nil.
  - intros Hs. apply isabs_join; [assumption|].
    now apply isabs_component.
Qed.

Hypothesis w_ok : world_ok w = true.

(** Where the kernel's walk arrives, [_joinrealpath] arrives too, as long
    as the interpreter grants one frame per link the kernel follows. *)
Lemma joinrealpath_resolves (n : nat) :
  forall rest k cur c depth seen s,
    k <= n ->
    resolves (root w) cur rest c k ->
    k < depth ->
    canonical (root w) cur = true ->
    spells w s cur ->
    forallb (fun x => negb (has_sep x)) rest = true ->
    seen_sound w seen ->
    seen_pending w seen k ->
    exists seen' s',
      joinrealpath w depth s rest seen = (Resolved s', seen')
      /\ spells w s' c
      /\ seen_sound w seen'
      /\ (forall key, seen_get key seen' = Some None ->
                      seen_get key seen = Some None).
Proof.
  destruct (world_ok_parts w w_ok) as (Hcw & Hdw & Hpw).
  induction n as [n IHn] using lt_wf_ind.
  induction rest as [|name rest IHrest];
    intros k cur c depth seen s Hk Hres Hdepth Hcan Hsp Hsep Hsound Hpend.
  - inversion Hres; subst.
    rewrite joinrealpath_nil. exists seen, s; auto.
  - rewrite joinrealpath_cons.
    simpl in Hsep. apply andb_prop in Hsep as [Hnsep Hsep].
    apply negb_true_iff in Hnsep.
    inversion Hres as [|? ? ? ? ? Hd Hs Hr|? ? ? ? Hlock Hr
                       |? ? ? ? ? Hd Hs Hp Hr
                       |? ? ? ? ? Hd Hs Hp Hlong Hn Hsome Hl Hr
                       |? ? ? ? k0 t Hd Hs Hp Hlong Hn Hl Ht Hr]; subst.
    + rewrite Hs. apply (IHrest k cur c depth seen s); auto.
    + change (is_skip "") with true. cbv iota.
      apply (IHrest k cur c depth seen s); auto.
    + rewrite Hs, Hp.
      apply (IHrest k (parent cur) c depth seen (step_up s)); auto.
      * now apply canonical_parent.
      * now apply spells_step_up.
    + rewrite Hs, Hp.
      assert (Hcomp : component name = true)
        by (unfold component; now rewrite Hnsep, Hs).
      assert (Hplain : plain_name name = true).
      { unfold plain_name, entry_name. now rewrite Hs, Hp, Hn, Hnsep, Hlong. }
      rewrite (@lstat_join s cur name (or_introl w_ok) Hsp Hcan Hd Hcomp Hp Hn), Hlong.
      assert (Hnext : exists seen' s',
                 joinrealpath w depth (join s name) rest seen = (Resolved s', seen')
                 /\ spells w s' c /\ seen_sound w seen'
                 /\ (forall key, seen_get key seen' = Some None ->
                                 seen_get key seen = Some None)).
      { apply (IHrest k (cur ++ [name]) c depth seen (join s name)); auto.
        - apply canonical_snoc; auto.
          unfold entry_name. now rewrite Hs, Hp, Hn, Hnsep, Hlong.
        - now apply spells_join. }
      destruct (lookup (root w) (cur ++ [name])) as [[| | | |]|];
        try discriminate; try congruence; exact Hnext.
    + rewrite Hs, Hp.
      assert (Hcomp : component name = true)
        by (unfold component; now rewrite Hnsep, Hs).
      assert (Hplain : plain_name name = true).
      { unfold plain_name, entry_name. now rewrite Hs, Hp, Hn, Hnsep, Hlong. }
      rewrite (@lstat_join s cur name (or_introl w_ok) Hsp Hcan Hd Hcomp Hp Hn), Hlong, Hl.
      set (key := join s name).
      assert (Hkey : loc w key = cur ++ [name]).
      { apply loc_spelled; [assumption|]. now apply spells_join. }
      destruct (resolves_app Hr (split_sep t) rest eq_refl)
        as (c1 & k1 & k2 & Htarget & Hrest & ->).
      assert (Hlink : resolves (root w) cur [name] c1 (S k1)).
      { apply rs_follow with (t := t); auto. now rewrite app_nil_r. }
      assert (Hc1 : canonical (root w) c1 = true).
      { apply (@resolves_canonical (root w) _ _ _ _ Hlink Hcan). simpl. now rewrite Hnsep. }
      destruct (seen_get key seen) as [[cached|]|] eqn:Hget.
      * destruct (Hsound _ _ _ _ Hget Hkey) as (c' & k' & Hcached & Hspc).
        destruct (resolves_det Hcached Hlink) as [-> _].
        apply (IHrest k2 c1 c depth seen cached); auto; try lia.
        apply seen_pending_le with (k := S (k1 + k2)); [lia|assumption].
      * specialize (Hpend _ _ _ _ _ Hget Hkey Hlink). lia.
      * destruct depth as [|d]; [lia|].
        assert (Hlt : k1 < n) by lia.
        assert (Henter : exists s0 cur0,
                   fst (enter s t) = s0
                   /\ spells w s0 cur0
                   /\ canonical (root w) cur0 = true
                   /\ resolves (root w) cur0 (snd (enter s t)) c1 k1
                   /\ forallb (fun x => negb (has_sep x)) (snd (enter s t))
                      = true).
        { unfold enter. destruct t as [|a t']; [congruence|].
          simpl isabs in *. destruct (Ascii.eqb a sep) eqn:Ea.
          - exists (String sep ""), []. cbn [fst snd drop_first].
            repeat split; [apply spells_root| |apply split_sep_no_sep].
            simpl in Htarget. rewrite Ea in Htarget.
            now apply resolves_skip_inv in Htarget.
          - exists s, cur. cbn [fst snd].
            repeat split; auto. apply split_sep_no_sep. }
        destruct Henter as (s0 & cur0 & Es0 & Hsp0 & Hcan0 & Hres0 & Hsep0).
        rewrite Es0.
        destruct (IHn k1 Hlt (snd (enter s t)) k1 cur0 c1 d
                      (seen_set key None seen) s0)
          as (seen1 & p & E1 & Hsp1 & Hsound1 & Hkeep1); auto; try lia.
        { intros key' v cur' name' Hg Hloc.
          destruct (string_dec key key') as [E|E].
          - rewrite <- E, seen_get_same in Hg. discriminate.
          - rewrite seen_get_other in Hg by assumption. eauto. }
        { intros key' cur' name' c' k' Hg Hloc Hr'.
          destruct (string_dec key key') as [E|E].
          - rewrite <- E, Hkey in Hloc.
            apply app_inj_tail in Hloc as [<- <-].
            destruct (resolves_det Hr' Hlink) as [_ ->]. lia.
          - rewrite seen_get_other in Hg by assumption.
            specialize (Hpend _ _ _ _ _ Hg Hloc Hr'). lia. }
        rewrite E1.
        destruct (IHrest k2 c1 c (S d) (seen_set key (Some p) seen1) p)
          as (seen2 & s2 & E2 & Hsp2 & Hsound2 & Hkeep2); auto; try lia.
        { intros key' v cur' name' Hg Hloc.
          destruct (string_dec key key') as [E|E].
          - rewrite <- E, seen_get_same in Hg.
            injection Hg as <-.
            rewrite <- E, Hkey in Hloc.
            apply app_inj_tail in Hloc as [<- <-]. eauto.
          - rewrite seen_get_other in Hg by assumption. eauto. }
        { intros key' cur' name' c' k' Hg Hloc Hr'.
          destruct (string_dec key key') as [E|E].
          - rewrite <- E, seen_get_same in Hg. discriminate.
          - rewrite seen_get_other in Hg by assumption.
            apply Hkeep1 in Hg.
            rewrite seen_get_other in Hg by assumption.
            specialize (Hpend _ _ _ _ _ Hg Hloc Hr'). lia. }
        exists seen2, s2; repeat split; auto.
        intros key' Hg. apply Hkeep2 in Hg.
        destruct (string_dec key key') as [E|E].
        { rewrite <- E, seen_get_same in Hg. discriminate. }
        rewrite seen_get_other in Hg by assumption.
        apply Hkeep1 in Hg.
        now rewrite seen_get_other in Hg by assumption.
Qed.

End RealpathFacts.

(** ** [pathlib] over the kernel *)

Lemma origin_canonical (w : World) (p : PurePath) :
  world_ok w = true -> canonical (root w) (origin w p) = true.
Proof.
  unfold world_ok, origin; intros H; apply andb_prop in H as [H _].
  destruct (absolute p); [reflexivity|assumption].
Qed.

Lemma origin_is_dir (w : World) (p : PurePath) :
  world_ok w = true -> is_dir (lookup (root w) (origin w p)) = true.
Proof.
  intros Hw. destruct (world_ok_parts w Hw) as (Hc & Hd & _).
  unfold origin. destruct (absolute p); [|assumption].
  apply (@is_dir_root w (cwd w)); [now apply canonical_lookup|now right].
Qed.

Lemma origin_spelled (w : World) (p : PurePath) :
  spells w (if absolute p then String sep "" else "") (origin w p).
Proof.
  unfold origin. destruct (absolute p); [apply spells_root|apply spells_cwd].
Qed.

(** [stat] of a canonical location finds what is there. *)
Lemma os_stat_canonical (w : World) (c : path) (n : node) :
  canonical (root w) c = true ->
  lookup (root w) c = Some n ->
  os_stat w (at_path c) = StatOk n.
Proof.
  intros Hc Hl. unfold os_stat, sys_stat.
  change (origin w (at_path c)) with (@nil string).
  change (parts (at_path c)) with c.
  rewrite (canonical_from_no_nul _ _ _ Hc).
  rewrite (canonical_namei (root w) MAXSYMLINKS c [] Hc).
  change ([] ++ c) with c.
  unfold object_at. now rewrite Hl.
Qed.

(** [stat] of a name that a canonical directory does not hold. *)
Lemma os_stat_absent_at (w : World) (dir : path) (name : string) :
  canonical (root w) dir = true ->
  is_dir (lookup (root w) dir) = true ->
  entry_name name = true ->
  lookup (root w) (dir ++ [name]) = None ->
  os_stat w (at_path (dir ++ [name])) = StatErr ENOENT.
Proof.
  intros Hc Hd Hname Hl.
  unfold os_stat, sys_stat.
  change (origin w (at_path (dir ++ [name]))) with (@nil string).
  change (parts (at_path (dir ++ [name]))) with (dir ++ [name]).
  destruct (entry_name_parts _ Hname) as (Hskip & Hpar & Hnul & _ & Hlong).
  rewrite existsb_app, (canonical_from_no_nul _ _ _ Hc).
  cbn [existsb orb]. rewrite Hnul. cbn [orb].
  rewrite (namei_canonical_prefix (root w) MAXSYMLINKS dir [] [name] Hc).
  change ([] ++ dir) with dir.
  rewrite namei_cons.
  destruct (lookup (root w) dir) as [[| | |entries|]|]; try discriminate.
  now rewrite Hskip, Hpar, Hnul, Hlong, Hl.
Qed.

Lemma os_stat_absent (w : World) (name : string) :
  world_ok w = true ->
  entry_name name = true ->
  lookup (root w) (cwd w ++ [name]) = None ->
  os_stat w (at_path (cwd w ++ [name])) = StatErr ENOENT.
Proof.
  intros Hw. destruct (world_ok_parts w Hw) as (Hc & Hd & _).
  now apply os_stat_absent_at.
Qed.

Lemma Path_parts_components (s : string) :
  forallb component (parts (Path s)) = true.
Proof.
  unfold Path; cbn [parts].
  pose proof (split_sep_no_sep s) as H.
  induction (split_sep s) as [|x l IH]; [reflexivity|].
  simpl in H |- *. apply andb_prop in H as [Hx H].
  destruct (is_skip x) eqn:E; simpl; [now apply IH|].
  unfold component. rewrite Hx, E. simpl. now apply IH.
Qed.

Lemma Path_parts_no_sep (s : string) :
  forallb (fun x => negb (has_sep x)) (parts (Path s)) = true.
Proof. apply components_no_sep, Path_parts_components. Qed.

(** [Path(str(p))] is [p], for an absolute location of plain names. *)
Lemma Path_of_str_path (p : path) :
  plain_path p = true -> Path (str_path p) = at_path p.
Proof.
  intros Hp. unfold Path, at_path.
  now rewrite (parts_str_path p Hp).
Qed.

(** The parsed form of a relative path written out from the working
    directory. *)
Lemma Path_from_cwd (w : World) (s : string) :
  plain_path (cwd w) = true ->
  Path (from_cwd w s)
  = {| absolute := true; parts := cwd w ++ parts (Path s) |}.
Proof.
  intros Hp. destruct (plain_path_names _ Hp) as [Hsep Hskip].
  unfold Path, from_cwd, str_path. f_equal.
  change (String sep (join_sep (cwd w)) ++ String sep s)%string
    with (String sep (join_sep (cwd w) ++ String sep s)%string).
  change (split_sep (String sep (join_sep (cwd w) ++ String sep s)%string))
    with (EmptyString :: split_sep (join_sep (cwd w) ++ String sep s)%string).
  cbn [filter is_skip String.eqb orb negb].
  rewrite split_sep_app, filter_app. f_equal.
  destruct (cwd w) as [|x p]; [reflexivity|].
  rewrite split_sep_join by (assumption || discriminate).
  now apply filter_all.
Qed.

Section ResolveFacts.
Variable w : World.

(** [realpath] is handed [str(p)] and finds the parts of [p] in it. *)
Lemma joinrealpath_fspath (p : PurePath) depth seen :
  forallb component (parts p) = true ->
  joinrealpath w depth (fst (enter "" (fspath p)))
               (snd (enter "" (fspath p))) seen
  = joinrealpath w depth (if absolute p then String sep "" else "")
                 (parts p) seen.
Proof.
  intros H. unfold fspath, enter.
  destruct (absolute p).
  - change (isabs (str_path (parts p))) with true. cbv iota. cbn [fst snd].
    change (drop_first (str_path (parts p))) with (join_sep (parts p)).
    destruct (parts p) as [|x l].
    + change (split_sep (join_sep [])) with [""].
      now rewrite joinrealpath_cons, !joinrealpath_nil.
    + rewrite split_sep_join;
        [reflexivity|discriminate|now apply components_no_sep].
  - destruct (parts p) as [|x l].
    + change (isabs curdir) with false. cbv iota. cbn [fst snd].
      change (split_sep curdir) with [curdir].
      now rewrite joinrealpath_cons, !joinrealpath_nil.
    + assert (Hx : component x = true)
        by (simpl in H; now apply andb_prop in H as [H _]).
      rewrite (@isabs_join_sep x l Hx). cbn [fst snd].
      rewrite split_sep_join;
        [reflexivity|discriminate|now apply components_no_sep].
Qed.

(** A path whose last name is no link, or is not there, in a directory
    that a canonical path leads to: [resolve] gives that place.  The
    working directory matters to a relative path only. *)
Lemma resolve_last (p : PurePath) (a : list string) (name : string) :
  world_ok w = true \/ absolute p = true ->
  parts p = a ++ [name] ->
  canonical_from (root w) (origin w p) a = true ->
  is_dir (lookup (root w) (origin w p ++ a)) = true ->
  entry_name name = true ->
  is_link (lookup (root w) ((origin w p ++ a) ++ [name])) = false ->
  resolve w p = Ret ((origin w p ++ a) ++ [name]).
Proof.
  intros Hanch Hparts Ha Hd Hname Hlink.
  assert (Ho : canonical (root w) (origin w p) = true).
  { destruct Hanch as [Hw|Habs]; [now apply origin_canonical|].
    unfold origin. now rewrite Habs. }
  assert (Hdir : canonical (root w) (origin w p ++ a) = true).
  { unfold canonical in *. rewrite canonical_from_app, Ho. exact Ha. }
  assert (Hod : is_dir (lookup (root w) (origin w p)) = true).
  { destruct Hanch as [Hw|Habs]; [now apply origin_is_dir|].
    unfold origin in *. rewrite Habs in *.
    apply (@is_dir_root w ([] ++ a)); [now apply canonical_lookup|now right]. }
  assert (Hanch' : world_ok w = true
                   \/ isabs (if absolute p then String sep "" else "") = true).
  { destruct Hanch as [Hw|Habs]; [now left|right]. now rewrite Habs. }
  assert (Hcomp : forallb component (parts p) = true).
  { rewrite Hparts, forallb_app.
    rewrite (plain_path_components a).
    - simpl. now rewrite (plain_name_component _ (entry_name_plain _ Hname)).
    - pose proof (canonical_entry_names _ _ _ Ha) as He.
      revert He. apply forallb_impl, entry_name_plain. }
  destruct (@joinrealpath_canonical_prefix w a
              (if absolute p then String sep "" else "") (origin w p))
    as (s' & Hsp' & Habs' & E); auto.
  { apply origin_spelled. }
  assert (Hanch2 : world_ok w = true \/ isabs s' = true).
  { destruct Hanch' as [Hw|Habs]; auto. }
  destruct (@joinrealpath_entry w recursion_limit s' (origin w p ++ a)
              name [] Hanch2 Hsp' Hdir Hd Hname Hlink) as (E2 & Hsp2 & Habs2).
  assert (Hreal : realpath w (fspath p)
                  = Ret (str_path ((origin w p ++ a) ++ [name]))).
  { unfold realpath. rewrite joinrealpath_fspath by assumption.
    rewrite Hparts, E, E2. cbn [fst]. apply abspath_spelled; [|assumption].
    destruct Hanch2 as [Hw|Habs]; auto. }
  assert (Hplain : plain_path ((origin w p ++ a) ++ [name]) = true).
  { rewrite plain_path_app.
    rewrite (plain_of_canonical _ _ Hdir). simpl.
    now rewrite (entry_name_plain _ Hname). }
  unfold resolve. rewrite Hreal. cbv zeta.
  rewrite location_str_path by assumption.
  destruct (lookup (root w) ((origin w p ++ a) ++ [name])) as [m|] eqn:Hl.
  - assert (Hc : canonical (root w) ((origin w p ++ a) ++ [name]) = true).
    { apply canonical_snoc; auto; rewrite Hl; [discriminate|exact Hlink]. }
    now rewrite (os_stat_canonical w _ Hc Hl).
  - now rewrite (os_stat_absent_at w _ _ Hdir Hd Hname Hl).
Qed.

Hypothesis w_ok : world_ok w = true.

(** Where the kernel's walk over the parts of a path arrives,
    [_joinrealpath] arrives, with any number of frames above
    [MAXSYMLINKS]: for a path the kernel resolves, how many frames the
    callers of [realpath] hold does not matter. *)
Lemma joinrealpath_of_walk (p : PurePath) (c : path) (depth : nat) :
  MAXSYMLINKS < depth ->
  forallb component (parts p) = true ->
  namei (root w) MAXSYMLINKS (origin w p) (parts p) = inr c ->
  (exists s seen,
      joinrealpath w depth (fst (enter "" (fspath p)))
                   (snd (enter "" (fspath p))) [] = (Resolved s, seen)
      /\ abspath w s = Ret (str_path c))
  /\ canonical (root w) c = true
  /\ lookup (root w) c <> None.
Proof.
  intros Hdepth Hcomp Hn.
  pose proof (origin_canonical w p w_ok) as Ho.
  pose proof (canonical_lookup _ _ Ho) as Hin.
  destruct (namei_resolves _ _ _ _ Hin Hn) as (k & Hk & Hr).
  pose proof (components_no_sep _ Hcomp) as Hsep.
  assert (Hc : canonical (root w) c = true)
    by exact (@resolves_canonical (root w) _ _ _ _ Hr Ho Hsep).
  destruct (@joinrealpath_resolves w w_ok k (parts p) k (origin w p) c
              depth []
              (if absolute p then String sep "" else ""))
    as (seen' & s' & E & Hsp & _); auto.
  - lia.
  - apply origin_spelled.
  - intros key v cur name Hg; discriminate.
  - intros key cur name c' k' Hg; discriminate.
  - repeat split; auto.
    + exists s', seen'. rewrite joinrealpath_fspath by assumption.
      split; [exact E|]. apply abspath_spelled; auto.
    + exact (resolves_lookup Hr Hin).
Qed.

(** So [realpath] arrives there. *)
Lemma realpath_of_walk (p : PurePath) (c : path) :
  forallb component (parts p) = true ->
  namei (root w) MAXSYMLINKS (origin w p) (parts p) = inr c ->
  realpath w (fspath p) = Ret (str_path c)
  /\ canonical (root w) c = true
  /\ lookup (root w) c <> None.
Proof.
  intros Hcomp Hn.
  destruct (@joinrealpath_of_walk p c recursion_limit)
    as ((s & seen & E & Habs) & Hc & Hin); auto.
  { unfold MAXSYMLINKS, recursion_limit. lia. }
  repeat split; auto.
  unfold realpath. now rewrite E.
Qed.

(** What [stat] finds through a path, [resolve] names canonically. *)
Lemma resolve_of_stat (p : PurePath) (n : node) :
  forallb component (parts p) = true ->
  os_stat w p = StatOk n ->
  exists c,
    resolve w p = Ret c
    /\ namei (root w) MAXSYMLINKS (origin w p) (parts p) = inr c
    /\ canonical (root w) c = true
    /\ lookup (root w) c = Some n.
Proof.
  intros Hcomp Hstat. unfold os_stat, sys_stat in Hstat.
  destruct (existsb has_nul (parts p)); [discriminate|].
  destruct (namei (root w) MAXSYMLINKS (origin w p) (parts p))
    as [e|c] eqn:Hn; [discriminate|].
  injection Hstat as Hobj.
  destruct (realpath_of_walk p Hcomp Hn) as (Hreal & Hc & Hin).
  assert (Hl : lookup (root w) c = Some n).
  { unfold object_at in Hobj.
    destruct (lookup (root w) c); [now subst|congruence]. }
  exists c; repeat split; auto.
  unfold resolve. rewrite Hreal. cbv zeta.
  rewrite location_str_path by now apply plain_of_canonical with (r := root w).
  now rewrite (os_stat_canonical w c Hc Hl).
Qed.

(** A canonical location resolves to itself. *)
Lemma resolve_canonical (c : path) (n : node) :
  canonical (root w) c = true ->
  lookup (root w) c = Some n ->
  resolve w (at_path c) = Ret c.
Proof.
  intros Hc Hl.
  destruct (@resolve_of_stat (at_path c) n) as (c' & Hres & Hn & _).
  - apply plain_path_components. now apply plain_of_canonical with (r := root w).
  - now apply os_stat_canonical.
  - change (origin w (at_path c)) with (@nil string) in Hn.
    change (parts (at_path c)) with c in Hn.
    rewrite (canonical_namei (root w) MAXSYMLINKS c [] Hc) in Hn.
    injection Hn as <-. exact Hres.
Qed.
End ResolveFacts.

(** The exceptions of [resolve]. *)
Lemma resolve_raises (w : World) (p : PurePath) (e : exn) :
  resolve w p = Raise e ->
  e = embedded_null \/ e = recursion_error
  \/ (exists rp, e = symlink_loop rp)
  \/ (world_ok w = false /\ e = os_error ENOENT None).
Proof.
  unfold resolve. intros H.
  destruct (realpath w (fspath p)) as [s|e'] eqn:Hreal.
  - cbv zeta in H.
    destruct (os_stat w (at_path (location s))) as [n|[]|];
      try discriminate; injection H as <-; eauto.
  - injection H as ->.
    unfold realpath in Hreal.
    destruct (joinrealpath w recursion_limit (fst (enter "" (fspath p)))
                (snd (enter "" (fspath p))) []) as [j seen'] eqn:Hj.
    cbn [fst] in Hreal.
    assert (Habs : forall s, abspath w s = Raise e ->
                             world_ok w = false /\ e = os_error ENOENT None).
    { intros s. unfold abspath, getcwd.
      destruct (isabs s); [discriminate|].
      destruct (world_ok w); [discriminate|].
      intros Hx. injection Hx as <-. auto. }
    destruct j as [s|s|e'].
    + right; right; right. eapply Habs; eassumption.
    + right; right; right. eapply Habs; eassumption.
    + injection Hreal as ->.
      destruct (joinrealpath_fault _ _ _ _ _ Hj) as [-> | ->]; auto.
Qed.

(** [is_file] by what [stat] finds. *)
Lemma is_file_true (w : World) (c : path) :
  is_file w c = Ret true <-> exists d, os_stat w (at_path c) = StatOk (File d).
Proof.
  unfold is_file. split.
  - destruct (os_stat w (at_path c)) as [[d| | | |]|[]|];
      try discriminate; eauto.
  - intros [d ->]. reflexivity.
Qed.

Lemma is_file_false (w : World) (c : path) :
  is_file w c = Ret false <->
  (forall d, os_stat w (at_path c) <> StatOk (File d))
  /\ (forall e, os_stat w (at_path c) = StatErr e -> ignore_error e = true).
Proof.
  unfold is_file. split.
  - destruct (os_stat w (at_path c)) as [[d| | | |]|e|];
      try discriminate; try (intros _; split; congruence).
    destruct (ignore_error e) eqn:He; [|discriminate].
    intros _; split; congruence.
  - intros [H1 H2].
    destruct (os_stat w (at_path c)) as [[d| | | |]|e|];
      try reflexivity; [now elim (H1 d)|].
    now rewrite (H2 e eq_refl).
Qed.

(** What [is_file] raises is the error of [stat], when it is none of
    those that mean absence. *)
Lemma is_file_raises (w : World) (c : path) (e : exn) :
  is_file w c = Raise e <->
  exists en,
    os_stat w (at_path c) = StatErr en
    /\ ignore_error en = false
    /\ e = os_error en (Some (str_path c)).
Proof.
  unfold is_file. split.
  - destruct (os_stat w (at_path c)) as [[d| | | |]|en|];
      try discriminate.
    destruct (ignore_error en) eqn:He; [discriminate|].
    intros H. injection H as <-. eauto.
  - intros (en & -> & -> & ->). reflexivity.
Qed.

(** ** The validator, run *)

Lemma validate_cookies_path_run (cookies_path : option string) (s : State) :
  validate_cookies_path cookies_path s =
  let name := cookies_arg cookies_path in
  match resolve (world s) (Path name) with
  | Raise e => (Raise e, after_resolve s name)
  | Ret p =>
      match is_file (world s) p with
      | Ret true => (Ret p, after_is_file s name p true)
      | Ret false =>
          (Raise (mkExn FileNotFoundError (missing_cookies_message p)),
           after_is_file s name p false)
      | Raise e => (Raise e, after_is_file_error s name p e)
      end
  end.
Proof.
  cbv [validate_cookies_path path_resolve path_is_file bind emit ret raise
       cookies_arg after_resolve after_is_file after_is_file_error world trace].
  destruct s as [w tr].
  destruct (resolve w _); [|reflexivity].
  destruct (is_file w a) as [[|]|]; reflexivity.
Qed.

Lemma validate_cookies_path_ok cookies_path s p :
  resolve (world s) (Path (cookies_arg cookies_path)) = Ret p ->
  is_file (world s) p = Ret true ->
  validate_cookies_path cookies_path s =
  (Ret p, after_is_file s (cookies_arg cookies_path) p true).
Proof.
  intros Hr Hf. rewrite validate_cookies_path_run; cbv zeta.
  now rewrite Hr, Hf.
Qed.

Lemma validate_cookies_path_missing cookies_path s p :
  resolve (world s) (Path (cookies_arg cookies_path)) = Ret p ->
  is_file (world s) p = Ret false ->
  validate_cookies_path cookies_path s =
  (Raise (mkExn FileNotFoundError (missing_cookies_message p)),
   after_is_file s (cookies_arg cookies_path) p false).
Proof.
  intros Hr Hf. rewrite validate_cookies_path_run; cbv zeta.
  now rewrite Hr, Hf.
Qed.

Lemma validate_cookies_path_os_error cookies_path s p e :
  resolve (world s) (Path (cookies_arg cookies_path)) = Ret p ->
  is_file (world s) p = Raise e ->
  validate_cookies_path cookies_path s =
  (Raise e, after_is_file_error s (cookies_arg cookies_path) p e).
Proof.
  intros Hr Hf. rewrite validate_cookies_path_run; cbv zeta.
  now rewrite Hr, Hf.
Qed.

(** The validator adds no use of the library to the trace. *)
Lemma validate_cookies_path_no_library_use cookies_path s :
  no_library_use (trace s) = true ->
  no_library_use (trace (snd (validate_cookies_path cookies_path s))) = true.
Proof.
  intros H. rewrite validate_cookies_path_run; cbv zeta.
  unfold no_library_use in *.
  destruct (resolve (world s) (Path (cookies_arg cookies_path))) as [p|e].
  - destruct (is_file (world s) p) as [[|]|];
      cbn [snd after_is_file after_is_file_error trace];
      now rewrite !forallb_app, H.
  - cbn [snd after_resolve trace]. now rewrite forallb_app, H.
Qed.


(** ** Traces of [main] *)

Lemma snoc_split {A} (l before after : list A) (x y : A) :
  l ++ [x] = before ++ y :: after ->
  (after = [] /\ before = l /\ y = x)
  \/ exists after', after = after' ++ [x] /\ l = before ++ y :: after'.
Proof.
  intros E.
  destruct after as [|z after] using rev_ind.
  - left. apply app_inj_tail in E as [-> ->]. auto.
  - right. clear IHafter. exists after.
    change (before ++ y :: after ++ [z])
      with (before ++ (y :: after) ++ [z]) in E.
    rewrite app_assoc in E. apply app_inj_tail in E as [-> ->]. auto.
Qed.

Lemma validator_first_snoc (tr : list Event) (e : Event) :
  validator_first tr ->
  (is_library_use e = true -> validated tr) ->
  validator_first (tr ++ [e]).
Proof.
  intros Hf He before e' after E Hlib.
  destruct (snoc_split _ _ _ _ _ E) as [(-> & -> & ->)|(after' & -> & ->)].
  - auto.
  - eapply Hf; eauto.
Qed.

Lemma validated_snoc (tr : list Event) (e : Event) :
  validated tr -> validated (tr ++ [e]).
Proof. intros [p Hp]. exists p. apply in_or_app; auto. Qed.

Lemma no_library_use_first (tr : list Event) :
  no_library_use tr = true -> validator_first tr.
Proof.
  intros H before e after -> Hlib.
  unfold no_library_use in H. rewrite forallb_app in H.
  apply andb_prop in H as [_ H]. simpl in H.
  rewrite Hlib in H. discriminate.
Qed.

Lemma preserves_ret {A} (I : State -> Prop) (a : A) : preserves I (ret a).
Proof. intros s H; exact H. Qed.

Lemma preserves_raise {A} (I : State -> Prop) (e : exn) :
  preserves I (@raise A e).
Proof. intros s H; exact H. Qed.

Lemma preserves_bind {A B} (I : State -> Prop) (m : M A) (k : A -> M B) :
  preserves I m -> (forall a, preserves I (k a)) -> preserves I (bind m k).
Proof.
  intros Hm Hk s H. unfold bind.
  specialize (Hm s H).
  destruct (m s) as [[a|e] s']; simpl in *; auto.
  now apply Hk.
Qed.

Section MainFacts.
Variable gamdl_import : list Event -> string -> World -> Res unit * World.
Variable gamdl_call :
  list Event -> string -> list Value -> World -> Res Value * World.

Lemma preserves_call (callee : string) (args : list Value) :
  preserves checked (call gamdl_call callee args).
Proof.
  intros s [Hf Hv]. unfold call.
  destruct (gamdl_call (trace s) callee args (world s)) as [res w'].
  split; cbn [snd trace].
  - apply validator_first_snoc; auto.
  - now apply validated_snoc.
Qed.

Lemma preserves_method (callee name : string) (receiver : Value)
  (args : list Value) :
  preserves checked (method gamdl_call callee name receiver args).
Proof.
  destruct receiver; try apply preserves_raise. apply preserves_call.
Qed.

Lemma preserves_iterate (v : Value) : preserves checked (iterate v).
Proof. destruct v as [|text|id|items]; intros s H; exact H. Qed.

Lemma preserves_for_each (items : list Value) (body : Value -> M Value) :
  (forall item, preserves checked (body item)) ->
  preserves checked (for_each items body).
Proof.
  intros Hbody. induction items as [|item items IH]; simpl.
  - apply preserves_ret.
  - apply preserves_bind; auto.
Qed.

Lemma preserves_download (cookies_path : path) :
  preserves checked (download gamdl_call cookies_path).
Proof.
  unfold download.
  repeat first
    [ apply preserves_call
    | apply preserves_method
    | apply preserves_ret
    | apply preserves_iterate
    | apply preserves_for_each; intros ?
    | apply preserves_bind; [|intros ?]
    | match goal with
      | |- preserves _ (if ?b then _ else _) => destruct b
      end ].
Qed.

Lemma preserves_import_from (module : string) :
  preserves (fun s => no_library_use (trace s) = true)
            (import_from gamdl_import module).
Proof.
  intros s H. unfold import_from.
  destruct (gamdl_import (trace s) module (world s)) as [res w'].
  cbn [snd trace]. unfold no_library_use in *.
  now rewrite forallb_app, H.
Qed.

Lemma preserves_imports :
  preserves (fun s => no_library_use (trace s) = true)
            (imports gamdl_import).
Proof.
  unfold imports.
  repeat first [apply preserves_import_from
               |apply preserves_bind; [|intros ?]].
Qed.

Lemma main_run (s : State) :
  main gamdl_import gamdl_call s =
  match imports gamdl_import s with
  | (Ret _, s1) =>
      match validate_cookies_path None s1 with
      | (Ret cookies_path, s2) => download gamdl_call cookies_path s2
      | (Raise e, s2) => (Raise e, s2)
      end
  | (Raise e, s1) => (Raise e, s1)
  end.
Proof. reflexivity. Qed.
End MainFacts.

(** ** Invariants of [main] *)

Lemma bind_after {A B} (I : State -> Prop) (m : M A) (k : A -> M B) (s : State) :
  (forall a, preserves I (k a)) ->
  I (snd (m s)) ->
  I (snd (bind m k s)).
Proof.
  intros Hk H. unfold bind.
  destruct (m s) as [[a|e] s']; cbn [snd] in *; auto.
  now apply Hk.
Qed.

Lemma no_library_use_never_calls (callee : string) (tr : list Event) :
  no_library_use tr = true -> never_calls callee tr = true.
Proof.
  unfold no_library_use, never_calls.
  induction tr as [|e tr IH]; simpl; [reflexivity|].
  intros H. apply andb_prop in H as [He H].
  rewrite (IH H). destruct e; simpl in *; try reflexivity. discriminate.
Qed.

Lemma no_library_use_no_call (events before after : list Event) callee args :
  no_library_use events = true ->
  events <> before ++ EvCall callee args :: after.
Proof.
  intros H E. subst events. unfold no_library_use in H.
  rewrite forallb_app in H. apply andb_prop in H as [_ H]. discriminate.
Qed.

(** The first use of the library in a trace is at one place only. *)
Lemma first_library_use (b1 b2 a1 a2 : list Event) (e1 e2 : Event) :
  b1 ++ e1 :: a1 = b2 ++ e2 :: a2 ->
  no_library_use b1 = true -> is_library_use e1 = true ->
  no_library_use b2 = true -> is_library_use e2 = true ->
  b1 = b2 /\ e1 = e2.
Proof.
  revert b2. induction b1 as [|x b1 IH]; intros [|y b2] E H1 He1 H2 He2;
    simpl in *.
  - injection E as -> _. auto.
  - injection E as -> _. apply andb_prop in H2 as [H2 _].
    rewrite He1 in H2. discriminate.
  - injection E as -> _. apply andb_prop in H1 as [H1 _].
    rewrite He2 in H1. discriminate.
  - injection E as -> E. apply andb_prop in H1 as [_ H1].
    apply andb_prop in H2 as [_ H2].
    destruct (IH b2 E H1 He1 H2 He2) as [-> ->]. auto.
Qed.

Section Invariants.
Variable gamdl_import : list Event -> string -> World -> Res unit * World.
Variable gamdl_call :
  list Event -> string -> list Value -> World -> Res Value * World.
Variable I : State -> Prop.
Hypothesis I_call :
  forall callee args, preserves I (call gamdl_call callee args).

Lemma inv_method (callee name : string) (receiver : Value)
  (args : list Value) :
  preserves I (method gamdl_call callee name receiver args).
Proof.
  destruct receiver; try apply preserves_raise. apply I_call.
Qed.

Lemma inv_iterate (v : Value) : preserves I (iterate v).
Proof. destruct v as [|text|id|items]; intros s H; exact H. Qed.

Lemma inv_for_each (items : list Value) (body : Value -> M Value) :
  (forall item, preserves I (body item)) ->
  preserves I (for_each items body).
Proof.
  intros Hbody. induction items as [|item items IH]; simpl.
  - apply preserves_ret.
  - apply preserves_bind; auto.
Qed.

(** What every call keeps, [download] keeps from its first call on. *)
Lemma inv_download (cookies_path : path) (s : State) :
  I (snd (call gamdl_call "AppleMusicApi.from_netscape_cookies"
            [VStr (str_path cookies_path)] s)) ->
  I (snd (download gamdl_call cookies_path s)).
Proof.
  intros H. unfold download.
  apply bind_after; [intros apple_music_api|exact H].
  repeat first
    [ apply I_call
    | apply inv_method
    | apply preserves_ret
    | apply inv_iterate
    | apply inv_for_each; intros ?
    | apply preserves_bind; [|intros ?]
    | match goal with
      | |- preserves _ (if ?b then _ else _) => destruct b
      end ].
Qed.
End Invariants.

Section MoreMainFacts.
Variable gamdl_import : list Event -> string -> World -> Res unit * World.
Variable gamdl_call :
  list Event -> string -> list Value -> World -> Res Value * World.

(** [download] opens with the cookie file handed to the library. *)
Lemma download_first_call (cookies_path : path) (s : State) :
  exists rest,
    trace (snd (download gamdl_call cookies_path s))
    = trace s ++ EvCall "AppleMusicApi.from_netscape_cookies"
                        [VStr (str_path cookies_path)] :: rest.
Proof.
  apply (@inv_download gamdl_call
           (fun s' => exists rest,
              trace s' = trace s
                ++ EvCall "AppleMusicApi.from_netscape_cookies"
                          [VStr (str_path cookies_path)] :: rest)).
  - intros callee args s' [rest E]. unfold call.
    destruct (gamdl_call (trace s') callee args (world s')) as [res w'].
    cbn [snd trace]. exists (rest ++ [EvCall callee args]).
    now rewrite E, <- app_assoc.
  - unfold call.
    destruct (gamdl_call (trace s) _ _ (world s)) as [res w'].
    cbn [snd trace]. now exists [].
Qed.

(** What the imports leave in the trace: the first few of them, all three
    when none raises. *)
Lemma imports_events (s : State) :
  exists n,
    1 <= n <= 3
    /\ trace (snd (imports gamdl_import s)) = trace s ++ firstn n import_events
    /\ (n < 3 -> exists e, fst (imports gamdl_import s) = Raise e).
Proof.
  unfold imports, bind, import_from.
  destruct (gamdl_import (trace s) "gamdl.api" (world s)) as [[[]|e1] w1];
    cbn [snd fst trace world].
  2: { exists 1; repeat split; try lia. eauto. }
  destruct (gamdl_import _ "gamdl.downloader" w1) as [[[]|e2] w2];
    cbn [snd fst trace world].
  2: { exists 2; repeat split; try lia.
       - now rewrite <- app_assoc.
       - eauto. }
  destruct (gamdl_import _ "gamdl.interface" w2) as [[[]|e3] w3];
    cbn [snd fst trace world];
    (exists 3; repeat split; try lia; now rewrite <- !app_assoc).
Qed.
End MoreMainFacts.

(** ** Exceptions of the library *)

Section Propagation.
Variable gamdl_import : list Event -> string -> World -> Res unit * World.
Variable gamdl_call :
  list Event -> string -> list Value -> World -> Res Value * World.

(** A step that leaves no use of the library in the trace. *)
Lemma propagates_quiet {A} (m : M A) :
  (forall s, exists events,
      trace (snd (m s)) = trace s ++ events
      /\ no_library_use events = true) ->
  propagates gamdl_call m.
Proof.
  intros H s. destruct (H s) as (events & E & Hq).
  exists events; split; [assumption|].
  intros before callee args after e E'.
  exfalso. eapply no_library_use_no_call; eassumption.
Qed.

Lemma propagates_ret {A} (a : A) : propagates gamdl_call (ret a).
Proof.
  apply propagates_quiet. intros s. exists []. now rewrite app_nil_r.
Qed.

Lemma propagates_raise {A} (e : exn) : propagates gamdl_call (@raise A e).
Proof.
  apply propagates_quiet. intros s. exists []. now rewrite app_nil_r.
Qed.

Lemma propagates_iterate (v : Value) : propagates gamdl_call (iterate v).
Proof.
  destruct v as [|text|id|items];
    apply propagates_ret || apply propagates_raise.
Qed.

Lemma propagates_call (callee : string) (args : list Value) :
  propagates gamdl_call (call gamdl_call callee args).
Proof.
  intros s. exists [EvCall callee args]. unfold call.
  destruct (gamdl_call (trace s) callee args (world s)) as [res w'] eqn:Hc.
  cbn [snd fst trace]. split; [reflexivity|].
  intros before c a after e E Hraise.
  destruct before as [|x before].
  - injection E as <- <- <-. split; [reflexivity|].
    specialize (Hraise (world s)).
    rewrite app_nil_r, Hc in Hraise. exact Hraise.
  - injection E as _ E. now destruct before.
Qed.

Lemma propagates_method (callee name : string) (receiver : Value)
  (args : list Value) :
  propagates gamdl_call (method gamdl_call callee name receiver args).
Proof.
  destruct receiver; try apply propagates_raise. apply propagates_call.
Qed.

Lemma propagates_bind {A B} (m : M A) (k : A -> M B) :
  propagates gamdl_call m ->
  (forall a, propagates gamdl_call (k a)) ->
  propagates gamdl_call (bind m k).
Proof.
  intros Hm Hk s. destruct (Hm s) as (ev1 & E1 & P1). unfold bind.
  destruct (m s) as [[a|e1] s1]; cbn [fst snd] in *.
  - destruct (Hk a s1) as (ev2 & E2 & P2).
    exists (ev1 ++ ev2). split; [now rewrite E2, E1, app_assoc|].
    intros before callee args after e E Hraise.
    apply app_eq_app in E as [l [[Ea Eb]|[Ea Eb]]].
    + destruct l as [|x l].
      * rewrite app_nil_r in Ea. subst ev1. simpl in Eb.
        apply (P2 [] callee args after e); [now symmetry|].
        intros w. rewrite app_nil_r, E1. apply Hraise.
      * injection Eb as <- ->. subst ev1.
        destruct (P1 before callee args l e eq_refl Hraise) as [_ Hr].
        discriminate.
    + subst before ev2.
      apply (P2 l callee args after e eq_refl).
      intros w. rewrite E1, <- app_assoc. apply Hraise.
  - exists ev1; split; [assumption|].
    intros before callee args after e E Hraise.
    destruct (P1 before callee args after e E Hraise) as [Ha Hr].
    split; [assumption|]. injection Hr as ->. reflexivity.
Qed.

Lemma propagates_for_each (items : list Value) (body : Value -> M Value) :
  (forall item, propagates gamdl_call (body item)) ->
  propagates gamdl_call (for_each items body).
Proof.
  intros Hbody. induction items as [|item items IH]; simpl.
  - apply propagates_ret.
  - apply propagates_bind; auto.
Qed.

Lemma propagates_download (cookies_path : path) :
  propagates gamdl_call (download gamdl_call cookies_path).
Proof.
  unfold download.
  repeat first
    [ apply propagates_call
    | apply propagates_method
    | apply propagates_ret
    | apply propagates_iterate
    | apply propagates_for_each; intros ?
    | apply propagates_bind; [|intros ?]
    | match goal with
      | |- propagates _ (if ?b then _ else _) => destruct b
      end ].
Qed.

Lemma propagates_validate_cookies_path (cookies_path : option string) :
  propagates gamdl_call (validate_cookies_path cookies_path).
Proof.
  apply propagates_quiet. intros s.
  rewrite validate_cookies_path_run; cbv zeta.
  destruct (resolve (world s) (Path (cookies_arg cookies_path))) as [p|e].
  - destruct (is_file (world s) p) as [[|]|];
      cbn [snd after_is_file after_is_file_error trace];
      eexists; (split; [symmetry; apply app_assoc|reflexivity]).
  - cbn [snd after_resolve trace]. eexists; split; reflexivity.
Qed.

Lemma propagates_imports : propagates gamdl_call (imports gamdl_import).
Proof.
  apply propagates_quiet. intros s.
  destruct (imports_events gamdl_import s) as (n & Hn & E & _).
  exists (firstn n import_events). split; [assumption|].
  destruct n as [|[|[|[|n]]]]; try lia; reflexivity.
Qed.

Lemma propagates_main : propagates gamdl_call (main gamdl_import gamdl_call).
Proof.
  unfold main.
  apply propagates_bind; [apply propagates_imports|intros _].
  apply propagates_bind;
    [apply propagates_validate_cookies_path|apply propagates_download].
Qed.
End Propagation.

(** ** Runs of [download] *)

Section DownloadRuns.
Variable gamdl_call :
  list Event -> string -> list Value -> World -> Res Value * World.

(** A loop of calls that ends without exception leaves one call per item,
    in order. *)
Lemma for_each_calls (callee : string) (d : Value) (items : list Value) :
  forall s s',
    for_each items (fun item => call gamdl_call callee [d; item]) s
    = (Ret tt, s') ->
    trace s' = trace s ++ map (fun item => EvCall callee [d; item]) items.
Proof.
  induction items as [|item items IH]; intros s s' H; simpl in *.
  - injection H as <-. now rewrite app_nil_r.
  - unfold bind in H. unfold call in H at 1.
    destruct (gamdl_call (trace s) callee [d; item] (world s)) as [[v|e] w];
      [|discriminate].
    apply IH in H. cbn [trace] in H. now rewrite H, <- app_assoc.
Qed.

(** The receiver of the next method call is an instance, or the run ends
    there. *)
Ltac receiver_in H :=
  match type of H with
  | context [match ?v with
             | VNone => _ | VStr _ => _ | VObj _ => _ | VList _ => _
             end] =>
      is_var v; destruct v;
      cbv beta iota zeta delta [raise] in H;
      cbn [fst snd world trace] in H;
      try discriminate H
  end.

(** One step of a run: the next call into the library, other than the
    request for the queue, is answered. *)
Ltac answer_call_in H :=
  match type of H with
  | context [gamdl_call ?tr0 ?callee0 ?args0 ?world0] =>
      lazymatch callee0 with
      | "AppleMusicDownloader.get_download_queue" => fail
      | _ => idtac
      end;
      destruct (gamdl_call tr0 callee0 args0 world0) as [[?v|?e] ?w] eqn:?;
      cbn [fst snd world trace] in H;
      try discriminate H
  end.

Ltac answer_call :=
  match goal with
  | |- context [gamdl_call ?tr0 ?callee0 ?args0 ?world0] =>
      destruct (gamdl_call tr0 callee0 args0 world0) as [[?v|?e] ?w] eqn:?;
      cbn [fst snd world trace]
  end.

Ltac trace_of_calls Hq Hd :=
  rewrite <- ?app_assoc;
  unfold never_calls in *; rewrite ?forallb_app, ?Hq, ?Hd;
  repeat split; reflexivity.

(** When [download] ends without exception, either the queue was never
    asked for and nothing downloaded, or the trace ends with the request
    for the queue and one download per item of the answer. *)
Lemma download_completed (cookies_path : path) (s s' : State) :
  never_calls queue_call (trace s) = true ->
  never_calls download_call (trace s) = true ->
  download gamdl_call cookies_path s = (Ret tt, s') ->
  (never_calls queue_call (trace s') = true
   /\ never_calls download_call (trace s') = true)
  \/ exists tr d u w w' q,
       gamdl_call tr queue_call [d; u] w = (Ret q, w')
       /\ trace s' = tr ++ EvCall queue_call [d; u]
                        :: map (fun item => EvCall download_call [d; item])
                               (items_of q).
Proof.
  intros Hq Hd H. unfold download in H.
  cbv beta iota zeta delta [bind call method] in H.
  repeat first [answer_call_in H | receiver_in H].
  match type of H with
  | context [truthy ?v] => destruct (truthy v)
  end.
  2: { left. injection H as <-. cbn [trace]. trace_of_calls Hq Hd. }
  right.
  match type of H with
  | context [gamdl_call ?tr0 ?callee0 ?args0 ?world0] =>
      destruct (gamdl_call tr0 callee0 args0 world0) as [[q|e] w'] eqn:Hcall;
      cbn [fst snd world trace] in H;
      [|discriminate H];
      exists tr0;
      match args0 with [?d; ?u] => exists d, u end;
      exists world0, w', q
  end.
  split; [exact Hcall|].
  destruct (truthy q) eqn:Htruthy.
  - destruct q as [|text|instance|items];
      cbv beta iota zeta delta [iterate ret raise] in H;
      try discriminate.
    + apply for_each_calls in H. cbn [trace] in H |- *.
      rewrite H, <- app_assoc. reflexivity.
    + apply for_each_calls in H. cbn [trace] in H |- *.
      rewrite H, <- app_assoc. reflexivity.
  - injection H as <-. cbn [trace].
    destruct q as [|text|instance|items]; try discriminate.
    + reflexivity.
    + simpl in Htruthy. apply negb_false_iff, String.eqb_eq in Htruthy.
      subst text. reflexivity.
    + destruct items; [reflexivity|discriminate].
Qed.

Section Falsy.
Variable asked : string.
Hypothesis falsy :
  forall tr args w v w',
    gamdl_call tr asked args w = (Ret v, w') -> truthy v = false.

Ltac answer_falsy :=
  match goal with
  | |- context [gamdl_call ?tr0 ?callee0 ?args0 ?world0] =>
      destruct (gamdl_call tr0 callee0 args0 world0) as [[?v|?e] ?w] eqn:?;
      cbn [fst snd world trace];
      try match goal with
          | Hanswer : gamdl_call _ _ _ _ = (Ret ?v, _) |- context [truthy ?v] =>
              rewrite (@falsy _ _ _ _ _ Hanswer)
          end;
      try match goal with
          | |- context [if truthy ?v then _ else _] => destruct (truthy v)
          end;
      cbn [fst snd world trace]
  end.

Ltac receiver :=
  match goal with
  | |- context [match ?v with
                | VNone => _ | VStr _ => _ | VObj _ => _ | VList _ => _
                end] =>
      is_var v; destruct v;
      cbv beta iota zeta delta [raise];
      cbn [fst snd world trace]
  end.


(** With a falsy queue, nothing is downloaded. *)
Lemma download_falsy_queue (cookies_path : path) (s : State) :
  asked = queue_call ->
  never_calls download_call (trace s) = true ->
  never_calls download_call
    (trace (snd (download gamdl_call cookies_path s))) = true.
Proof.
  intros Hasked Hd. unfold download.
  cbv beta iota zeta delta [bind call method].
  unfold queue_call in Hasked. subst asked.
  repeat first [answer_falsy | receiver];
    cbv beta iota zeta delta [ret] ; cbn [fst snd world trace];
    trace_of_calls Hd Hd.
Qed.
End Falsy.
End DownloadRuns.

Section MainRuns.
Variable gamdl_import : list Event -> string -> World -> Res unit * World.
Variable gamdl_call :
  list Event -> string -> list Value -> World -> Res Value * World.

(** A run of [main] ends before any use of the library, or goes into
    [download] from a state without one. *)
Lemma main_cases (s : State) :
  trace s = [] ->
  no_library_use (trace (snd (main gamdl_import gamdl_call s))) = true
  \/ exists cookies_path s2,
       no_library_use (trace s2) = true
       /\ main gamdl_import gamdl_call s
          = download gamdl_call cookies_path s2.
Proof.
  intros Ht. rewrite main_run.
  assert (Hn : no_library_use (trace s) = true) by now rewrite Ht.
  pose proof (@preserves_imports gamdl_import s Hn) as Hi.
  destruct (imports gamdl_import s) as [[[]|e0] s1]; cbn [snd] in *;
    [|now left].
  pose proof (validate_cookies_path_no_library_use None s1 Hi) as Hn2.
  destruct (validate_cookies_path None s1) as [[p|e1] s2]; cbn [snd] in *;
    [|now left].
  right. now exists p, s2.
Qed.
End MainRuns.


(** ** Writing a file and finding it *)

Lemma child_set_child (name : string) (x : node) (entries : list (string * node)) :
  child name (set_child name x entries) = Some x.
Proof.
  induction entries as [|[n y] entries IH]; simpl.
  - now rewrite String.eqb_refl.
  - destruct (String.eqb n name) eqn:E; simpl; now rewrite E.
Qed.

(** What is put at a location of a directory is found there. *)
Lemma lookup_put (x : node) (name : string) (dir : path) :
  forall n,
    is_dir (lookup n dir) = true ->
    lookup (put n (dir ++ [name]) x) (dir ++ [name]) = Some x.
Proof.
  induction dir as [|y dir IH]; intros n H; simpl in *.
  - destruct n as [| | |entries|]; try discriminate.
    destruct (child name entries); simpl; now rewrite child_set_child.
  - destruct n as [| | |entries|]; try discriminate.
    destruct (child y entries) as [n'|] eqn:E; [|discriminate].
    simpl. rewrite child_set_child. now apply IH.
Qed.

(** The directories above it stay directories. *)
Lemma is_dir_put (x : node) (name : string) (q : path) :
  forall b n,
    is_dir (lookup n (q ++ b)) = true ->
    is_dir (lookup (put n ((q ++ b) ++ [name]) x) q) = true.
Proof.
  induction q as [|y q IH]; intros b n H; simpl in *.
  - destruct b as [|z b]; simpl in *.
    + destruct n as [| | |entries|]; try discriminate.
      destruct (child name entries); reflexivity.
    + destruct n as [| | |entries|]; try discriminate.
      destruct (child z entries); [reflexivity|discriminate].
  - destruct n as [| | |entries|]; try discriminate.
    destruct (child y entries) as [n'|] eqn:E; [|discriminate].
    simpl. rewrite child_set_child. now apply IH.
Qed.

Lemma canonical_from_put (r x : node) (name : string) (rest : list string) :
  forall cur,
    canonical_from r cur rest = true ->
    is_dir (lookup r (cur ++ rest)) = true ->
    canonical_from (put r ((cur ++ rest) ++ [name]) x) cur rest = true.
Proof.
  induction rest as [|z rest IH]; intros cur Hc Hd; simpl in *; [reflexivity|].
  apply andb_prop in Hc as [Hz Hc]. rewrite Hz; simpl.
  assert (E : cur ++ z :: rest = (cur ++ [z]) ++ rest)
    by now rewrite <- app_assoc.
  rewrite E in Hd |- *.
  pose proof (is_dir_put x name (cur ++ [z]) rest r Hd) as Hdir.
  destruct (lookup (put r (((cur ++ [z]) ++ rest) ++ [name]) x) (cur ++ [z]))
    as [[| | |entries|]|]; try discriminate.
  apply IH; [|assumption].
  destruct (lookup r (cur ++ [z])) as [[| | | |]|]; try discriminate; assumption.
Qed.

Section CreateFacts.
Variable r : node.

Lemma namei_create_nil (b : nat) (cur : path) :
  namei_create r b cur [] = Some cur.
Proof. destruct b; reflexivity. Qed.

Lemma namei_create_cons (b : nat) (cur : path) (name : string)
  (rest : list string) :
  namei_create r b cur (name :: rest) =
  match lookup r cur with
  | Some (Dir _) =>
      if is_skip name then namei_create r b cur rest
      else if String.eqb name pardir then namei_create r b (parent cur) rest
      else if too_long name then None
      else if has_nul name then None
      else
        match lookup r (cur ++ [name]) with
        | None =>
            match rest with
            | [] => Some (cur ++ [name])
            | _ :: _ => None
            end
        | Some (Symlink t) =>
            match b with
            | O => None
            | S b' =>
                if String.eqb t "" then None
                else namei_create r b' (if isabs t then [] else cur)
                                  (split_sep t ++ rest)
            end
        | Some _ => namei_create r b (cur ++ [name]) rest
        end
  | Some _ => None
  | None =>
      if is_skip name then namei_create r b cur rest
      else if String.eqb name pardir then namei_create r b (parent cur) rest
      else None
  end.
Proof. destruct b; reflexivity. Qed.

Lemma namei_create_canonical_prefix (b : nat) (a : list string) :
  forall cur rest,
    canonical_from r cur a = true ->
    namei_create r b cur (a ++ rest) = namei_create r b (cur ++ a) rest.
Proof.
  induction a as [|x a IH]; intros cur rest H.
  - now rewrite app_nil_r.
  - simpl app. rewrite namei_create_cons. simpl in H.
    apply andb_prop in H as [Hx H].
    destruct (entry_name_parts _ Hx) as (Hskip & Hpar & Hnul & _ & Hlong).
    destruct (lookup r (cur ++ [x])) as [m|] eqn:Hl; [|discriminate].
    pose proof (lookup_snoc_dir _ _ _ Hl) as Hdir.
    destruct (lookup r cur) as [[| | |entries|]|]; try discriminate.
    rewrite Hskip, Hpar, Hnul, Hlong.
    destruct m; try discriminate;
      rewrite (IH _ _ H), <- app_assoc; reflexivity.
Qed.
End CreateFacts.

(** A new file in a canonical directory: [write_text] puts it there. *)
Lemma write_text_new (w : World) (dir : path) (name data : string) :
  canonical (root w) dir = true ->
  is_dir (lookup (root w) dir) = true ->
  entry_name name = true ->
  lookup (root w) (dir ++ [name]) = None ->
  write_text w (at_path (dir ++ [name])) data
  = Some {| root := put (root w) (dir ++ [name]) (File data); cwd := cwd w |}.
Proof.
  intros Hc Hd Hname Hl. unfold write_text.
  change (origin w (at_path (dir ++ [name]))) with (@nil string).
  change (parts (at_path (dir ++ [name]))) with (dir ++ [name]).
  destruct (entry_name_parts _ Hname) as (Hskip & Hpar & Hnul & _ & Hlong).
  rewrite existsb_app, (canonical_from_no_nul _ _ _ Hc).
  cbn [existsb orb]. rewrite Hnul. cbn [orb].
  rewrite (namei_create_canonical_prefix (root w) MAXSYMLINKS dir [] [name] Hc).
  change ([] ++ dir) with dir.
  rewrite namei_create_cons.
  destruct (lookup (root w) dir) as [[| | |entries|]|]; try discriminate.
  now rewrite Hskip, Hpar, Hnul, Hlong, Hl, Hl.
Qed.

(** [chdir] into a canonical directory. *)
Lemma chdir_canonical (w : World) (dir : path) :
  canonical (root w) dir = true ->
  is_dir (lookup (root w) dir) = true ->
  chdir w (at_path dir) = Some {| root := root w; cwd := dir |}.
Proof.
  intros Hc Hd. unfold chdir.
  change (origin w (at_path dir)) with (@nil string).
  change (parts (at_path dir)) with dir.
  rewrite (canonical_from_no_nul _ _ _ Hc).
  rewrite (canonical_namei (root w) MAXSYMLINKS dir [] Hc).
  change ([] ++ dir) with dir. now rewrite Hd.
Qed.

(** A name a canonical directory does not hold: its path resolves to
    itself and is no file, whatever the working directory. *)
Lemma resolve_absent_at (w : World) (dir : path) (name : string) :
  canonical (root w) dir = true ->
  is_dir (lookup (root w) dir) = true ->
  entry_name name = true ->
  lookup (root w) (dir ++ [name]) = None ->
  resolve w (at_path (dir ++ [name])) = Ret (dir ++ [name])
  /\ is_file w (dir ++ [name]) = Ret false.
Proof.
  intros Hc Hd Hname Hl. split.
  - apply (@resolve_last w (at_path (dir ++ [name])) dir name);
      auto; try reflexivity.
    change (origin w (at_path (dir ++ [name])) ++ dir) with dir.
    now rewrite Hl.
  - unfold is_file. now rewrite (os_stat_absent_at w _ _ Hc Hd Hname Hl).
Qed.

(** ** The model at work *)

(** Links are followed and [.] and [..] removed. *)
Example resolve_follows_links :
  resolve cookies_world (Path "exports/./../latest")
  = Ret ["work"; "cookies.txt"].
Proof. vm_compute. reflexivity. Qed.

(** A link that points at itself: [realpath] gives the link back and the
    [stat] that follows ends in [ELOOP]. *)
Example resolve_self_loop :
  realpath cookies_world "self" = Ret "/work/self"
  /\ resolve cookies_world (Path "self")
     = Raise (mkExn RuntimeError "Symlink loop from '/work/self'").
Proof. vm_compute. split; reflexivity. Qed.

(** [realpath] steps back over a missing component, which the kernel
    refuses to walk through. *)
Example resolve_over_missing_component :
  os_stat cookies_world (Path "missing/../cookies.txt") = StatErr ENOENT
  /\ fst (validate_cookies_path (Some "missing/../cookies.txt")
            (fresh cookies_world))
     = Ret ["work"; "cookies.txt"].
Proof. vm_compute. split; reflexivity. Qed.

(** A NUL in the path stops [os.lstat]. *)
Example resolve_embedded_null :
  resolve cookies_world (Path (String Ascii.zero "cookies.txt"))
  = Raise embedded_null.
Proof. vm_compute. reflexivity. Qed.

(** On a cycle of links the answer depends on how the path is spelled:
    [seen] knows a link by the string it was reached under. *)
Example resolve_cycle_by_spelling :
  resolve cycle_world (Path "a/../cookies.txt") = Ret ["tmp"; "cookies.txt"]
  /\ resolve cycle_world (Path "/work/a/../cookies.txt")
     = Ret ["work"; "cookies.txt"].
Proof. vm_compute. split; reflexivity. Qed.

(** A name of more than [NAME_MAX] bytes: [resolve] returns, [is_file]
    raises the [OSError] of [stat]. *)
Example is_file_name_too_long :
  resolve cookies_world (Path long_name) = Ret ["work"; long_name]
  /\ is_file cookies_world ["work"; long_name]
     = Raise (os_error ENAMETOOLONG (Some (str_path ["work"; long_name]))).
Proof. vm_compute. split; reflexivity. Qed.

(** From a working directory that has been removed: a relative path ends
    at [getcwd], also where the kernel still finds the file by it; an
    absolute path does not ask for the working directory. *)
Example resolve_removed_cwd :
  resolve gone_world (Path "cookies.txt")
  = Raise (mkExn FileNotFoundError "[Errno 2] No such file or directory")
  /\ os_stat gone_world (Path "../work/latest") = StatOk (File "dummy")
  /\ resolve gone_world (Path "../work/latest")
     = Raise (mkExn FileNotFoundError "[Errno 2] No such file or directory")
  /\ resolve gone_world (Path "/work/latest") = Ret ["work"; "cookies.txt"].
Proof. vm_compute. repeat split; reflexivity. Qed.

(** A directory the process may not search: [stat] of the directory
    succeeds, [stat] of anything below fails with [EACCES], which
    [is_file] raises; [realpath] steps back over it by the spelling, where
    the kernel refuses. *)
Example resolve_locked_directory :
  is_file locked_world ["work"; "vault"] = Ret false
  /\ resolve locked_world (Path "vault/cookies.txt")
     = Ret ["work"; "vault"; "cookies.txt"]
  /\ is_file locked_world ["work"; "vault"; "cookies.txt"]
     = Raise (mkExn PermissionError
                "[Errno 13] Permission denied: '/work/vault/cookies.txt'")
  /\ os_stat locked_world (Path "vault/../cookies.txt") = StatErr EACCES
  /\ fst (validate_cookies_path (Some "vault/../cookies.txt")
            (fresh locked_world))
     = Ret ["work"; "cookies.txt"].
Proof. vm_compute. repeat split; reflexivity. Qed.

(* ================================================================== *)
(** * Part III: the claims *)

(** ** The validator *)









(** C4.  A resolved path that exists without being a regular file (a
    directory, a special file) fails exactly as a missing one does:
    [FileNotFoundError] with the same message. *)
Theorem validate_cookies_path_not_regular
  (s : State) (p : string) (rp : path) (n : node) :
  resolve (world s) (Path p) = Ret rp ->
  os_stat (world s) (at_path rp) = StatOk n ->
  (forall d, n <> File d) ->
  fst (validate_cookies_path (Some p) s) =
  Raise (mkExn FileNotFoundError (missing_cookies_message rp)).
Proof.
  intros Hres Hstat Hn.
  assert (Hno : is_file (world s) rp = Ret false).
  { apply is_file_false. rewrite Hstat. split; [|discriminate].
    intros d Hd. injection Hd as ->. now elim (Hn d). }
  now rewrite (@validate_cookies_path_missing (Some p) s rp Hres Hno).
Qed.

Lemma validate_cookies_path_not_regular_witness :
  fst (validate_cookies_path (Some "exports") (fresh cookies_world)) =
  Raise (mkExn FileNotFoundError (missing_cookies_message ["work"; "exports"])).
Proof.
  apply (@validate_cookies_path_not_regular
           (fresh cookies_world) "exports" ["work"; "exports"]
           (Dir [("old.txt", File "stale")])).
  - vm_compute; reflexivity.
  - vm_compute; reflexivity.
  - intros d; discriminate.
Defined.

(** C5.  Called without argument, the validator does in every state what it
    does for the literal relative name [cookies.txt]: same result, same
    state afterwards, and that name is taken from the working directory of
    the state it is called in. *)
Theorem validate_cookies_path_default (s : State) :
  validate_cookies_path None s = validate_cookies_path (Some "cookies.txt") s
  /\ Path "cookies.txt" = {| absolute := false; parts := ["cookies.txt"] |}
  /\ origin (world s) (Path "cookies.txt") = cwd (world s).
Proof. repeat split. Qed.

(** C6.  Two calls in a row with the same argument give the same result:
    the path both times, or the same error with the same message. *)
Theorem validate_cookies_path_idempotent
  (cookies_path : option string) (s : State) :
  fst (validate_cookies_path cookies_path
         (snd (validate_cookies_path cookies_path s)))
  = fst (validate_cookies_path cookies_path s).
Proof.
  rewrite (validate_cookies_path_run cookies_path s); cbv zeta.
  destruct (resolve (world s) (Path (cookies_arg cookies_path)))
    as [p|e] eqn:Hres.
  - destruct (is_file (world s) p) as [[|]|e] eqn:Hf; cbn [fst snd].
    + rewrite (@validate_cookies_path_ok cookies_path _ p); auto.
    + rewrite (@validate_cookies_path_missing cookies_path _ p); auto.
    + rewrite (@validate_cookies_path_os_error cookies_path _ p e); auto.
  - cbn [fst snd]. rewrite validate_cookies_path_run; cbv zeta.
    cbn [after_resolve world]. now rewrite Hres.
Qed.

(** C7.  The validator leaves the file system and the working directory as
    they were; all it does is resolve a path and ask whether it is a file. *)
Theorem validate_cookies_path_frame
  (cookies_path : option string) (s : State) :
  world (snd (validate_cookies_path cookies_path s)) = world s
  /\ exists events,
       trace (snd (validate_cookies_path cookies_path s)) = trace s ++ events
       /\ forallb is_metadata_query events = true.
Proof.
  rewrite validate_cookies_path_run; cbv zeta.
  destruct (resolve (world s) (Path (cookies_arg cookies_path))) as [p|e].
  - destruct (is_file (world s) p) as [[|]|e];
      cbn [snd after_is_file after_is_file_error world trace];
      (split; [reflexivity|]);
      eexists; (split; [symmetry; apply app_assoc|reflexivity]).
  - cbn [snd after_resolve world trace]. split; [reflexivity|].
    eexists; split; reflexivity.
Qed.

(** C8, as the claim states it, fails: the class [FileNotFoundError] is
    also that of a generic failure of the operating system.  Called from a
    working directory that has been removed, the validator raises the
    [FileNotFoundError] of [os.getcwd]; a handler for that class takes it,
    and it is not the missing-file error. *)
Lemma validate_cookies_path_error_kind_counterexample :
  exists e,
    fst (validate_cookies_path None (fresh gone_world)) = Raise e
    /\ caught_by FileNotFoundError e = true
    /\ e = os_error ENOENT None
    /\ forall rp, e <> mkExn FileNotFoundError (missing_cookies_message rp).
Proof.
  eexists. split; [vm_compute; reflexivity|].
  split; [reflexivity|]. split; [reflexivity|].
  intros rp H. discriminate H.
Qed.

(** C8, amended.  While the working directory exists, the outcome says by
    its kind alone what happened.  A result is a resolved path that is a
    regular file.  An exception that [except FileNotFoundError] takes is
    the missing-file error of a path that resolved to something other than
    a regular file.  Any other exception passes such a handler: it is the
    [RuntimeError], [RecursionError] or [ValueError] that [Path.resolve]
    raised, or the [OSError] or [PermissionError] that [Path.is_file]
    raised. *)
Theorem validate_cookies_path_error_kind
  (cookies_path : option string) (p : string) (s : State) :
  world_ok (world s) = true ->
  cookies_path = Some p \/ (cookies_path = None /\ p = "cookies.txt") ->
  match fst (validate_cookies_path cookies_path s) with
  | Ret rp =>
      resolve (world s) (Path p) = Ret rp
      /\ is_file (world s) rp = Ret true
  | Raise e =>
      if caught_by FileNotFoundError e then
        exists rp,
          resolve (world s) (Path p) = Ret rp
          /\ is_file (world s) rp = Ret false
          /\ e = mkExn FileNotFoundError (missing_cookies_message rp)
      else
        (resolve (world s) (Path p) = Raise e
         /\ (exn_type e = RuntimeError \/ exn_type e = RecursionError
             \/ exn_type e = ValueError))
        \/ (exists rp,
              resolve (world s) (Path p) = Ret rp
              /\ is_file (world s) rp = Raise e
              /\ (exn_type e = OSError \/ exn_type e = PermissionError))
  end.
Proof.
  intros Hw Harg.
  assert (Hp : cookies_arg cookies_path = p)
    by (destruct Harg as [->|[-> ->]]; reflexivity).
  rewrite validate_cookies_path_run; cbv zeta. rewrite Hp.
  destruct (resolve (world s) (Path p)) as [rp|e] eqn:Hres.
  - destruct (is_file (world s) rp) as [[|]|e] eqn:Hf; cbn [fst].
    + split; auto.
    + change (caught_by FileNotFoundError
                (mkExn FileNotFoundError (missing_cookies_message rp)))
        with true; cbv iota.
      exists rp; repeat split; auto.
    + pose proof Hf as He. apply is_file_raises in He.
      destruct He as (en & _ & Hen & He). rewrite He in *.
      destruct en; try discriminate Hen;
        match goal with
        | |- context [caught_by ?c ?x] => change (caught_by c x) with false
        end; cbv iota; right; exists rp; repeat split; auto.
  - cbn [fst].
    destruct (resolve_raises _ _ Hres)
      as [He|[He|[[rp He]|[Hno _]]]]; [| | |congruence];
      rewrite He in *;
      match goal with
      | |- context [caught_by ?c ?x] => change (caught_by c x) with false
      end; cbv iota; left; (split; [reflexivity|]).
    + right; right; reflexivity.
    + right; left; reflexivity.
    + left; reflexivity.
Qed.

Lemma validate_cookies_path_error_kind_witness :
  exists rp,
    resolve empty_world (Path "cookies.txt") = Ret rp
    /\ is_file empty_world rp = Ret false
    /\ mkExn FileNotFoundError (missing_cookies_message ["tmp"; "cookies.txt"])
       = mkExn FileNotFoundError (missing_cookies_message rp).
Proof.
  exact (@validate_cookies_path_error_kind
           None "cookies.txt" (fresh empty_world) eq_refl
           (or_intror (conj eq_refl eq_refl))).
Defined.



(** ** [main] *)

(** C9.  [main] calls the validator before it builds or uses any object of
    the library: in the trace of a run, whatever uses the library comes
    after a check that answered yes.  When the validator raises, [main]
    ends with that exception and the trace holds no use of the library, so
    no session, interface or downloader was built and nothing downloaded. *)
Theorem main_validates_first
  (gamdl_import : list Event -> string -> World -> Res unit * World)
  (gamdl_call : list Event -> string -> list Value -> World -> Res Value * World)
  (s : State) :
  trace s = [] ->
  validator_first (trace (snd (main gamdl_import gamdl_call s)))
  /\ forall s1 e,
       imports gamdl_import s = (Ret tt, s1) ->
       fst (validate_cookies_path None s1) = Raise e ->
       fst (main gamdl_import gamdl_call s) = Raise e
       /\ no_library_use (trace (snd (main gamdl_import gamdl_call s))) = true.
Proof.
  intros Ht. rewrite main_run.
  assert (Hn : no_library_use (trace s) = true) by now rewrite Ht.
  pose proof (@preserves_imports gamdl_import s Hn) as Hi.
  destruct (imports gamdl_import s) as [[[]|e0] s1] eqn:Himp; cbn [snd] in Hi.
  - pose proof (validate_cookies_path_no_library_use None s1 Hi) as Hn2.
    pose proof (validate_cookies_path_run None s1) as Hrun; cbv zeta in Hrun.
    destruct (validate_cookies_path None s1) as [[p|e1] s2] eqn:Hv;
      cbn [fst snd] in *.
    + split.
      * apply preserves_download. split.
        -- now apply no_library_use_first.
        -- destruct (resolve (world s1) (Path (cookies_arg None))) as [q|e2];
             [|discriminate].
           destruct (is_file (world s1) q) as [[|]|e2]; try discriminate.
           injection Hrun as -> ->. exists q.
           cbn [after_is_file trace].
           apply in_or_app; right; left; reflexivity.
      * intros s1' e Hs1 He. injection Hs1 as <-.
        rewrite Hv in He. discriminate.
    + split.
      * now apply no_library_use_first.
      * intros s1' e Hs1 He. injection Hs1 as <-.
        rewrite Hv in He. cbn [fst] in He. injection He as <-.
        split; [reflexivity|assumption].
  - split.
    + now apply no_library_use_first.
    + intros s1' e Hs1. discriminate.
Qed.

Lemma main_validates_first_witness :
  validator_first
    (trace (snd (main stub_import stub_call (fresh empty_world))))
  /\ forall s1 e,
       imports stub_import (fresh empty_world) = (Ret tt, s1) ->
       fst (validate_cookies_path None s1) = Raise e ->
       fst (main stub_import stub_call (fresh empty_world)) = Raise e
       /\ no_library_use
            (trace (snd (main stub_import stub_call (fresh empty_world))))
          = true.
Proof.
  apply (main_validates_first stub_import stub_call (fresh empty_world)).
  reflexivity.
Defined.

(** Without the cookie file [main] stops at the validator: three imports,
    the two looks at the file system, and the error. *)
Example main_without_cookies :
  main stub_import stub_call (fresh empty_world) =
  (Raise (mkExn FileNotFoundError
            (missing_cookies_message ["tmp"; "cookies.txt"])),
   {| world := empty_world;
      trace := [EvImport "gamdl.api"; EvImport "gamdl.downloader";
                EvImport "gamdl.interface";
                EvResolve (Path "cookies.txt");
                EvIsFile ["tmp"; "cookies.txt"] false] |}).
Proof. vm_compute. reflexivity. Qed.

(** With it, the library is handed the resolved path and both queued items
    are downloaded. *)
Example main_with_cookies :
  let out := main stub_import stub_call (fresh cookies_world) in
  fst out = Ret tt
  /\ nth_error (trace (snd out)) 5 =
     Some (EvCall "AppleMusicApi.from_netscape_cookies"
                  [VStr "/work/cookies.txt"])
  /\ skipn 23 (trace (snd out)) =
     [EvCall "AppleMusicDownloader.download" [VObj 0; VObj 1];
      EvCall "AppleMusicDownloader.download" [VObj 0; VObj 2]].
Proof. vm_compute. repeat split. Qed.

(** A library that answers [None] where [main] expects an instance: the
    interpreter stops [main] at the first method call on it, and the
    library is not reached again. *)
Example main_with_mute_library :
  main stub_import mute_call (fresh cookies_world) =
  (Raise (mkExn AttributeError "'NoneType' object has no attribute 'setup'"),
   {| world := cookies_world;
      trace := [EvImport "gamdl.api"; EvImport "gamdl.downloader";
                EvImport "gamdl.interface";
                EvResolve (Path "cookies.txt");
                EvIsFile ["work"; "cookies.txt"] true;
                EvCall "AppleMusicApi.from_netscape_cookies"
                       [VStr "/work/cookies.txt"]] |}).
Proof. vm_compute. reflexivity. Qed.
(* ================================================================== *)
(** * Part IV: further properties *)

(** One name under the working directory, no link: [Path.resolve] gives
    that location, whether the name is there or not. *)
Lemma resolve_entry (w : World) (name : string) :
  world_ok w = true ->
  entry_name name = true ->
  is_link (lookup (root w) (cwd w ++ [name])) = false ->
  resolve w {| absolute := false; parts := [name] |} = Ret (cwd w ++ [name]).
Proof.
  intros Hw Hname Hl. destruct (world_ok_parts _ Hw) as (Hc & Hd & _).
  pose proof (@resolve_last w {| absolute := false; parts := [name] |}
                [] name (or_introl Hw) eq_refl) as H.
  change (origin w {| absolute := false; parts := [name] |})
    with (cwd w) in H.
  rewrite app_nil_r in H. apply H; auto.
Qed.

(** ** Paths and their strings *)

(** X1.  Writing a location out and parsing it again gives the location
    back: [Path(str(p)) == p] for an absolute path of plain names. *)
Theorem Path_str_path (p : path) :
  plain_path p = true ->
  Path (str_path p) = at_path p.
Proof.
  intros Hp. unfold Path, at_path.
  rewrite (parts_str_path p Hp). reflexivity.
Qed.

Lemma Path_str_path_witness :
  Path (str_path ["work"; "cookies.txt"]) = at_path ["work"; "cookies.txt"].
Proof.
  apply (Path_str_path ["work"; "cookies.txt"]). reflexivity.
Defined.

(** ** The validator *)

(** X2.  Called without argument from a directory that holds a regular
    file [cookies.txt], the validator returns that file's location. *)
Theorem validate_cookies_path_default_present (s : State) (d : string) :
  world_ok (world s) = true ->
  lookup (root (world s)) (cwd (world s) ++ ["cookies.txt"]) = Some (File d) ->
  fst (validate_cookies_path None s) = Ret (cwd (world s) ++ ["cookies.txt"]).
Proof.
  intros Hw Hl. destruct (world_ok_parts _ Hw) as (Hc & Hd & _).
  assert (Hc' : canonical (root (world s)) (cwd (world s) ++ ["cookies.txt"])
                = true).
  { apply canonical_snoc; rewrite ?Hl; auto; discriminate. }
  pose proof (@os_stat_canonical (world s) _ _ Hc' Hl) as Hstat.
  rewrite (@validate_cookies_path_ok None s
             (cwd (world s) ++ ["cookies.txt"])); [reflexivity| |].
  - change (Path (cookies_arg None))
      with {| absolute := false; parts := ["cookies.txt"] |}.
    apply resolve_entry; auto. now rewrite Hl.
  - unfold is_file. now rewrite Hstat.
Qed.

Lemma validate_cookies_path_default_present_witness :
  fst (validate_cookies_path None (fresh cookies_world))
  = Ret (cwd cookies_world ++ ["cookies.txt"]).
Proof.
  apply (@validate_cookies_path_default_present (fresh cookies_world) "dummy");
    reflexivity.
Defined.

(** X3.  Called without argument from a directory without [cookies.txt],
    the validator raises the missing-file error naming [cookies.txt] in
    that directory. *)
Theorem validate_cookies_path_default_missing (s : State) :
  world_ok (world s) = true ->
  lookup (root (world s)) (cwd (world s) ++ ["cookies.txt"]) = None ->
  fst (validate_cookies_path None s) =
  Raise (mkExn FileNotFoundError
           (missing_cookies_message (cwd (world s) ++ ["cookies.txt"]))).
Proof.
  intros Hw Hl.
  pose proof (@os_stat_absent (world s) "cookies.txt" Hw eq_refl Hl) as Hstat.
  rewrite (@validate_cookies_path_missing None s
             (cwd (world s) ++ ["cookies.txt"])); [reflexivity| |].
  - change (Path (cookies_arg None))
      with {| absolute := false; parts := ["cookies.txt"] |}.
    apply resolve_entry; auto. now rewrite Hl.
  - unfold is_file. now rewrite Hstat.
Qed.

Lemma validate_cookies_path_default_missing_witness :
  fst (validate_cookies_path None (fresh empty_world)) =
  Raise (mkExn FileNotFoundError
           (missing_cookies_message (cwd empty_world ++ ["cookies.txt"]))).
Proof.
  apply (validate_cookies_path_default_missing (fresh empty_world));
    reflexivity.
Defined.



(** X5.  The validator accepts its own result: when a path leads to a
    regular file, validating the string of the returned path, in the state
    the first call left, returns the same path again. *)
Theorem validate_cookies_path_again (s : State) (p : string) (d : string) :
  world_ok (world s) = true ->
  plain_path (cwd (world s)) = true ->
  os_stat (world s) (Path p) = StatOk (File d) ->
  exists c,
    fst (validate_cookies_path (Some p) s) = Ret c
    /\ fst (validate_cookies_path (Some (str_path c))
              (snd (validate_cookies_path (Some p) s))) = Ret c.
Proof.
  intros Hw Hplain Hstat.
  destruct (@resolve_of_stat (world s) Hw (Path p) _
              (Path_parts_components p) Hstat) as (c & Hres & Hn & Hc & Hl).
  assert (Hfile : is_file (world s) c = Ret true).
  { apply is_file_true. exists d.
    now apply (@os_stat_canonical (world s) c (File d)). }
  exists c.
  rewrite (@validate_cookies_path_ok (Some p) s c Hres Hfile).
  split; [reflexivity|]. cbn [snd].
  rewrite (@validate_cookies_path_ok (Some (str_path c)) _ c);
    [reflexivity| |assumption].
  cbn [cookies_arg after_is_file world].
  rewrite (@Path_of_str_path c (plain_of_canonical _ _ Hc)).
  now apply (@resolve_canonical (world s) Hw c (File d)).
Qed.

Lemma validate_cookies_path_again_witness :
  exists c,
    fst (validate_cookies_path (Some "latest") (fresh cookies_world)) = Ret c
    /\ fst (validate_cookies_path (Some (str_path c))
              (snd (validate_cookies_path (Some "latest")
                      (fresh cookies_world)))) = Ret c.
Proof.
  apply (@validate_cookies_path_again (fresh cookies_world) "latest" "dummy");
    vm_compute; reflexivity.
Defined.

(** X6.  A relative path that leads the kernel to an object is validated
    as the same path written out from the working directory: both calls
    end alike, with the same path or the same error.  (Where the kernel
    finds nothing the two spellings may part: [realpath] remembers the
    links it has met by the path as spelled, see
    [resolve_cycle_by_spelling].) *)
Theorem validate_cookies_path_relative (s : State) (p : string) (n : node) :
  world_ok (world s) = true ->
  isabs p = false ->
  os_stat (world s) (Path p) = StatOk n ->
  fst (validate_cookies_path (Some (from_cwd (world s) p)) s)
  = fst (validate_cookies_path (Some p) s).
Proof.
  intros Hw Hrel Hstat.
  destruct (world_ok_parts _ Hw) as (Hc & Hd & _).
  pose proof (plain_of_canonical _ _ Hc) as Hplain.
  assert (Hrel' : absolute (Path p) = false) by exact Hrel.
  destruct (@resolve_of_stat (world s) Hw (Path p) _
              (Path_parts_components p) Hstat) as (c & Hres & Hn & _ & _).
  assert (Hstat' : os_stat (world s) (Path (from_cwd (world s) p)) = StatOk n).
  { rewrite (Path_from_cwd _ p Hplain).
    unfold os_stat, sys_stat in *. cbn [parts absolute origin] in *.
    unfold origin in Hstat, Hn. rewrite Hrel' in Hstat, Hn.
    rewrite existsb_app, (canonical_from_no_nul _ _ _ Hc). cbn [orb].
    destruct (existsb has_nul (parts (Path p))); [discriminate|].
    unfold origin; cbn [absolute].
    rewrite (namei_canonical_prefix (root (world s)) MAXSYMLINKS
               (cwd (world s)) [] (parts (Path p)) Hc).
    exact Hstat. }
  assert (Hcomp : forallb component (parts (Path (from_cwd (world s) p))) = true)
    by apply Path_parts_components.
  destruct (@resolve_of_stat (world s) Hw (Path (from_cwd (world s) p)) _
              Hcomp Hstat') as (c' & Hres' & Hn' & _ & _).
  assert (c' = c).
  { rewrite (Path_from_cwd _ p Hplain) in Hn'.
    unfold origin in Hn, Hn'. rewrite Hrel' in Hn. cbn [absolute parts] in Hn'.
    rewrite (namei_canonical_prefix (root (world s)) MAXSYMLINKS
               (cwd (world s)) [] (parts (Path p)) Hc) in Hn'.
    cbn [app] in Hn'. congruence. }
  subst c'.
  rewrite !validate_cookies_path_run; cbv zeta. cbn [cookies_arg].
  rewrite Hres, Hres'.
  destruct (is_file (world s) c) as [[|]|e]; reflexivity.
Qed.

Lemma validate_cookies_path_relative_witness :
  fst (validate_cookies_path (Some (from_cwd cookies_world "exports/../latest"))
         (fresh cookies_world))
  = fst (validate_cookies_path (Some "exports/../latest") (fresh cookies_world)).
Proof.
  apply (@validate_cookies_path_relative
           (fresh cookies_world) "exports/../latest" (File "dummy"));
    vm_compute; reflexivity.
Defined.

(** ** [main] *)

(** X7.  The first thing [main] asks of the library is
    [AppleMusicApi.from_netscape_cookies], and the cookie path it hands over
    is the string of the path the validator returned, for which the check
    answered yes just before. *)
Theorem main_hands_over_validated_path
  (gamdl_import : list Event -> string -> World -> Res unit * World)
  (gamdl_call : list Event -> string -> list Value -> World -> Res Value * World)
  (s : State) (before after : list Event) (e : Event) :
  trace s = [] ->
  trace (snd (main gamdl_import gamdl_call s)) = before ++ e :: after ->
  no_library_use before = true ->
  is_library_use e = true ->
  exists cookies_path,
    e = EvCall "AppleMusicApi.from_netscape_cookies"
               [VStr (str_path cookies_path)]
    /\ In (EvIsFile cookies_path true) before.
Proof.
  intros Ht E Hb He. rewrite main_run in E.
  assert (Hn : no_library_use (trace s) = true) by now rewrite Ht.
  pose proof (@preserves_imports gamdl_import s Hn) as Hi.
  assert (Hquiet : forall tr, no_library_use tr = true ->
                              tr <> before ++ e :: after).
  { intros tr Hq ->. unfold no_library_use in Hq.
    rewrite forallb_app in Hq. apply andb_prop in Hq as [_ Hq].
    simpl in Hq. rewrite He in Hq. discriminate. }
  destruct (imports gamdl_import s) as [[[]|e0] s1]; cbn [snd] in *;
    [|now elim (Hquiet _ Hi)].
  pose proof (validate_cookies_path_no_library_use None s1 Hi) as Hn2.
  pose proof (validate_cookies_path_run None s1) as Hrun; cbv zeta in Hrun.
  destruct (validate_cookies_path None s1) as [[p|e1] s2];
    cbn [snd] in *; [|now elim (Hquiet _ Hn2)].
  destruct (download_first_call gamdl_call p s2) as (rest & Hd).
  rewrite Hd in E.
  destruct (first_library_use _ _ _ _ _ _ E Hn2 eq_refl Hb He) as [<- <-].
  exists p; split; [reflexivity|].
  destruct (resolve (world s1) (Path (cookies_arg None))) as [q|e2];
    [|discriminate].
  destruct (is_file (world s1) q) as [[|]|e3]; try discriminate.
  injection Hrun as -> ->. cbn [after_is_file trace].
  apply in_or_app; right; left; reflexivity.
Qed.

Lemma main_hands_over_validated_path_witness :
  exists cookies_path,
    EvCall "AppleMusicApi.from_netscape_cookies" [VStr "/work/cookies.txt"]
    = EvCall "AppleMusicApi.from_netscape_cookies"
             [VStr (str_path cookies_path)]
    /\ In (EvIsFile cookies_path true)
          (import_events
           ++ [EvResolve (Path "cookies.txt");
               EvIsFile ["work"; "cookies.txt"] true]).
Proof.
  apply (@main_hands_over_validated_path stub_import stub_call
           (fresh cookies_world)
           (import_events
            ++ [EvResolve (Path "cookies.txt");
                EvIsFile ["work"; "cookies.txt"] true])
           (skipn 6 (trace (snd (main stub_import stub_call
                                   (fresh cookies_world)))))).
  - reflexivity.
  - vm_compute. reflexivity.
  - reflexivity.
  - reflexivity.
Defined.

(** X8.  [main] catches nothing and goes on after nothing: a call that the
    library answers by an exception, whatever the state of the world, is
    the last entry of the trace, and [main] ends with that exception. *)
Theorem main_propagates_library_error
  (gamdl_import : list Event -> string -> World -> Res unit * World)
  (gamdl_call : list Event -> string -> list Value -> World -> Res Value * World)
  (s : State) (before after : list Event)
  (callee : string) (args : list Value) (e : exn) :
  trace s = [] ->
  trace (snd (main gamdl_import gamdl_call s))
  = before ++ EvCall callee args :: after ->
  (forall w, fst (gamdl_call before callee args w) = Raise e) ->
  after = [] /\ fst (main gamdl_import gamdl_call s) = Raise e.
Proof.
  intros Ht E Hraise.
  destruct (propagates_main gamdl_import gamdl_call s) as (events & Ev & P).
  rewrite Ht in Ev, P. cbn [app] in Ev, P.
  apply (P before callee args after e); [congruence|assumption].
Qed.

Lemma main_propagates_library_error_witness :
  @nil Event = []
  /\ fst (main stub_import broken_call (fresh cookies_world))
     = Raise (mkExn RuntimeError "no storefront").
Proof.
  apply (@main_propagates_library_error stub_import broken_call
           (fresh cookies_world)
           (import_events
            ++ [EvResolve (Path "cookies.txt");
                EvIsFile ["work"; "cookies.txt"] true;
                EvCall "AppleMusicApi.from_netscape_cookies"
                       [VStr "/work/cookies.txt"];
                EvCall "AppleMusicApi.setup" [VObj 0];
                EvCall "AppleMusicApi.storefront" [VObj 0];
                EvCall "AppleMusicApi.language" [VObj 0]])
           [] "ItunesApi" [VObj 0; VObj 0]).
  - reflexivity.
  - vm_compute. reflexivity.
  - intros w. reflexivity.
Defined.

(** X9.  When one of the three imports raises, [main] ends with that
    exception before it looks at the cookie file: the trace holds the
    imports tried, at most three, and nothing else. *)
Theorem main_import_error
  (gamdl_import : list Event -> string -> World -> Res unit * World)
  (gamdl_call : list Event -> string -> list Value -> World -> Res Value * World)
  (s : State) (e : exn) :
  fst (imports gamdl_import s) = Raise e ->
  fst (main gamdl_import gamdl_call s) = Raise e
  /\ exists n,
       1 <= n <= 3
       /\ trace (snd (main gamdl_import gamdl_call s))
          = trace s ++ firstn n import_events.
Proof.
  intros H. rewrite main_run.
  destruct (imports_events gamdl_import s) as (n & Hn & E & _).
  destruct (imports gamdl_import s) as [[[]|e0] s1]; cbn [fst snd] in *;
    [discriminate|].
  split; [assumption|]. exists n; auto.
Qed.

Lemma main_import_error_witness :
  fst (main missing_import stub_call (fresh cookies_world))
  = Raise (mkExn ImportError "No module named 'gamdl.downloader'")
  /\ exists n,
       1 <= n <= 3
       /\ trace (snd (main missing_import stub_call (fresh cookies_world)))
          = trace (fresh cookies_world) ++ firstn n import_events.
Proof.
  apply (@main_import_error missing_import stub_call (fresh cookies_world)).
  reflexivity.
Defined.

(** X10.  [main] itself changes nothing in the world: with a library whose
    imports and calls leave the file system and the working directory as
    they are, so does the whole run. *)
Theorem main_frame
  (gamdl_import : list Event -> string -> World -> Res unit * World)
  (gamdl_call : list Event -> string -> list Value -> World -> Res Value * World)
  (s : State) :
  (forall tr module w, snd (gamdl_import tr module w) = w) ->
  (forall tr callee args w, snd (gamdl_call tr callee args w) = w) ->
  world (snd (main gamdl_import gamdl_call s)) = world s.
Proof.
  intros Hi Hc.
  assert (Hcall : forall callee args,
             preserves (fun s' => world s' = world s)
                       (call gamdl_call callee args)).
  { intros callee args s' H. unfold call.
    pose proof (Hc (trace s') callee args (world s')) as Hw.
    destruct (gamdl_call (trace s') callee args (world s')) as [res w'].
    cbn [snd world] in *. congruence. }
  assert (Himport : forall module,
             preserves (fun s' => world s' = world s)
                       (import_from gamdl_import module)).
  { intros module s' H. unfold import_from.
    pose proof (Hi (trace s') module (world s')) as Hw.
    destruct (gamdl_import (trace s') module (world s')) as [res w'].
    cbn [snd world] in *. congruence. }
  apply (@preserves_bind _ _ (fun s' => world s' = world s));
    [| |reflexivity].
  - unfold imports.
    repeat first [apply Himport | apply preserves_bind; [|intros ?]].
  - intros _. apply preserves_bind.
    + intros s' H. rewrite validate_cookies_path_run; cbv zeta.
      destruct (resolve (world s') (Path (cookies_arg None))) as [p|e];
        [destruct (is_file (world s') p) as [[|]|e']|]; exact H.
    + intros p s' H. apply inv_download; [assumption|].
      now apply Hcall.
Qed.

Lemma main_frame_witness :
  world (snd (main stub_import stub_call (fresh cookies_world)))
  = world (fresh cookies_world).
Proof.
  apply (@main_frame stub_import stub_call (fresh cookies_world)).
  - intros tr module w. reflexivity.
  - intros tr callee args w. unfold stub_call.
    destruct (String.eqb callee _); reflexivity.
Defined.



(** X12.  When the download queue the library answers is falsy ([None] or
    empty), [main] downloads nothing. *)
Theorem main_without_queue
  (gamdl_import : list Event -> string -> World -> Res unit * World)
  (gamdl_call : list Event -> string -> list Value -> World -> Res Value * World)
  (s : State) :
  trace s = [] ->
  (forall tr args w v w',
      gamdl_call tr queue_call args w = (Ret v, w') -> truthy v = false) ->
  never_calls download_call
    (trace (snd (main gamdl_import gamdl_call s))) = true.
Proof.
  intros Ht Hfalsy.
  destruct (main_cases gamdl_import gamdl_call s Ht)
    as [Hquiet|(p & s2 & Hquiet & ->)].
  - now apply no_library_use_never_calls.
  - apply (@download_falsy_queue gamdl_call queue_call Hfalsy);
      [reflexivity|]; now apply no_library_use_never_calls.
Qed.

Lemma main_without_queue_witness :
  never_calls download_call
    (trace (snd (main stub_import idle_call (fresh cookies_world)))) = true.
Proof.
  apply (@main_without_queue stub_import idle_call (fresh cookies_world)).
  - reflexivity.
  - intros tr args w v w' H. injection H as <- _. reflexivity.
Defined.

(** X13.  When [main] ends without exception, either it never asked for
    the queue and downloaded nothing, or its trace ends with the request
    for the queue followed by exactly one download per item of the
    library's answer, in the order of the answer and on the downloader the
    queue was asked of. *)
Theorem main_downloads_the_queue
  (gamdl_import : list Event -> string -> World -> Res unit * World)
  (gamdl_call : list Event -> string -> list Value -> World -> Res Value * World)
  (s s' : State) :
  trace s = [] ->
  main gamdl_import gamdl_call s = (Ret tt, s') ->
  (never_calls queue_call (trace s') = true
   /\ never_calls download_call (trace s') = true)
  \/ exists tr d u w w' q,
       gamdl_call tr queue_call [d; u] w = (Ret q, w')
       /\ trace s' = tr ++ EvCall queue_call [d; u]
                        :: map (fun item => EvCall download_call [d; item])
                               (items_of q).
Proof.
  intros Ht H.
  destruct (main_cases gamdl_import gamdl_call s Ht)
    as [Hquiet|(p & s2 & Hquiet & E)].
  - rewrite H in Hquiet. cbn [snd] in Hquiet.
    left; split; now apply no_library_use_never_calls.
  - rewrite E in H.
    apply (download_completed gamdl_call p s2);
      try assumption; now apply no_library_use_never_calls.
Qed.

Lemma main_downloads_the_queue_witness :
  (never_calls queue_call
     (trace (snd (main stub_import stub_call (fresh cookies_world)))) = true
   /\ never_calls download_call
        (trace (snd (main stub_import stub_call (fresh cookies_world)))) = true)
  \/ exists tr d u w w' q,
       stub_call tr queue_call [d; u] w = (Ret q, w')
       /\ trace (snd (main stub_import stub_call (fresh cookies_world)))
          = tr ++ EvCall queue_call [d; u]
               :: map (fun item => EvCall download_call [d; item])
                      (items_of q).
Proof.
  apply (@main_downloads_the_queue stub_import stub_call (fresh cookies_world)).
  - reflexivity.
  - vm_compute. reflexivity.
Defined.

(** ** The tests *)

(** X14.  [test_validate_cookies_path_missing_file] passes for every
    temporary directory without [cookies.txt], wherever the test is run
    from: the validator raises [FileNotFoundError] and the message holds
    the text the test looks for. *)
Theorem test_validate_cookies_path_missing_file_passes
  (tmp_path : path) (w : World) :
  canonical (root w) tmp_path = true ->
  plain_path tmp_path = true ->
  is_dir (lookup (root w) tmp_path) = true ->
  lookup (root w) (tmp_path ++ ["cookies.txt"]) = None ->
  test_validate_cookies_path_missing_file tmp_path w = Passed.
Proof.
  intros Hc Hp Hd Hl. unfold test_validate_cookies_path_missing_file.
  cbv zeta.
  destruct (@resolve_absent_at w tmp_path "cookies.txt" Hc Hd eq_refl Hl)
    as [Hres Hfile].
  assert (Hplain : plain_path (tmp_path ++ ["cookies.txt"]) = true).
  { unfold plain_path in *. now rewrite forallb_app, Hp. }
  rewrite (@validate_cookies_path_missing
             (Some (str_path (tmp_path ++ ["cookies.txt"]))) (fresh w)
             (tmp_path ++ ["cookies.txt"])); [reflexivity| |assumption].
  cbn [cookies_arg fresh world].
  rewrite (@Path_of_str_path _ Hplain). exact Hres.
Qed.

Lemma test_validate_cookies_path_missing_file_passes_witness :
  test_validate_cookies_path_missing_file ["tmp"] cookies_world = Passed.
Proof.
  apply (test_validate_cookies_path_missing_file_passes ["tmp"] cookies_world);
    reflexivity.
Defined.

(** X15.  [test_validate_cookies_path_present_file] passes for every
    temporary directory that does not hold [cookies.txt] yet: the file the
    test writes is the one the validator, run from that directory without
    argument, returns, and it equals [cookies_file.resolve()]. *)
Theorem test_validate_cookies_path_present_file_passes
  (tmp_path : path) (w : World) :
  canonical (root w) tmp_path = true ->
  is_dir (lookup (root w) tmp_path) = true ->
  lookup (root w) (tmp_path ++ ["cookies.txt"]) = None ->
  test_validate_cookies_path_present_file tmp_path w = Passed.
Proof.
  intros Hc Hd Hl. unfold test_validate_cookies_path_present_file.
  cbv zeta.
  rewrite (@write_text_new w tmp_path "cookies.txt" dummy_content
             Hc Hd eq_refl Hl).
  set (r1 := put (root w) (tmp_path ++ ["cookies.txt"]) (File dummy_content)).
  assert (Hc1 : canonical r1 tmp_path = true).
  { unfold canonical, r1.
    apply (canonical_from_put (root w) (File dummy_content) "cookies.txt"
             tmp_path []); assumption. }
  assert (Hd1 : is_dir (lookup r1 tmp_path) = true).
  { pose proof (is_dir_put (File dummy_content) "cookies.txt"
                  tmp_path [] (root w)) as H.
    rewrite app_nil_r in H. now apply H. }
  assert (Hl1 : lookup r1 (tmp_path ++ ["cookies.txt"])
                = Some (File dummy_content))
    by now apply lookup_put.
  rewrite (@chdir_canonical {| root := r1; cwd := cwd w |} tmp_path Hc1 Hd1).
  cbn [root].
  set (w2 := {| root := r1; cwd := tmp_path |}).
  assert (Hc2 : canonical (root w2) (cwd w2 ++ ["cookies.txt"]) = true).
  { apply canonical_snoc; cbn [root cwd w2]; rewrite ?Hl1; auto; discriminate. }
  pose proof (@os_stat_canonical w2 _ _ Hc2 Hl1) as Hstat.
  assert (Hw2 : world_ok w2 = true).
  { unfold world_ok. cbn [root cwd w2]. now rewrite Hc1, Hd1. }
  assert (Hres : resolve w2 (Path (cookies_arg None))
                 = Ret (cwd w2 ++ ["cookies.txt"])).
  { change (Path (cookies_arg None))
      with {| absolute := false; parts := ["cookies.txt"] |}.
    apply resolve_entry; auto. cbn [root cwd w2]. now rewrite Hl1. }
  assert (Hfile : is_file w2 (cwd w2 ++ ["cookies.txt"]) = Ret true)
    by (unfold is_file; now rewrite Hstat).
  rewrite (@validate_cookies_path_ok None (fresh w2) _ Hres Hfile).
  cbn [fst].
  rewrite (@resolve_canonical w2 Hw2 (tmp_path ++ ["cookies.txt"]) _ Hc2 Hl1).
  cbn [cwd w2].
  destruct (path_eq_dec (tmp_path ++ ["cookies.txt"])
              (tmp_path ++ ["cookies.txt"])); congruence.
Qed.

Lemma test_validate_cookies_path_present_file_passes_witness :
  test_validate_cookies_path_present_file ["tmp"] cookies_world = Passed.
Proof.
  apply (test_validate_cookies_path_present_file_passes ["tmp"] cookies_world);
    reflexivity.
Defined.

(** ** What else the validator can raise *)

(** X16.  When [stat] of the resolved path fails with an error that
    [Path.is_file] does not take for absence (a name of more than
    [NAME_MAX] bytes, a directory the process may not search), the
    validator raises the [OSError] of that failure, about the resolved
    path, and not its own error: a handler for [OSError] takes it, one for
    [FileNotFoundError] does not. *)
Theorem validate_cookies_path_stat_error
  (s : State) (p : string) (rp : path) (e : errno) :
  resolve (world s) (Path p) = Ret rp ->
  os_stat (world s) (at_path rp) = StatErr e ->
  ignore_error e = false ->
  validate_cookies_path (Some p) s
  = (Raise (os_error e (Some (str_path rp))),
     {| world := world s;
        trace := trace s ++ [EvResolve (Path p);
                             EvIsFileError rp
                               (os_error e (Some (str_path rp)))] |})
  /\ caught_by OSError (os_error e (Some (str_path rp))) = true
  /\ caught_by FileNotFoundError (os_error e (Some (str_path rp))) = false.
Proof.
  intros Hres Hstat He.
  assert (Hf : is_file (world s) rp
               = Raise (os_error e (Some (str_path rp))))
    by (unfold is_file; now rewrite Hstat, He).
  split; [|destruct e; try discriminate He; split; reflexivity].
  rewrite validate_cookies_path_run; cbv zeta. cbn [cookies_arg].
  rewrite Hres, Hf. unfold after_is_file_error, after_resolve.
  cbn [world trace]. now rewrite <- app_assoc.
Qed.

Lemma validate_cookies_path_stat_error_witness :
  validate_cookies_path (Some "key") (fresh locked_world)
  = (Raise (mkExn PermissionError
              "[Errno 13] Permission denied: '/work/vault/cookies.txt'"),
     {| world := locked_world;
        trace := [EvResolve (Path "key");
                  EvIsFileError ["work"; "vault"; "cookies.txt"]
                    (mkExn PermissionError
                       "[Errno 13] Permission denied: '/work/vault/cookies.txt'")] |})
  /\ caught_by OSError
       (mkExn PermissionError
          "[Errno 13] Permission denied: '/work/vault/cookies.txt'") = true
  /\ caught_by FileNotFoundError
       (mkExn PermissionError
          "[Errno 13] Permission denied: '/work/vault/cookies.txt'") = false.
Proof.
  apply (@validate_cookies_path_stat_error
           (fresh locked_world) "key" ["work"; "vault"; "cookies.txt"] EACCES);
    vm_compute; reflexivity.
Defined.

(** X17.  Called without argument from a working directory that has been
    removed, the validator never gets to look for the file: [Path.resolve]
    raises the [FileNotFoundError] of [os.getcwd], which carries no file
    name. *)
Theorem validate_cookies_path_removed_cwd (s : State) :
  lookup (root (world s)) (cwd (world s)) = None ->
  validate_cookies_path None s
  = (Raise (mkExn FileNotFoundError "[Errno 2] No such file or directory"),
     {| world := world s;
        trace := trace s ++ [EvResolve (Path "cookies.txt")] |}).
Proof.
  intros Hl.
  assert (Hw : world_ok (world s) = false).
  { unfold world_ok. rewrite Hl. apply andb_false_r. }
  assert (Hres : resolve (world s) (Path "cookies.txt")
                 = Raise (os_error ENOENT None)).
  { unfold resolve.
    change (fspath (Path "cookies.txt")) with "cookies.txt".
    unfold realpath.
    change (fst (enter "" "cookies.txt")) with "".
    change (snd (enter "" "cookies.txt")) with ["cookies.txt"].
    rewrite joinrealpath_cons.
    change (is_skip "cookies.txt") with false.
    change (String.eqb "cookies.txt" pardir) with false.
    cbv iota zeta.
    change (join "" "cookies.txt") with "cookies.txt".
    assert (Hstat : os_lstat (world s) "cookies.txt" = StatErr ENOENT).
    { unfold os_lstat.
      change (has_nul "cookies.txt") with false.
      change (String.eqb "cookies.txt" "") with false.
      change (isabs "cookies.txt") with false.
      change (split_sep "cookies.txt") with ["cookies.txt"].
      cbv iota. unfold sys_lstat.
      change (last ["cookies.txt"] "") with "cookies.txt".
      change (removelast ["cookies.txt"]) with (@nil string).
      change (is_skip "cookies.txt" || String.eqb "cookies.txt" pardir)
        with false.
      cbv iota zeta. rewrite namei_nil, Hl. reflexivity. }
    rewrite Hstat, joinrealpath_nil. cbn [fst].
    unfold abspath. change (isabs "cookies.txt") with false. cbv iota.
    unfold getcwd. now rewrite Hw. }
  rewrite validate_cookies_path_run; cbv zeta.
  change (cookies_arg None) with "cookies.txt". now rewrite Hres.
Qed.

Lemma validate_cookies_path_removed_cwd_witness :
  validate_cookies_path None (fresh gone_world)
  = (Raise (mkExn FileNotFoundError "[Errno 2] No such file or directory"),
     {| world := gone_world;
        trace := [] ++ [EvResolve (Path "cookies.txt")] |}).
Proof.
  apply (validate_cookies_path_removed_cwd (fresh gone_world)).
  reflexivity.
Defined.
